(** * Terminal ASCII video player (player.py): embedding and properties

    The player converts decoded video frames to text with a brightness
    ramp and paces their display.  The Python arithmetic it relies on is
    binary64; it is modelled with the standard library's [SpecFloat]
    (precision 53, exponent bound 1024), so that [int / int], [float * int],
    [int(float)] and [round(float)] compute here what CPython computes. *)

From Stdlib Require Import ZArith List String Ascii Bool Lia.
From Stdlib Require Import Floats.SpecFloat.
Import ListNotations.
Local Open Scope Z_scope.

(** ** Python values: exceptions, results, binary64 arithmetic *)

Module Py.

(** The exceptions the player can meet.  [KeyboardInterrupt] and
    [SystemExit] derive from [BaseException] only, the others from
    [Exception]. *)
Inductive exn : Type :=
| KeyboardInterrupt
| SystemExit (code : Z)
| ZeroDivisionError
| OverflowError
| ValueError (msg : string)
| IndexError
| cv2_error.

Definition is_Exception (e : exn) : bool :=
  match e with
  | KeyboardInterrupt | SystemExit _ => false
  | _ => true
  end.

Inductive result (A : Type) : Type :=
| Ok (a : A)
| Raise (e : exn).
Arguments Ok {A} a.
Arguments Raise {A} e.

Definition rbind {A B : Type} (r : result A) (k : A -> result B) : result B :=
  match r with
  | Ok a => k a
  | Raise e => Raise e
  end.

(** *** binary64 *)

Definition prec : Z := 53.
Definition emax : Z := 1024.

Definition float : Type := spec_float.

Definition fmul : float -> float -> float := SFmul prec emax.
Definition fdiv : float -> float -> float := SFdiv prec emax.
Definition fsub : float -> float -> float := SFsub prec emax.
Definition flt : float -> float -> bool := SFltb.

(** Correctly rounded conversion of an integer (round half to even). *)
Definition float_of_Z (z : Z) : float := binary_normalize prec emax z 0 false.

Definition is_finite (f : float) : bool :=
  match f with
  | S754_zero _ | S754_finite _ _ _ => true
  | _ => false
  end.

Definition is_zero (f : float) : bool :=
  match f with
  | S754_zero _ => true
  | _ => false
  end.

(** An integer seen as an unrounded dyadic number [z * 2^0]. *)
Definition exact_Z (z : Z) : float :=
  match z with
  | Z0 => S754_zero false
  | Zpos p => S754_finite false p 0
  | Zneg p => S754_finite true p 0
  end.

(** [float(z)], as used when an [int] meets a [float] in [*] or [/]. *)
Definition int_to_float (z : Z) : result float :=
  let f := float_of_Z z in
  if is_finite f then Ok f else Raise OverflowError.

(** [a / b] on two [int]: the correctly rounded quotient. *)
Definition int_truediv (a b : Z) : result float :=
  if b =? 0 then Raise ZeroDivisionError
  else
    let q := fdiv (exact_Z a) (exact_Z b) in
    if is_finite q then Ok q else Raise OverflowError.

(** [x / y] on two [float]: only a zero divisor raises. *)
Definition float_truediv (x y : float) : result float :=
  if is_zero y then Raise ZeroDivisionError else Ok (fdiv x y).

(** [x * z] with [x] a [float] and [z] an [int]. *)
Definition float_mul_int (x : float) (z : Z) : result float :=
  rbind (int_to_float z) (fun f => Ok (fmul x f)).

(** [int(x)]: truncation toward zero. *)
Definition int_of_float (x : float) : result Z :=
  match x with
  | S754_zero _ => Ok 0
  | S754_finite s m e => Ok (cond_Zopp s (Z.shiftl (Zpos m) e))
  | S754_infinity _ => Raise OverflowError
  | S754_nan => Raise (ValueError "cannot convert float NaN to integer")
  end.



(** The literals [0.55] and [0.033] of the source, and [1.0]. *)
Definition lit_0_55 : float := S754_finite false 4953959590107546 (-53).
Definition lit_0_033 : float := S754_finite false 4755801206503244 (-57).
Definition lit_1_0 : float := S754_finite false 4503599627370496 (-52).

(** [s[i]] on a [str]: negative indices count from the end. *)
Definition str_index (s : string) (i : Z) : result ascii :=
  let n := Z.of_nat (String.length s) in
  let j := if i <? 0 then i + n else i in
  if (0 <=? j) && (j <? n) then
    match String.get (Z.to_nat j) s with
    | Some c => Ok c
    | None => Raise IndexError
    end
  else Raise IndexError.

End Py.

Import Py.

(** ** The external collaborators: OpenCV images and video captures *)

Module Cv2.

(** A decoded frame is a list of rows of (blue, green, red) samples;
    a grayscale image is a list of rows of [uint8] samples. *)
Definition BGR : Type := (Z * Z * Z)%type.
Definition ColorImage : Type := list (list BGR).
Definition GrayImage : Type := list (list Z).

Definition uint8 (z : Z) : Prop := 0 <= z <= 255.

Definition shape {A : Type} (img : list (list A)) (rows cols : Z) : Prop :=
  Z.of_nat (List.length img) = rows /\
  Forall (fun row => Z.of_nat (List.length row) = cols) img.

Definition bgr_ok (p : BGR) : Prop :=
  let '(b, g, r) := p in uint8 b /\ uint8 g /\ uint8 r.

(** A frame the decoder may hand out: at least one row, at least one
    column, rectangular, 8-bit samples. *)
Definition valid_image (img : ColorImage) : Prop :=
  exists rows cols, 0 < rows /\ 0 < cols /\ shape img rows cols /\
                    Forall (Forall bgr_ok) img.

(** [cv2.resize(frame, (width, height))] and
    [cv2.cvtColor(frame, cv2.COLOR_BGR2GRAY)]. *)
Class Ops : Type := {
  resize : ColorImage -> Z -> Z -> option ColorImage;
  cvtColor_BGR2GRAY : ColorImage -> option GrayImage
}.

(** A call that fails raises [cv2.error]. *)
Definition call {A : Type} (o : option A) : result A :=
  match o with
  | Some a => Ok a
  | None => Raise cv2_error
  end.

(** What the player relies on: resizing a valid frame to a positive
    size gives a valid frame of that size (rows = height, columns =
    width), and the grayscale conversion keeps the size and yields
    [uint8] samples. *)
Record Contract (ops : Ops) : Prop := {
  resize_ok : forall img w h,
    valid_image img -> 0 < w -> 0 < h ->
    exists out, resize img w h = Some out /\ valid_image out /\ shape out h w;
  cvtColor_ok : forall img,
    valid_image img ->
    exists g, cvtColor_BGR2GRAY img = Some g /\
              Forall (Forall uint8) g /\
              forall rows cols, shape img rows cols -> shape g rows cols
}.

(** What a video file decodes to: the four properties [cap.get]
    reports (as floats) and the frames [cap.read] delivers in order.
    The reported frame count is metadata and need not equal the number
    of frames that decode. *)
Record Video : Type := {
  v_fps : float;
  v_frame_count : float;
  v_frame_width : float;
  v_frame_height : float;
  v_frames : list ColorImage
}.

(** A [cv2.VideoCapture] object: the opened video, if any, and the index
    of the next frame to decode. *)
Record VideoCapture : Type := {
  cap_video : option Video;
  cap_pos : nat
}.

Definition closed : VideoCapture := {| cap_video := None; cap_pos := 0 |}.

End Cv2.

(** ** The world the program runs in, and the monad of its effects *)

(** One fragment of an f-string handed to [print]. *)
Inductive Piece : Type :=
| Lit (s : string)               (* literal text *)
| Str (s : string)               (* an interpolated [str] *)
| Int (z : Z)                    (* an interpolated [int] *)
| Flt (digits : nat) (x : float) (* [{x:.<digits>f}] *)
| Exn (e : exn).                 (* [{e}] for a caught exception *)

Inductive Event : Type :=
| EPrint (text : list Piece) (end_ : string)  (* [print(text, end=end_)] *)
| ESleep (seconds : float)                    (* [time.sleep] *)
| EClear                                      (* [os.system('cls'/'clear')] *)
| EOpen (path : string)                       (* [cv2.VideoCapture(path)] *)
| ESeek (frame : Z)                           (* [cap.set(CAP_PROP_POS_FRAMES, frame)] *)
| ERead (pos : nat) (ret : bool)              (* [cap.read()] at position [pos] *)
| ERelease.                                   (* [cap.release()] *)

Record World : Type := {
  env_isfile : string -> bool;              (* [os.path.isfile] *)
  env_decode : string -> option Cv2.Video;  (* what OpenCV can open *)
  env_clock : nat -> float;                 (* successive [time.time()] readings *)
  w_reads : nat;                            (* clock readings taken so far *)
  w_cap : Cv2.VideoCapture;                 (* the player's capture object *)
  w_trace : list Event;                     (* effects so far, oldest first *)
  w_sigint : option nat                     (* steps left before Ctrl+C, if any *)
}.

Definition set_cap (c : Cv2.VideoCapture) (w : World) : World :=
  {| env_isfile := env_isfile w; env_decode := env_decode w;
     env_clock := env_clock w; w_reads := w_reads w;
     w_cap := c; w_trace := w_trace w; w_sigint := w_sigint w |}.

Definition set_trace (t : list Event) (w : World) : World :=
  {| env_isfile := env_isfile w; env_decode := env_decode w;
     env_clock := env_clock w; w_reads := w_reads w;
     w_cap := w_cap w; w_trace := t; w_sigint := w_sigint w |}.

Definition set_sigint (s : option nat) (w : World) : World :=
  {| env_isfile := env_isfile w; env_decode := env_decode w;
     env_clock := env_clock w; w_reads := w_reads w;
     w_cap := w_cap w; w_trace := w_trace w; w_sigint := s |}.

Definition set_reads (n : nat) (w : World) : World :=
  {| env_isfile := env_isfile w; env_decode := env_decode w;
     env_clock := env_clock w; w_reads := n;
     w_cap := w_cap w; w_trace := w_trace w; w_sigint := w_sigint w |}.

(** A computation either returns or raises, and leaves a world behind. *)
Definition M (A : Type) : Type := World -> result A * World.

Definition ret {A : Type} (a : A) : M A := fun w => (Ok a, w).

Definition raise {A : Type} (e : exn) : M A := fun w => (Raise e, w).

Definition bind {A B : Type} (m : M A) (k : A -> M B) : M B :=
  fun w =>
    match m w with
    | (Ok a, w') => k a w'
    | (Raise e, w') => (Raise e, w')
    end.

Definition lift {A : Type} (r : result A) : M A := fun w => (r, w).

Declare Scope py_scope.
Delimit Scope py_scope with py.
Notation "x <- m ;; k" := (bind m (fun x => k))
  (at level 61, m at next level, right associativity) : py_scope.
Notation "m ;; k" := (bind m (fun _ => k))
  (at level 61, right associativity) : py_scope.
Local Open Scope py_scope.

Definition emit (ev : Event) : M unit :=
  fun w => (Ok tt, set_trace (w_trace w ++ [ev]) w).

(** [try: body / except <catches> as e: handler e]. *)
Definition try_except {A : Type} (body : M A) (catches : exn -> bool)
    (handler : exn -> M A) : M A :=
  fun w =>
    match body w with
    | (Raise e, w') => if catches e then handler e w' else (Raise e, w')
    | done => done
    end.

(** [try: body / finally: final]: [final] runs whatever [body] did; the
    outcome of [body] stands unless [final] itself raises. *)
Definition try_finally {A : Type} (body : M A) (final : M unit) : M A :=
  fun w =>
    let '(r, w') := body w in
    match final w' with
    | (Ok _, w'') => (r, w'')
    | (Raise e, w'') => (Raise e, w'')
    end.

(** The interrupt signal is delivered between two statements of the
    guarded block of [play]: [w_sigint = Some k] lets [k] statements run
    and raises [KeyboardInterrupt] in place of the next one. *)
Definition tick : M unit :=
  fun w =>
    match w_sigint w with
    | None => (Ok tt, w)
    | Some O => (Raise KeyboardInterrupt, set_sigint None w)
    | Some (S k) => (Ok tt, set_sigint (Some k) w)
    end.

Definition step {A : Type} (m : M A) : M A := tick ;; m.

Definition print (text : list Piece) (end_ : string) : M unit :=
  emit (EPrint text end_).

Definition nl : string := String (ascii_of_nat 10) EmptyString.
Definition esc : string := String (ascii_of_nat 27) EmptyString.
Definition dquote : string := String (ascii_of_nat 34) EmptyString.

Definition time_time : M float :=
  fun w => (Ok (env_clock w (w_reads w)), set_reads (S (w_reads w)) w).

Definition time_sleep (seconds : float) : M unit := emit (ESleep seconds).

Definition os_path_isfile (path : string) : M bool :=
  fun w => (Ok (env_isfile w path), w).

Definition sys_exit {A : Type} (code : Z) : M A := raise (SystemExit code).

(** [os.path.basename] for [/]-separated paths. *)
Fixpoint basename_from (path : string) (acc : string) : string :=
  match path with
  | EmptyString => acc
  | String c rest =>
      if Ascii.eqb c "/"%char then basename_from rest EmptyString
      else basename_from rest (acc ++ String c EmptyString)
  end.
Definition os_path_basename (path : string) : string :=
  basename_from path EmptyString.

(** *** The capture object's methods *)

Definition VideoCapture (path : string) : M unit :=
  emit (EOpen path) ;;
  fun w => (Ok tt, set_cap {| Cv2.cap_video := env_decode w path;
                              Cv2.cap_pos := 0 |} w).

Definition cap_isOpened : M bool :=
  fun w => (Ok (match Cv2.cap_video (w_cap w) with Some _ => true | None => false end), w).

(** [cap.get(prop)]: [0.0] on a capture that is not open. *)
Definition cap_get (prop : Cv2.Video -> float) : M float :=
  fun w => (Ok (match Cv2.cap_video (w_cap w) with
                | Some v => prop v
                | None => S754_zero false
                end), w).

Definition cap_set_pos_frames (frame : Z) : M unit :=
  emit (ESeek frame) ;;
  fun w => (Ok tt, set_cap {| Cv2.cap_video := Cv2.cap_video (w_cap w);
                              Cv2.cap_pos := Z.to_nat frame |} w).

(** [cap.read()]: the next frame and [ret = True], or [ret = False] at
    the end of the stream (and on a released capture). *)
Definition cap_read : M (option Cv2.ColorImage) :=
  fun w =>
    let c := w_cap w in
    match Cv2.cap_video c with
    | None => (Ok None, set_trace (w_trace w ++ [ERead (Cv2.cap_pos c) false]) w)
    | Some v =>
        match nth_error (Cv2.v_frames v) (Cv2.cap_pos c) with
        | Some frame =>
            (Ok (Some frame),
             set_cap {| Cv2.cap_video := Some v; Cv2.cap_pos := S (Cv2.cap_pos c) |}
               (set_trace (w_trace w ++ [ERead (Cv2.cap_pos c) true]) w))
        | None =>
            (Ok None, set_trace (w_trace w ++ [ERead (Cv2.cap_pos c) false]) w)
        end
    end.

Definition cap_release : M unit :=
  emit ERelease ;;
  fun w => (Ok tt, set_cap {| Cv2.cap_video := None;
                              Cv2.cap_pos := Cv2.cap_pos (w_cap w) |} w).

(** ** The player (class [ASCIIVideoPlayer] and [main]) *)

Definition len (s : string) : Z := Z.of_nat (String.length s).

(** ASCII characters from darkest to lightest. *)
Definition ASCII_CHARS : string := "@%#*+=-:. ".

Definition DETAILED_CHARS : string :=
  "$@B%8&WM#*oahkbdpqwmZO0QLCJUYXzcvunxrjft/\|()1{}[]?-_+~<>i!lI;:,"
  ++ dquote ++ "^`'. ".

(** The attributes [__init__] sets; the capture object [self.cap] lives
    in the world. *)
Record ASCIIVideoPlayer : Type := {
  video_path : string;
  width : Z;
  detailed : bool;
  ascii_chars : string;
  fps : float;
  frame_count : Z;
  original_width : Z;
  original_height : Z;
  height : Z
}.

(** [int(self.width * self.original_height / self.original_width * 0.55)],
    before and after the final [int(...)]. *)
Definition height_value (width original_height original_width : Z) : result float :=
  rbind (int_truediv (width * original_height) original_width)
        (fun q => Ok (fmul q lit_0_55)).

Definition derive_height (width original_height original_width : Z) : result Z :=
  rbind (height_value width original_height original_width) int_of_float.

Definition init (video_path : string) (width : Z) (detailed : bool)
  : M ASCIIVideoPlayer :=
  let ascii_chars := if detailed then DETAILED_CHARS else ASCII_CHARS in
  VideoCapture video_path ;;
  opened <- cap_isOpened ;;
  if negb opened then
    raise (ValueError ("Cannot open video file: " ++ video_path))
  else
    fps <- cap_get Cv2.v_fps ;;
    frame_count <- (x <- cap_get Cv2.v_frame_count ;; lift (int_of_float x)) ;;
    original_width <- (x <- cap_get Cv2.v_frame_width ;; lift (int_of_float x)) ;;
    original_height <- (x <- cap_get Cv2.v_frame_height ;; lift (int_of_float x)) ;;
    height <- lift (derive_height width original_height original_width) ;;
    ret {| video_path := video_path; width := width; detailed := detailed;
           ascii_chars := ascii_chars; fps := fps; frame_count := frame_count;
           original_width := original_width; original_height := original_height;
           height := height |}.

(** [int(pixel / 255 * (len(self.ascii_chars) - 1))]: [pixel] is a NumPy
    [uint8], so [pixel / 255] is the binary64 quotient. *)
Definition char_index (pixel : Z) (n : Z) : result Z :=
  rbind (float_mul_int (fdiv (float_of_Z pixel) (float_of_Z 255)) (n - 1))
        int_of_float.

(** The inner loop [for pixel in row], appending to [ascii_frame]. *)
Fixpoint row_to_ascii (chars : string) (row : list Z) (ascii_frame : string)
  : result string :=
  match row with
  | [] => Ok ascii_frame
  | pixel :: rest =>
      rbind (char_index pixel (len chars)) (fun i =>
      rbind (str_index chars i) (fun c =>
      row_to_ascii chars rest (ascii_frame ++ String c EmptyString)))
  end.

(** The outer loop [for row in gray]. *)
Fixpoint rows_to_ascii (chars : string) (gray : Cv2.GrayImage)
    (ascii_frame : string) : result string :=
  match gray with
  | [] => Ok ascii_frame
  | row :: rest =>
      rbind (row_to_ascii chars row ascii_frame) (fun ascii_frame' =>
      rows_to_ascii chars rest (ascii_frame' ++ nl))
  end.

Section Player.

Context {cv : Cv2.Ops}.

(** The renderer as a function of its four inputs. *)
Definition render (frame : Cv2.ColorImage) (width height : Z) (ramp : string)
  : result string :=
  rbind (Cv2.call (Cv2.resize frame width height)) (fun frame' =>
  rbind (Cv2.call (Cv2.cvtColor_BGR2GRAY frame')) (fun gray =>
  rows_to_ascii ramp gray EmptyString)).

Definition frame_to_ascii (self : ASCIIVideoPlayer) (frame : Cv2.ColorImage)
  : result string :=
  render frame (width self) (height self) (ascii_chars self).

Definition clear_screen : M unit := emit EClear.

Definition cleanup : M unit := cap_release.

(** [1.0 / self.fps if self.fps > 0 else 0.033]. *)
Definition frame_delay_of (fps : float) : result float :=
  if flt (S754_zero false) fps then float_truediv lit_1_0 fps
  else Ok lit_0_033.

(** [frame_num/self.frame_count*100]. *)
Definition progress_percent (frame_num frame_count : Z) : result float :=
  rbind (int_truediv frame_num frame_count) (fun q => float_mul_int q 100).

Definition progress_line (frame_num frame_count : Z) (pct : float) : list Piece :=
  [Lit (nl ++ "Frame: "); Int frame_num; Lit "/"; Int frame_count;
   Lit " | "; Flt 1 pct; Lit "%"].

Definition msg_complete : list Piece :=
  [Lit (nl ++ nl ++ "✓ Video playback complete!")].
Definition msg_stopped : list Piece :=
  [Lit (nl ++ nl ++ "⏸ Playback stopped by user")].

(** The [while True] loop.  [fuel] bounds the iterations of the model;
    the loop returns [true] when it is left by [break] and [false] when
    the fuel runs out, which [play_body] never lets happen (lemma
    [play_loop_fuel]). *)
Fixpoint play_loop (fuel : nat) (self : ASCIIVideoPlayer) (frame_delay : float)
    (frame_num : Z) : M bool :=
  match fuel with
  | O => ret false
  | S fuel' =>
      start_time <- step time_time ;;
      got <- step cap_read ;;
      match got with
      | None => ret true
      | Some frame =>
          ascii_frame <- step (lift (frame_to_ascii self frame)) ;;
          step (print [Lit (esc ++ "[H")] EmptyString) ;;
          step (print [Str ascii_frame] EmptyString) ;;
          step (pct <- lift (progress_percent frame_num (frame_count self)) ;;
                print (progress_line frame_num (frame_count self) pct) EmptyString) ;;
          let frame_num := frame_num + 1 in
          now <- step time_time ;;
          let elapsed := fsub now start_time in
          let sleep_time := fsub frame_delay elapsed in
          step (if flt (S754_zero false) sleep_time then time_sleep sleep_time
                else ret tt) ;;
          play_loop fuel' self frame_delay frame_num
      end
  end.

(** Frames still to come from the capture: a bound on the iterations. *)
Definition frames_left (w : World) : nat :=
  match Cv2.cap_video (w_cap w) with
  | None => 0
  | Some v => List.length (Cv2.v_frames v) - Cv2.cap_pos (w_cap w)
  end.

Definition run_loop (self : ASCIIVideoPlayer) (frame_delay : float)
    (frame_num : Z) : M bool :=
  fun w => play_loop (S (frames_left w)) self frame_delay frame_num w.

(** The guarded block of [play]. *)
Definition play_body (self : ASCIIVideoPlayer) (start_frame : Z) : M unit :=
  step (if 0 <? start_frame then cap_set_pos_frames start_frame else ret tt) ;;
  frame_delay <- step (lift (frame_delay_of (fps self))) ;;
  let frame_num := start_frame in
  step (print [Lit (nl ++ "Playing: "); Str (os_path_basename (video_path self))] nl) ;;
  step (print [Lit "Resolution: "; Int (original_width self); Lit "x";
               Int (original_height self); Lit " -> "; Int (width self);
               Lit "x"; Int (height self); Lit " (ASCII)"] nl) ;;
  step (print [Lit "FPS: "; Flt 2 (fps self); Lit " | Frames: ";
               Int (frame_count self)] nl) ;;
  step (print [Lit (nl ++ "Press Ctrl+C to stop" ++ nl)] nl) ;;
  step (time_sleep (float_of_Z 2)) ;;
  step clear_screen ;;
  left <- run_loop self frame_delay frame_num ;;
  if left then step (print msg_complete nl) else ret tt.

Definition is_KeyboardInterrupt (e : exn) : bool :=
  match e with
  | KeyboardInterrupt => true
  | _ => false
  end.

Definition play (self : ASCIIVideoPlayer) (start_frame : Z) : M unit :=
  try_finally
    (try_except (play_body self start_frame) is_KeyboardInterrupt
       (fun _ => print msg_stopped nl))
    cleanup.

Record Args : Type := {
  arg_video : string;
  arg_width : Z;
  arg_detailed : bool;
  arg_start : Z
}.

Definition main (args : Args) : M unit :=
  exists_ <- os_path_isfile (arg_video args) ;;
  if negb exists_ then
    print [Lit "Error: File not found: "; Str (arg_video args)] nl ;;
    sys_exit 1
  else
    try_except
      (player <- init (arg_video args) (arg_width args) (arg_detailed args) ;;
       play player (arg_start args))
      is_Exception
      (fun e => print [Lit "Error: "; Exn e] nl ;; sys_exit 1).

(** The status the process ends with. *)
Definition exit_code (r : result unit) : Z :=
  match r with
  | Ok _ => 0
  | Raise (SystemExit code) => code
  | Raise KeyboardInterrupt => 130
  | Raise _ => 1
  end.

End Player.

(** ** A reference implementation of the OpenCV operations

    Nearest-neighbour resampling and the fixed-point luma of OpenCV.  It
    shows that the contract [Cv2.Contract] can be met and serves to run
    the player on concrete inputs. *)

Module Cv2Ref.

Definition pick {A : Type} (l : list A) (i size target : Z) (d : A) : A :=
  nth (Z.to_nat (i * size / target)) l d.

Definition resize (img : Cv2.ColorImage) (w h : Z) : option Cv2.ColorImage :=
  match img with
  | [] => None
  | row0 :: _ =>
      if (w <=? 0) || (h <=? 0) then None
      else
        let rows := Z.of_nat (List.length img) in
        let cols := Z.of_nat (List.length row0) in
        Some (map (fun i =>
                   let src := pick img (Z.of_nat i) rows h row0 in
                   map (fun j => pick src (Z.of_nat j) cols w (0, 0, 0))
                       (seq 0 (Z.to_nat w)))
                (seq 0 (Z.to_nat h)))
  end.

Definition luma (p : Cv2.BGR) : Z :=
  let '(b, g, r) := p in (r * 4899 + g * 9617 + b * 1868 + 8192) / 16384.

Definition cvtColor_BGR2GRAY (img : Cv2.ColorImage) : option Cv2.GrayImage :=
  Some (map (map luma) img).

Definition ops : Cv2.Ops :=
  {| Cv2.resize := resize; Cv2.cvtColor_BGR2GRAY := cvtColor_BGR2GRAY |}.

End Cv2Ref.

(** ** Concrete inputs used to run the model *)

Module Sample.

Definition black : Cv2.BGR := (0, 0, 0).
Definition white : Cv2.BGR := (255, 255, 255).
Definition grey : Cv2.BGR := (128, 128, 128).

Definition frame0 : Cv2.ColorImage := [[black; white]; [grey; white]].
Definition frame1 : Cv2.ColorImage := [[white; black]; [white; grey]].

(** A 2x2 clip of [frames] at 30 fps that reports [count] frames. *)
Definition clip (count : Z) (frames : list Cv2.ColorImage) : Cv2.Video :=
  {| Cv2.v_fps := float_of_Z 30;
     Cv2.v_frame_count := float_of_Z count;
     Cv2.v_frame_width := float_of_Z 2;
     Cv2.v_frame_height := float_of_Z 2;
     Cv2.v_frames := frames |}.

(** A world with one file, ["a.mp4"], decoding to [v]; the interrupt
    arrives after [sigint] statements of [play], if at all. *)
Definition world (v : Cv2.Video) (sigint : option nat) : World :=
  {| env_isfile := fun p => String.eqb p "a.mp4";
     env_decode := fun p => if String.eqb p "a.mp4" then Some v else None;
     env_clock := fun _ => S754_zero false;
     w_reads := 0%nat;
     w_cap := Cv2.closed;
     w_trace := [];
     w_sigint := sigint |}.

(** The same world once [__init__] has opened the capture. *)
Definition playing (v : Cv2.Video) (sigint : option nat) : World :=
  set_cap {| Cv2.cap_video := Some v; Cv2.cap_pos := 0 |} (world v sigint).

(** The player [__init__] builds for ["a.mp4"] at width 4 when the clip
    reports [count] frames. *)
Definition player (count : Z) : ASCIIVideoPlayer :=
  {| video_path := "a.mp4"; width := 4; detailed := false;
     ascii_chars := ASCII_CHARS; fps := float_of_Z 30; frame_count := count;
     original_width := 2; original_height := 2; height := 2 |}.


Definition args (video : string) (width start : Z) : Args :=
  {| arg_video := video; arg_width := width; arg_detailed := false;
     arg_start := start |}.

End Sample.

(** ** Observations on runs *)

(** Weakest precondition of a computation for a postcondition on its
    outcome and final world. *)
Definition wp {A : Type} (m : M A) (Q : result A -> World -> Prop) (w : World)
  : Prop :=
  Q (fst (m w)) (snd (m w)).

Definition is_release (ev : Event) : bool :=
  match ev with ERelease => true | _ => false end.

Definition is_seek (ev : Event) : bool :=
  match ev with ESeek _ => true | _ => false end.

Definition is_open (ev : Event) : bool :=
  match ev with EOpen _ => true | _ => false end.

Definition count (f : Event -> bool) (t : list Event) : nat :=
  List.length (filter f t).

Definition releases : list Event -> nat := count is_release.

Fixpoint filter_map {A B : Type} (f : A -> option B) (l : list A) : list B :=
  match l with
  | [] => []
  | a :: l' =>
      match f a with
      | Some b => b :: filter_map f l'
      | None => filter_map f l'
      end
  end.

(** The frame counter and percentage a progress line displays. *)
Definition shown_of (ev : Event) : option (Z * float) :=
  match ev with
  | EPrint [Lit s; Int n; Lit _; Int _; Lit _; Flt _ pct; Lit _] _ =>
      if String.eqb s (nl ++ "Frame: ") then Some (n, pct) else None
  | _ => None
  end.

Definition shown : list Event -> list (Z * float) := filter_map shown_of.

(** The stream positions of the frames [cap.read()] delivered. *)
Definition decoded_of (ev : Event) : option nat :=
  match ev with
  | ERead pos true => Some pos
  | _ => None
  end.

Definition decoded : list Event -> list nat := filter_map decoded_of.

(** The two status lines of [play]. *)
Inductive Status : Type := Complete | Stopped.

Definition status_of (ev : Event) : option Status :=
  match ev with
  | EPrint [Lit s] _ =>
      if String.eqb s (nl ++ nl ++ "✓ Video playback complete!") then Some Complete
      else if String.eqb s (nl ++ nl ++ "⏸ Playback stopped by user") then Some Stopped
      else None
  | _ => None
  end.

Definition statuses : list Event -> list Status := filter_map status_of.

(** The interrupt was delivered between [w] and [w']. *)
Definition delivered (w w' : World) : Prop :=
  w_sigint w <> None /\ w_sigint w' = None.

(** The text of a print whose pieces are all strings. *)
Fixpoint plain_text (ps : list Piece) : option string :=
  match ps with
  | [] => Some EmptyString
  | Lit s :: ps' | Str s :: ps' =>
      match plain_text ps' with
      | Some r => Some (String.append s r)
      | None => None
      end
  | _ => None
  end.

(** The counters [start, start+1, ..., start+k-1]. *)
Definition counters (start : Z) (k : nat) : list Z :=
  map (fun i => start + Z.of_nat i) (seq 0 k).

(** A quiet event: no release, no seek, no open, no status line. *)
Definition quiet (ev : Event) : bool :=
  negb (is_release ev) && negb (is_seek ev) && negb (is_open ev) &&
  match status_of ev with None => true | Some _ => false end.

(** [t'] extends [t] by events that all satisfy [P]. *)
Definition extends (P : Event -> bool) (t t' : list Event) : Prop :=
  exists new, t' = t ++ new /\ forallb P new = true.

(** An outcome other than [KeyboardInterrupt]. *)
Definition calm {A : Type} (r : result A) : Prop := r <> Raise KeyboardInterrupt.

(** A read that met the end of the stream. *)
Definition is_eos (ev : Event) : bool :=
  match ev with ERead _ false => true | _ => false end.

(** What the loop emits while frames keep coming. *)
Definition running (ev : Event) : bool := quiet ev && negb (is_eos ev).

(** The events appended to the trace between [w] and [w']. *)
Definition new_events (w w' : World) : list Event :=
  skipn (List.length (w_trace w)) (w_trace w').

(** What the guarded block of [play] may emit before its status line:
    quiet events, and a seek when [start_frame > 0]. *)
Definition body_event (start_frame : Z) (ev : Event) : bool :=
  quiet ev || ((0 <? start_frame) && is_seek ev).

Definition not_eos (ev : Event) : bool := negb (is_eos ev).

(** The stream position the first [cap.read()] of [play] decodes. *)
Definition first_position (start_frame : Z) (w : World) : nat :=
  if 0 <? start_frame then Z.to_nat start_frame else Cv2.cap_pos (w_cap w).

(** Frames the stream holds from position [p] on. *)
Definition frames_from (p : nat) (w : World) : nat :=
  match Cv2.cap_video (w_cap w) with
  | None => 0
  | Some v => List.length (Cv2.v_frames v) - p
  end.

(** ** Rounding to 53 significant bits, on integers

    [rne_div a p] is [a / p] rounded to the nearest integer, ties to the
    even one; [rnd a] keeps the 53 leading bits of [a], rounded that way.
    They describe what [binary_round_aux] of [SpecFloat] computes. *)

Definition rne_div (a p : Z) : Z :=
  let q := a / p in
  let r := a mod p in
  if (p <? 2 * r) || ((2 * r =? p) && Z.odd q) then q + 1 else q.

Definition rnd_shift (a : Z) : Z := Z.max 0 (Z.log2 a + 1 - 53).

Definition rnd (a : Z) : Z :=
  rne_div a (2 ^ rnd_shift a) * 2 ^ rnd_shift a.

(** ** The glyph index, as the specification words it *)

(** [pixel / 255] for a [uint8] pixel. *)
Definition pixel_fraction (L : Z) : float := fdiv (float_of_Z L) (float_of_Z 255).

(** [math.floor(x)]. *)
Definition floor_float (x : float) : result Z :=
  match x with
  | S754_zero _ => Ok 0
  | S754_finite s m e => Ok (Z.shiftl (cond_Zopp s (Zpos m)) e)
  | S754_infinity _ => Raise OverflowError
  | S754_nan => Raise (ValueError "cannot convert float NaN to integer")
  end.

Definition clamp (lo hi x : Z) : Z := Z.max lo (Z.min hi x).

(** [floor(L / 255 * (n - 1))] clamped to [[0, n-1]], the arithmetic being
    that of the code (binary64). *)
Definition spec_glyph_index (L n : Z) : result Z :=
  rbind (float_mul_int (pixel_fraction L) (n - 1)) (fun x =>
  rbind (floor_float x) (fun i => Ok (clamp 0 (n - 1) i))).

(** The same formula in exact arithmetic. *)
Definition exact_glyph_index (L n : Z) : Z := clamp 0 (n - 1) (L * (n - 1) / 255).

(** The luminance values [0..255], and the value of [pixel_fraction L]
    multiplied by [2^60] (an integer, as the exponents are at least -60). *)
Definition levels : list Z := map Z.of_nat (seq 0 256).

Definition scaled (L : Z) : Z :=
  match pixel_fraction L with
  | S754_finite false m e => Zpos m * 2 ^ (e + 60)
  | _ => 0
  end.

Definition fraction_ok (L : Z) : bool :=
  match pixel_fraction L with
  | S754_zero false => L =? 0
  | S754_finite false m e =>
      (Zdigits2 (Zpos m) =? 53) && (-60 <=? e) && (e <=? -52) && (0 <? L)
  | _ => false
  end.

Definition scaled_sorted : bool :=
  forallb (fun L => (255 <=? L) || (scaled L <=? scaled (L + 1))) levels.

(** The glyph index of pixel [L] for a ramp of [N + 1] glyphs, written
    with [rnd]: what lemma [char_index_value] shows [char_index] to
    compute. *)
Definition index_value (L N : Z) : Z :=
  match float_of_Z N with
  | S754_finite false mN eN => rnd (scaled L * Zpos mN) * 2 ^ (eN + 52) / 2 ^ 112
  | _ => 0
  end.

(** A text block: every line followed by the line separator. *)
Fixpoint text_block (lines : list string) : string :=
  match lines with
  | [] => EmptyString
  | l :: rest => String.append l (String.append nl (text_block rest))
  end.


(** ** Further observations on runs *)

(** An outcome that is not a process exit or an interrupt: what
    [except Exception] catches when it is an error. *)
Definition ordinary {A : Type} (r : result A) : Prop :=
  forall e, r = Raise e -> is_Exception e = true.

(** A [time.sleep] of a positive duration. *)
Definition positive_sleep (ev : Event) : bool :=
  match ev with
  | ESleep d => flt (S754_zero false) d
  | _ => true
  end.

(** A printed line that starts with [Error: ]. *)
Definition is_error_line (ev : Event) : bool :=
  match ev with
  | EPrint (Lit s :: _) _ => String.prefix "Error: " s
  | _ => false
  end.

Definition tame (ev : Event) : bool := positive_sleep ev && negb (is_error_line ev).

(** The frame text of a [print(ascii_frame, end='')]. *)
Definition text_of (ev : Event) : option string :=
  match ev with
  | EPrint [Str a] _ => Some a
  | _ => None
  end.

Definition texts : list Event -> list string := filter_map text_of.

(** The frames the stream holds from position [p] on. *)
Definition upcoming (p : nat) (w : World) : list Cv2.ColorImage :=
  match Cv2.cap_video (w_cap w) with
  | None => []
  | Some v => skipn p (Cv2.v_frames v)
  end.

(** Every character of [l] is a glyph of [ramp]. *)
Definition drawn_with (ramp l : string) : Prop :=
  Forall (fun c => In c (list_ascii_of_string ramp)) (list_ascii_of_string l).

(** The same world with no interrupt pending. *)
Definition unsig (w : World) : World := set_sigint None w.

(** A pending interrupt only cuts [m] short: run on [w], either [m] is
    interrupted and what it wrote is a prefix of what it writes on
    [unsig w], or it does on [unsig w] exactly what it does on [w]. *)
Definition truncates {A : Type} (m : M A) : Prop :=
  forall w,
    (fst (m w) = Raise KeyboardInterrupt /\
     exists rest, w_trace (snd (m (unsig w))) = w_trace (snd (m w)) ++ rest) \/
    m (unsig w) = (fst (m w), unsig (snd (m w))).

(** [m] only appends to the trace. *)
Definition grows {A : Type} (m : M A) : Prop :=
  forall w, exists more, w_trace (snd (m w)) = w_trace w ++ more.

Definition steady {A : Type} (m : M A) : Prop := truncates m /\ grows m.

(** ** Further concrete inputs *)

Module Cases.

(** A world in which every path names a file and OpenCV opens none. *)
Definition unopenable : World :=
  {| env_isfile := fun _ => true;
     env_decode := fun _ => None;
     env_clock := fun _ => S754_zero false;
     w_reads := 0%nat;
     w_cap := Cv2.closed;
     w_trace := [];
     w_sigint := None |}.

(** A clip whose reported frame width is zero. *)
Definition flat_clip : Cv2.Video :=
  {| Cv2.v_fps := float_of_Z 30;
     Cv2.v_frame_count := float_of_Z 2;
     Cv2.v_frame_width := S754_zero false;
     Cv2.v_frame_height := float_of_Z 2;
     Cv2.v_frames := [Sample.frame0] |}.

End Cases.

(** ** The installer ([install_ascii_player.py]) *)

Module Installer.

(** The exceptions that travel through the installer.  All but
    [KeyboardInterrupt] and [SystemExit] are instances of [Exception];
    [FileNotFoundError] is an [OSError], kept apart because [setup_path]
    catches it alone; [Error] stands for an instance of any other class
    of [Exception]. *)
Inductive exn : Type :=
| KeyboardInterrupt
| SystemExit (code : Z)
| ImportError
| CalledProcessError (returncode : Z)
| FileNotFoundError
| OSError (kind : string)
| IndexError
| Error (class : string).

Definition is_Exception (e : exn) : bool :=
  match e with
  | KeyboardInterrupt | SystemExit _ => false
  | _ => true
  end.

Definition is_KeyboardInterrupt (e : exn) : bool :=
  match e with KeyboardInterrupt => true | _ => false end.

Definition is_ImportError (e : exn) : bool :=
  match e with ImportError => true | _ => false end.

Definition is_FileNotFoundError (e : exn) : bool :=
  match e with FileNotFoundError => true | _ => false end.

Inductive outcome (A : Type) : Type :=
| Done (a : A)
| Raised (e : exn).
Arguments Done {A} a.
Arguments Raised {A} e.

(** A [pathlib.Path] below the home directory: its components after
    [Path.home()]. *)
Definition Path : Type := list string.

Definition Path_home : Path := [].

(** [p / name]. *)
Definition join (p : Path) (name : string) : Path := p ++ [name].

(** [p.name]. *)
Definition name (p : Path) : string := last p EmptyString.

Inductive Piece : Type :=
| Lit (s : string)      (* literal text *)
| Str (s : string)      (* an interpolated [str] *)
| PathP (p : Path)      (* an interpolated path *)
| Exn (e : exn).        (* [{e}] for a caught exception *)

Inductive Event : Type :=
| EPrint (text : list Piece)                   (* [print(text)] *)
| ECheckCall (argv : list string)              (* [subprocess.check_call(argv)] *)
| EMkdir (p : Path)                            (* [p.mkdir(parents=True, exist_ok=True)] *)
| EWrite (p : Path) (content : list Piece)     (* [open(p, 'w')] and [f.write(content)] *)
| EChmod (p : Path) (mode : Z).                (* [os.chmod(p, mode)] *)

(** The machine the installer runs on.  [fails] tells which operations on
    the outside world raise, and what; [read_text p] is what
    [open(p, 'r')] followed by [f.read()] gives. *)
Record Host : Type := {
  sys_version_info : list Z;       (* the leading integers of [sys.version_info] *)
  sys_version : string;            (* [sys.version] *)
  sys_executable : string;         (* [sys.executable] *)
  os_name_nt : bool;               (* [os.name == 'nt'] *)
  sys_platform_linux : bool;       (* [sys.platform.startswith('linux')] *)
  import_cv2 : option exn;         (* what [import cv2] raises, if anything *)
  fails : Event -> option exn;
  path_exists : Path -> bool;      (* [p.exists()] *)
  read_text : Path -> outcome string;
  trace : list Event               (* effects so far, oldest first *)
}.

Definition log (ev : Event) (h : Host) : Host :=
  {| sys_version_info := sys_version_info h; sys_version := sys_version h;
     sys_executable := sys_executable h; os_name_nt := os_name_nt h;
     sys_platform_linux := sys_platform_linux h; import_cv2 := import_cv2 h;
     fails := fails h; path_exists := path_exists h; read_text := read_text h;
     trace := trace h ++ [ev] |}.

Definition I (A : Type) : Type := Host -> outcome A * Host.

Definition ret {A : Type} (a : A) : I A := fun h => (Done a, h).

Definition raise {A : Type} (e : exn) : I A := fun h => (Raised e, h).

Definition bind {A B : Type} (m : I A) (k : A -> I B) : I B :=
  fun h =>
    match m h with
    | (Done a, h') => k a h'
    | (Raised e, h') => (Raised e, h')
    end.

Declare Scope inst_scope.
Delimit Scope inst_scope with inst.
Notation "x <- m ;; k" := (bind m (fun x => k))
  (at level 61, m at next level, right associativity) : inst_scope.
Notation "m ;; k" := (bind m (fun _ => k))
  (at level 61, right associativity) : inst_scope.
Local Open Scope inst_scope.

(** Reading the environment. *)
Definition ask {A : Type} (f : Host -> A) : I A := fun h => (Done (f h), h).

Definition lift {A : Type} (r : outcome A) : I A := fun h => (r, h).

(** An operation on the outside world: logged, then it raises or not. *)
Definition attempt (ev : Event) : I unit :=
  fun h =>
    match fails h ev with
    | Some e => (Raised e, log ev h)
    | None => (Done tt, log ev h)
    end.

Definition print (text : list Piece) : I unit := fun h => (Done tt, log (EPrint text) h).

Definition sys_exit {A : Type} (code : Z) : I A := raise (SystemExit code).

(** [try: body / except <catches> as e: handler e]. *)
Definition try_except {A : Type} (body : I A) (catches : exn -> bool)
    (handler : exn -> I A) : I A :=
  fun h =>
    match body h with
    | (Raised e, h') => if catches e then handler e h' else (Raised e, h')
    | done => done
    end.

(** [try] with two [except] clauses: the first that matches handles. *)
Definition try_except2 {A : Type} (body : I A)
    (catches1 : exn -> bool) (handler1 : exn -> I A)
    (catches2 : exn -> bool) (handler2 : exn -> I A) : I A :=
  fun h =>
    match body h with
    | (Raised e, h') =>
        if catches1 e then handler1 e h'
        else if catches2 e then handler2 e h'
        else (Raised e, h')
    | done => done
    end.

(** [a < b] on tuples of integers: lexicographic, a proper prefix being
    smaller. *)
Fixpoint tuple_lt (a b : list Z) : bool :=
  match a, b with
  | [], [] => false
  | [], _ :: _ => true
  | _ :: _, [] => false
  | x :: a', y :: b' => if x =? y then tuple_lt a' b' else x <? y
  end.

(** [s * n] on a [str]. *)
Fixpoint str_mul (s : string) (n : nat) : string :=
  match n with
  | O => EmptyString
  | S n' => s ++ str_mul s n'
  end.

(** [needle in hay] on two [str]. *)
Fixpoint contains (needle hay : string) : bool :=
  String.prefix needle hay ||
  match hay with
  | EmptyString => false
  | String _ rest => contains needle rest
  end.

(** [s.split()[0]]: the first run of non-blank characters. *)
Definition is_space (c : ascii) : bool :=
  let n := nat_of_ascii c in
  (n =? 32)%nat || ((9 <=? n)%nat && (n <=? 13)%nat) ||
  ((28 <=? n)%nat && (n <=? 31)%nat).

Fixpoint take_word (s : string) : string :=
  match s with
  | EmptyString => EmptyString
  | String c rest => if is_space c then EmptyString else String c (take_word rest)
  end.

Fixpoint first_word (s : string) : outcome string :=
  match s with
  | EmptyString => Raised IndexError
  | String c rest => if is_space c then first_word rest else Done (take_word s)
  end.

Definition mkdir (p : Path) : I unit := attempt (EMkdir p).
Definition write_text (p : Path) (content : list Piece) : I unit :=
  attempt (EWrite p content).
Definition chmod (p : Path) (mode : Z) : I unit := attempt (EChmod p mode).
Definition check_call (argv : list string) : I unit := attempt (ECheckCall argv).

Definition import_ (what : Host -> option exn) : I unit :=
  fun h =>
    match what h with
    | Some e => (Raised e, h)
    | None => (Done tt, h)
    end.

Definition open_read (p : Path) : I string := fun h => (read_text h p, h).

Section Script.

(** The text of the player the installer carries. *)
Variable PLAYER_CODE : string.

Definition print_header : I unit :=
  print [Lit (str_mul "=" 60)] ;;
  print [Lit "  ASCII VIDEO PLAYER - INSTALLER"] ;;
  print [Lit (str_mul "=" 60)] ;;
  print [].

Definition check_python : I unit :=
  print [Lit "[*] Checking Python version..."] ;;
  version_info <- ask sys_version_info ;;
  (if tuple_lt version_info [3; 6] then
     print [Lit "[X] Python 3.6 or higher is required"] ;;
     sys_exit 1
   else ret tt) ;;
  version <- ask sys_version ;;
  word <- lift (first_word version) ;;
  print [Lit "[OK] Python "; Str word; Lit " detected"] ;;
  print [].

Definition install_dependencies : I unit :=
  print [Lit "[*] Installing dependencies..."] ;;
  try_except
    (import_ import_cv2 ;;
     print [Lit "[OK] opencv-python already installed"])
    is_ImportError
    (fun _ =>
       print [Lit "[*] Installing opencv-python..."] ;;
       executable <- ask sys_executable ;;
       check_call [executable; "-m"; "pip"; "install"; "opencv-python"; "numpy"]%string ;;
       print [Lit "[OK] Dependencies installed successfully"]) ;;
  print [].

Definition get_install_location : I (Path * Path) :=
  let home := Path_home in
  nt <- ask os_name_nt ;;
  if nt then
    let install_dir := join (join (join home "AppData") "Local") "ASCIIPlayer" in
    let bin_dir := install_dir in
    ret (install_dir, bin_dir)
  else
    let install_dir := join (join (join home ".local") "share") "ascii-player" in
    let bin_dir := join (join home ".local") "bin" in
    ret (install_dir, bin_dir).

Definition bat_launcher (executable : string) (player_file : Path) : list Piece :=
  [Lit ("@echo off" ++ nl ++ dquote); Str executable; Lit (dquote ++ " " ++ dquote);
   PathP player_file; Lit (dquote ++ " %*" ++ nl)].

Definition sh_launcher (executable : string) (player_file : Path) : list Piece :=
  [Lit ("#!/bin/bash" ++ nl ++ dquote); Str executable; Lit (dquote ++ " " ++ dquote);
   PathP player_file; Lit (dquote ++ " " ++ dquote ++ "$@" ++ dquote ++ nl)].

Definition create_application (install_dir bin_dir : Path) : I Path :=
  print [Lit "[*] Installing to: "; PathP install_dir] ;;
  mkdir install_dir ;;
  mkdir bin_dir ;;
  let player_file := join install_dir "ascii_player.py" in
  write_text player_file [Lit PLAYER_CODE] ;;
  try_except (chmod player_file 493) (fun _ => true) (fun _ => ret tt) ;;
  nt <- ask os_name_nt ;;
  executable <- ask sys_executable ;;
  launcher <-
    (if nt then
       let launcher := join bin_dir "ascii-player.bat" in
       write_text launcher (bat_launcher executable player_file) ;;
       ret launcher
     else
       let launcher := join bin_dir "ascii-player" in
       write_text launcher (sh_launcher executable player_file) ;;
       chmod launcher 493 ;;
       ret launcher) ;;
  print [Lit "[OK] Application installed: "; PathP player_file] ;;
  print [Lit "[OK] Launcher created: "; PathP launcher] ;;
  print [] ;;
  ret bin_dir.

Definition path_line : string :=
  "export PATH=" ++ dquote ++ "$HOME/.local/bin:$PATH" ++ dquote.

(** The [try] block of [setup_path] answers whether the function has
    returned from inside it. *)
Definition setup_path (bin_dir : Path) : I unit :=
  print [Lit "[*] PATH SETUP"] ;;
  print [Lit (str_mul "-" 60)] ;;
  nt <- ask os_name_nt ;;
  if nt then
    print [Lit "To use 'ascii-player' from anywhere, add this to your PATH:"] ;;
    print [Lit (nl ++ "  "); PathP bin_dir; Lit nl] ;;
    print [Lit "Steps:"] ;;
    print [Lit "1. Press Win + R, type 'sysdm.cpl' and press Enter"] ;;
    print [Lit "2. Go to 'Advanced' tab -> 'Environment Variables'"] ;;
    print [Lit "3. Under 'User variables', select 'Path' -> 'Edit'"] ;;
    print [Lit "4. Click 'New' and paste the path above"] ;;
    print [Lit "5. Click OK on all windows"] ;;
    print [Lit "6. Restart your terminal"] ;;
    print []
  else
    zsh <- ask (fun h => path_exists h (join Path_home ".zshrc")) ;;
    let shell_rc := if zsh then join Path_home ".zshrc" else join Path_home ".bashrc" in
    returned <-
      try_except
        (text <- open_read shell_rc ;;
         if contains path_line text then
           print [Lit "[OK] PATH already configured in "; PathP shell_rc] ;;
           print [] ;;
           ret true
         else ret false)
        is_FileNotFoundError
        (fun _ => ret false) ;;
    if returned : bool then ret tt
    else
      print [Lit "Add this line to your "; Str (name shell_rc); Lit ":"] ;;
      print [Lit (nl ++ "  "); Str path_line; Lit nl] ;;
      print [Lit "Or run this command:"] ;;
      print [Lit (nl ++ "  echo '"); Str path_line; Lit "' >> ~/"; Str (name shell_rc);
             Lit nl] ;;
      print [Lit "Then restart your terminal or run:"] ;;
      print [Lit "  source ~/"; Str (name shell_rc)] ;;
      print [].

Definition desktop_entry : string :=
  "[Desktop Entry]" ++ nl ++
  "Name=ASCII Video Player" ++ nl ++
  "Comment=Play videos as ASCII art in terminal" ++ nl ++
  "Exec=x-terminal-emulator -e ascii-player %f" ++ nl ++
  "Icon=video-x-generic" ++ nl ++
  "Terminal=true" ++ nl ++
  "Type=Application" ++ nl ++
  "Categories=AudioVideo;Video;Player;" ++ nl ++
  "MimeType=video/mp4;video/x-matroska;video/webm;video/avi;" ++ nl.

Definition create_desktop_entry : I unit :=
  nt <- ask os_name_nt ;;
  linux <- ask sys_platform_linux ;;
  if negb nt && linux then
    let desktop_dir := join (join (join Path_home ".local") "share") "applications" in
    mkdir desktop_dir ;;
    let desktop_file := join desktop_dir "ascii-player.desktop" in
    write_text desktop_file [Lit desktop_entry] ;;
    print [Lit "[OK] Desktop entry created (right-click videos -> 'Open With')"] ;;
    print []
  else ret tt.

Definition print_usage : I unit :=
  print [Lit "[*] USAGE"] ;;
  print [Lit (str_mul "-" 60)] ;;
  print [Lit "After restarting your terminal, use:"] ;;
  print [] ;;
  print [Lit "  ascii-player video.mp4"] ;;
  print [Lit "  ascii-player video.mp4 -w 150"] ;;
  print [Lit "  ascii-player video.mp4 --detailed"] ;;
  print [] ;;
  print [Lit "For help:"] ;;
  print [Lit "  ascii-player --help"] ;;
  print [].

Definition main : I unit :=
  print_header ;;
  try_except2
    (check_python ;;
     install_dependencies ;;
     dirs <- get_install_location ;;
     let '(install_dir, bin_dir) := dirs in
     create_application install_dir bin_dir ;;
     setup_path bin_dir ;;
     create_desktop_entry ;;
     print_usage ;;
     print [Lit (str_mul "=" 60)] ;;
     print [Lit "[SUCCESS] Installation complete!"] ;;
     print [Lit (str_mul "=" 60)] ;;
     print [] ;;
     print [Lit "TIP: Restart your terminal to use 'ascii-player' command"] ;;
     print [])
    is_KeyboardInterrupt
    (fun _ => print [Lit (nl ++ nl ++ "[X] Installation cancelled")] ;; sys_exit 1)
    is_Exception
    (fun e => print [Lit (nl ++ "[X] Installation failed: "); Exn e] ;; sys_exit 1).

End Script.

(** The status the process ends with. *)
Definition exit_code (r : outcome unit) : Z :=
  match r with
  | Done _ => 0
  | Raised (SystemExit code) => code
  | Raised KeyboardInterrupt => 130
  | Raised _ => 1
  end.

(** *** Observations on a run of the installer *)

(** An operation on the file system, with the path it targets. *)
Definition target (ev : Event) : option Path :=
  match ev with
  | EMkdir p | EWrite p _ | EChmod p _ => Some p
  | _ => None
  end.

(** Everything but the prints. *)
Definition is_print (ev : Event) : bool :=
  match ev with EPrint _ => true | _ => false end.

Definition operations (t : list Event) : list Event :=
  filter (fun ev => negb (is_print ev)) t.

(** The events appended between [h] and [h']. *)
Definition new_events (h h' : Host) : list Event :=
  skipn (List.length (trace h)) (trace h').

(** The host [h] after the events [new]. *)
Definition extend (h : Host) (new : list Event) : Host :=
  {| sys_version_info := sys_version_info h; sys_version := sys_version h;
     sys_executable := sys_executable h; os_name_nt := os_name_nt h;
     sys_platform_linux := sys_platform_linux h; import_cv2 := import_cv2 h;
     fails := fails h; path_exists := path_exists h; read_text := read_text h;
     trace := trace h ++ new |}.

(** [m], run on [h], appends the events [new] and ends with the outcome
    [r], for some [r] and [new] that satisfy [P]. *)
Definition effect {A : Type} (m : I A) (h : Host)
    (P : outcome A -> list Event -> Prop) : Prop :=
  exists new, snd (m h) = extend h new /\ P (fst (m h)) new.

(** A path inside the directories the installer owns. *)
Definition inside (p : Path) : bool :=
  match p with
  | top :: _ => String.eqb top ".local" || String.eqb top "AppData"
  | [] => false
  end.

(** An event that leaves the rest of the home directory alone. *)
Definition owned (ev : Event) : bool :=
  match target ev with
  | Some p => inside p
  | None => true
  end.

Definition no_exit (e : exn) : bool :=
  match e with SystemExit _ => false | _ => true end.

Definition tolerable (e : exn) : bool :=
  match e with SystemExit code => code =? 1 | _ => true end.

(** No operation on the outside world ends the process by itself. *)
Definition sane (h : Host) : Prop :=
  (forall ev e, fails h ev = Some e -> no_exit e = true) /\
  (forall e, import_cv2 h = Some e -> no_exit e = true) /\
  (forall p e, read_text h p = Raised e -> no_exit e = true).

(** Only owned events, and no exit other than [sys.exit(1)] when
    [known] holds. *)
Definition modest {A : Type} (known : Prop) (r : outcome A) (new : list Event)
  : Prop :=
  forallb owned new = true /\
  (known -> forall e, r = Raised e -> tolerable e = true).

(** Reading gives a text or finds no file. *)
Definition text_or_absent (r : outcome string) : bool :=
  match r with
  | Done _ => true
  | Raised e => is_FileNotFoundError e
  end.

(** The command line of the dependency installation. *)
Definition pip_install (h : Host) : Event :=
  ECheckCall [sys_executable h; "-m"; "pip"; "install"; "opencv-python"; "numpy"]%string.

(** The shell start-up file [setup_path] looks at. *)
Definition shell_rc (h : Host) : Path :=
  if path_exists h [".zshrc"%string] then [".zshrc"%string] else [".bashrc"%string].

(** The file-system operations of a complete installation. *)
Definition windows_layout (PLAYER_CODE : string) (h : Host) : list Event :=
  let dir := ["AppData"; "Local"; "ASCIIPlayer"]%string in
  let player_file := (dir ++ ["ascii_player.py"%string])%list in
  [EMkdir dir; EMkdir dir;
   EWrite player_file [Lit PLAYER_CODE];
   EChmod player_file 493;
   EWrite (dir ++ ["ascii-player.bat"%string])%list
          (bat_launcher (sys_executable h) player_file)].

Definition posix_layout (PLAYER_CODE : string) (h : Host) : list Event :=
  let player_file := [".local"; "share"; "ascii-player"; "ascii_player.py"]%string in
  let launcher := [".local"; "bin"; "ascii-player"]%string in
  [EMkdir [".local"; "share"; "ascii-player"]%string;
   EMkdir [".local"; "bin"]%string;
   EWrite player_file [Lit PLAYER_CODE];
   EChmod player_file 493;
   EWrite launcher (sh_launcher (sys_executable h) player_file);
   EChmod launcher 493].

Definition desktop_layout : list Event :=
  [EMkdir [".local"; "share"; "applications"]%string;
   EWrite [".local"; "share"; "applications"; "ascii-player.desktop"]%string
          [Lit desktop_entry]].

End Installer.

(** ** Hosts used to run the installer *)

Module Hosts.

(** The first line of the player script stands for its text. *)
Definition code : string := "#!/usr/bin/env python3" ++ nl.

(** A Linux machine with [zsh] not set up. *)
Definition linux (version_info : list Z) (import_cv2 : option Installer.exn)
    (fails : Installer.Event -> option Installer.exn)
    (read_text : Installer.Path -> Installer.outcome string) : Installer.Host :=
  {| Installer.sys_version_info := version_info;
     Installer.sys_version := "3.11.4 (main, Jun  7 2023, 00:00:00) [GCC 12.2.0]";
     Installer.sys_executable := "/usr/bin/python3";
     Installer.os_name_nt := false;
     Installer.sys_platform_linux := true;
     Installer.import_cv2 := import_cv2;
     Installer.fails := fails;
     Installer.path_exists := fun _ => false;
     Installer.read_text := read_text;
     Installer.trace := [] |}.

Definition nothing_fails (ev : Installer.Event) : option Installer.exn := None.

Definition no_file (p : Installer.Path) : Installer.outcome string :=
  Installer.Raised Installer.FileNotFoundError.

Definition no_permission (p : Installer.Path) : Installer.outcome string :=
  Installer.Raised (Installer.OSError "PermissionError").

(** Every start-up file holds a comment and the line that sets the PATH. *)
Definition configured (p : Installer.Path) : Installer.outcome string :=
  Installer.Done (("# ~/.bashrc" ++ nl) ++ Installer.path_line ++ nl)%string.

Definition pip_fails (ev : Installer.Event) : option Installer.exn :=
  match ev with
  | Installer.ECheckCall _ => Some (Installer.CalledProcessError 1)
  | _ => None
  end.

Definition install_dir : Installer.Path := [".local"; "share"; "ascii-player"]%string.
Definition bin_dir : Installer.Path := [".local"; "bin"]%string.

(** Only the [chmod] of the player script fails. *)
Definition chmod_fails (ev : Installer.Event) : option Installer.exn :=
  match ev with
  | Installer.EChmod p mode =>
      if list_eq_dec string_dec p (Installer.join install_dir "ascii_player.py")
      then if mode =? 493 then Some (Installer.OSError "PermissionError") else None
      else None
  | _ => None
  end.

End Hosts.

(** * Properties *)

(** ** Rules for [wp] *)

Section WpRules.

Context {A B : Type}.

Lemma wp_ret (a : A) Q w : wp (ret a) Q w <-> Q (Ok a) w.
Proof. reflexivity. Qed.

Lemma wp_raise (e : exn) (Q : result A -> World -> Prop) w :
  wp (raise e) Q w <-> Q (Raise e) w.
Proof. reflexivity. Qed.

Lemma wp_lift (r : result A) Q w : wp (lift r) Q w <-> Q r w.
Proof. reflexivity. Qed.

Lemma wp_bind (m : M A) (k : A -> M B) Q w :
  wp (bind m k) Q w <->
  wp m (fun r w' => match r with
                    | Ok a => wp (k a) Q w'
                    | Raise e => Q (Raise e) w'
                    end) w.
Proof.
  unfold wp, bind. destruct (m w) as [[a | e] w']; reflexivity.
Qed.

Lemma wp_mono (m : M A) (Q Q' : result A -> World -> Prop) w :
  (forall r w', Q r w' -> Q' r w') -> wp m Q w -> wp m Q' w.
Proof. unfold wp. auto. Qed.

Lemma wp_tick (Q : result unit -> World -> Prop) w :
  wp tick Q w <->
  match w_sigint w with
  | None => Q (Ok tt) w
  | Some O => Q (Raise KeyboardInterrupt) (set_sigint None w)
  | Some (S k) => Q (Ok tt) (set_sigint (Some k) w)
  end.
Proof.
  unfold wp, tick. destruct (w_sigint w) as [[| k] |]; reflexivity.
Qed.

Lemma wp_step (m : M A) Q w :
  wp (step m) Q w <->
  match w_sigint w with
  | None => wp m Q w
  | Some O => Q (Raise KeyboardInterrupt) (set_sigint None w)
  | Some (S k) => wp m Q (set_sigint (Some k) w)
  end.
Proof.
  unfold wp, step, bind, tick.
  destruct (w_sigint w) as [[| k] |]; reflexivity.
Qed.

Lemma wp_try_except (body : M A) catches handler Q w :
  wp (try_except body catches handler) Q w <->
  wp body (fun r w' => match r with
                       | Raise e => if catches e then wp (handler e) Q w'
                                    else Q (Raise e) w'
                       | Ok a => Q (Ok a) w'
                       end) w.
Proof.
  unfold wp, try_except. destruct (body w) as [[a | e] w']; simpl; [reflexivity|].
  destruct (catches e); reflexivity.
Qed.

Lemma wp_try_finally (body : M A) final Q w :
  wp (try_finally body final) Q w <->
  wp body (fun r w' => wp final (fun rf w'' => match rf with
                                               | Ok _ => Q r w''
                                               | Raise e => Q (Raise e) w''
                                               end) w') w.
Proof.
  unfold wp, try_finally. destruct (body w) as [r w']; simpl.
  destruct (final w') as [[u | e] w'']; reflexivity.
Qed.

End WpRules.

Lemma wp_emit ev (Q : result unit -> World -> Prop) w :
  wp (emit ev) Q w <-> Q (Ok tt) (set_trace (w_trace w ++ [ev]) w).
Proof. reflexivity. Qed.

Lemma wp_time_time (Q : result float -> World -> Prop) w :
  wp time_time Q w <-> Q (Ok (env_clock w (w_reads w))) (set_reads (S (w_reads w)) w).
Proof. reflexivity. Qed.

Lemma wp_cap_read (Q : result (option Cv2.ColorImage) -> World -> Prop) w :
  wp cap_read Q w <->
  match Cv2.cap_video (w_cap w) with
  | None =>
      Q (Ok None) (set_trace (w_trace w ++ [ERead (Cv2.cap_pos (w_cap w)) false]) w)
  | Some v =>
      match nth_error (Cv2.v_frames v) (Cv2.cap_pos (w_cap w)) with
      | Some frame =>
          Q (Ok (Some frame))
            (set_cap {| Cv2.cap_video := Some v;
                        Cv2.cap_pos := S (Cv2.cap_pos (w_cap w)) |}
               (set_trace (w_trace w ++ [ERead (Cv2.cap_pos (w_cap w)) true]) w))
      | None =>
          Q (Ok None)
            (set_trace (w_trace w ++ [ERead (Cv2.cap_pos (w_cap w)) false]) w)
      end
  end.
Proof.
  unfold wp, cap_read.
  destruct (Cv2.cap_video (w_cap w)) as [v |]; [| reflexivity].
  destruct (nth_error (Cv2.v_frames v) (Cv2.cap_pos (w_cap w))); reflexivity.
Qed.

Lemma wp_cap_set_pos_frames frame (Q : result unit -> World -> Prop) w :
  wp (cap_set_pos_frames frame) Q w <->
  Q (Ok tt)
    (set_cap {| Cv2.cap_video := Cv2.cap_video (w_cap w);
                Cv2.cap_pos := Z.to_nat frame |}
       (set_trace (w_trace w ++ [ESeek frame]) w)).
Proof. reflexivity. Qed.

Lemma wp_cap_release (Q : result unit -> World -> Prop) w :
  wp cap_release Q w <->
  Q (Ok tt)
    (set_cap {| Cv2.cap_video := None; Cv2.cap_pos := Cv2.cap_pos (w_cap w) |}
       (set_trace (w_trace w ++ [ERelease]) w)).
Proof. reflexivity. Qed.

Lemma wp_VideoCapture path (Q : result unit -> World -> Prop) w :
  wp (VideoCapture path) Q w <->
  Q (Ok tt)
    (set_cap {| Cv2.cap_video := env_decode w path; Cv2.cap_pos := 0 |}
       (set_trace (w_trace w ++ [EOpen path]) w)).
Proof. reflexivity. Qed.

Lemma wp_cap_isOpened (Q : result bool -> World -> Prop) w :
  wp cap_isOpened Q w <->
  Q (Ok (match Cv2.cap_video (w_cap w) with Some _ => true | None => false end)) w.
Proof. reflexivity. Qed.

Lemma wp_cap_get prop (Q : result float -> World -> Prop) w :
  wp (cap_get prop) Q w <->
  Q (Ok (match Cv2.cap_video (w_cap w) with
         | Some v => prop v
         | None => S754_zero false
         end)) w.
Proof. reflexivity. Qed.

Lemma wp_os_path_isfile path (Q : result bool -> World -> Prop) w :
  wp (os_path_isfile path) Q w <-> Q (Ok (env_isfile w path)) w.
Proof. reflexivity. Qed.

(** Projections of a world after the elementary updates. *)
Ltac wsimpl :=
  cbn [fst snd w_sigint w_trace w_cap w_reads env_clock env_isfile env_decode
       set_sigint set_trace set_cap set_reads Cv2.cap_video Cv2.cap_pos] in *.

(** One symbolic step of a computation under [wp]. *)
Ltac wp_head :=
  lazymatch goal with
  | |- wp (bind _ _) _ _ => apply wp_bind
  | |- wp (ret _) _ _ => apply wp_ret
  | |- wp (raise _) _ _ => apply wp_raise
  | |- wp (sys_exit _) _ _ => apply wp_raise
  | |- wp (lift _) _ _ => apply wp_lift
  | |- wp (emit _) _ _ => apply wp_emit
  | |- wp (print _ _) _ _ => apply wp_emit
  | |- wp (time_sleep _) _ _ => apply wp_emit
  | |- wp clear_screen _ _ => apply wp_emit
  | |- wp time_time _ _ => apply wp_time_time
  | |- wp cap_read _ _ => apply wp_cap_read
  | |- wp (cap_set_pos_frames _) _ _ => apply wp_cap_set_pos_frames
  | |- wp cap_release _ _ => apply wp_cap_release
  | |- wp (VideoCapture _) _ _ => apply wp_VideoCapture
  | |- wp cap_isOpened _ _ => apply wp_cap_isOpened
  | |- wp (cap_get _) _ _ => apply wp_cap_get
  | |- wp (os_path_isfile _) _ _ => apply wp_os_path_isfile
  | |- wp cleanup _ _ => apply wp_cap_release
  | |- wp (step _) _ _ => apply wp_step
  | |- wp (try_except _ _ _) _ _ => apply wp_try_except
  | |- wp (try_finally _ _) _ _ => apply wp_try_finally
  | |- wp (if ?b then _ else _) _ _ => destruct b eqn:?
  | |- wp (match ?x with _ => _ end) _ _ => destruct x eqn:?
  | |- match ?x with _ => _ end =>
      first [ match goal with H : x = _ |- _ => rewrite H end
            | destruct x eqn:? ]
  | |- if ?x then _ else _ =>
      first [ match goal with H : x = _ |- _ => rewrite H end
            | destruct x eqn:? ]
  end.

Ltac wp_run := repeat (wsimpl; cbv beta iota; wp_head); wsimpl; cbv beta iota.

(** ** Lists of observations *)

Lemma filter_map_app {A B : Type} (f : A -> option B) (l1 l2 : list A) :
  filter_map f (l1 ++ l2) = filter_map f l1 ++ filter_map f l2.
Proof.
  induction l1 as [| a l1 IH]; simpl; [reflexivity |].
  destruct (f a); simpl; now rewrite IH.
Qed.

Lemma count_app f (t1 t2 : list Event) :
  count f (t1 ++ t2) = (count f t1 + count f t2)%nat.
Proof. unfold count. now rewrite filter_app, length_app. Qed.

Lemma counters_snoc start k :
  counters start k ++ [start + Z.of_nat k] = counters start (S k).
Proof.
  unfold counters. rewrite seq_S, map_app. reflexivity.
Qed.

Lemma counters_cons start k :
  start :: counters (start + 1) k = counters start (S k).
Proof.
  unfold counters. simpl. f_equal; [f_equal; lia |].
  rewrite <- seq_shift, map_map. apply map_ext. intros i. lia.
Qed.

Lemma extends_refl P t : extends P t t.
Proof. exists []. now rewrite app_nil_r. Qed.

Lemma extends_snoc P t t' ev :
  extends P t t' -> P ev = true -> extends P t (t' ++ [ev]).
Proof.
  intros (new & -> & Hnew) Hev. exists (new ++ [ev]).
  rewrite app_assoc, forallb_app, Hnew. simpl. now rewrite Hev.
Qed.

Lemma extends_trans P t1 t2 t3 :
  extends P t1 t2 -> extends P t2 t3 -> extends P t1 t3.
Proof.
  intros (n1 & -> & H1) (n2 & -> & H2). exists (n1 ++ n2).
  now rewrite app_assoc, forallb_app, H1, H2.
Qed.

Lemma extends_weaken (P P' : Event -> bool) t t' :
  (forall ev, P ev = true -> P' ev = true) -> extends P t t' -> extends P' t t'.
Proof.
  intros HP (new & -> & Hnew). exists new. split; [reflexivity |].
  rewrite forallb_forall in *. auto.
Qed.


Ltac ext_solve :=
  repeat (apply extends_snoc; [| reflexivity]); apply extends_refl.

(** ** No computation of the player raises [KeyboardInterrupt] by itself *)

Lemma rbind_calm {A B : Type} (r : result A) (k : A -> result B) :
  calm r -> (forall a, calm (k a)) -> calm (rbind r k).
Proof.
  unfold calm. destruct r as [a | e]; simpl; [auto | congruence].
Qed.

Lemma int_to_float_calm z : calm (int_to_float z).
Proof. unfold calm, int_to_float. destruct (is_finite _); discriminate. Qed.

Lemma int_truediv_calm a b : calm (int_truediv a b).
Proof.
  unfold calm, int_truediv. destruct (b =? 0); [discriminate |].
  destruct (is_finite _); discriminate.
Qed.

Lemma int_of_float_calm x : calm (int_of_float x).
Proof. unfold calm. destruct x; discriminate. Qed.

Lemma float_mul_int_calm x z : calm (float_mul_int x z).
Proof.
  apply rbind_calm; [apply int_to_float_calm | discriminate].
Qed.

Lemma str_index_calm s i : calm (str_index s i).
Proof.
  unfold calm, str_index. destruct (_ && _); [| discriminate].
  destruct (String.get _ _); discriminate.
Qed.

Lemma char_index_calm pixel n : calm (char_index pixel n).
Proof.
  apply rbind_calm; [apply float_mul_int_calm | apply int_of_float_calm].
Qed.

Lemma row_to_ascii_calm chars row acc : calm (row_to_ascii chars row acc).
Proof.
  revert acc. induction row as [| pixel rest IH]; intros acc; simpl.
  - discriminate.
  - apply rbind_calm; [apply char_index_calm | intros i].
    apply rbind_calm; [apply str_index_calm | intros c; apply IH].
Qed.

Lemma rows_to_ascii_calm chars gray acc : calm (rows_to_ascii chars gray acc).
Proof.
  revert acc. induction gray as [| row rest IH]; intros acc; simpl.
  - discriminate.
  - apply rbind_calm; [apply row_to_ascii_calm | intros a; apply IH].
Qed.

Lemma call_calm {A : Type} (o : option A) : calm (Cv2.call o).
Proof. destruct o; discriminate. Qed.

Lemma render_calm {cv : Cv2.Ops} frame w h ramp : calm (render frame w h ramp).
Proof.
  apply rbind_calm; [apply call_calm | intros f].
  apply rbind_calm; [apply call_calm | intros g; apply rows_to_ascii_calm].
Qed.

Lemma frame_to_ascii_calm {cv : Cv2.Ops} self frame :
  calm (frame_to_ascii self frame).
Proof. apply render_calm. Qed.

Lemma progress_percent_calm frame_num total : calm (progress_percent frame_num total).
Proof.
  apply rbind_calm; [apply int_truediv_calm | intros q; apply float_mul_int_calm].
Qed.

Lemma frame_delay_of_calm fps : calm (frame_delay_of fps).
Proof.
  unfold calm, frame_delay_of, float_truediv.
  destruct (flt _ _); [| discriminate]. destruct (is_zero _); discriminate.
Qed.

(** ** The loop terminates within its fuel *)

Section Runs.

Context {cv : Cv2.Ops}.

Lemma play_loop_fuel fuel self frame_delay frame_num w :
  (frames_left w < fuel)%nat ->
  wp (play_loop fuel self frame_delay frame_num) (fun r _ => r <> Ok false) w.
Proof.
  revert frame_num w.
  induction fuel as [| fuel IH]; intros frame_num w Hlt; [lia |].
  cbn [play_loop].
  wp_run; try discriminate.
  all: apply IH; unfold frames_left in *; wsimpl.
  all: match goal with
       | Hv : Cv2.cap_video _ = Some _, Hn : nth_error _ _ = Some _ |- _ =>
           rewrite Hv in Hlt;
           assert (Hn' := proj1 (nth_error_Some _ _) ltac:(rewrite Hn; discriminate))
       end; lia.
Qed.

Lemma run_loop_left self frame_delay frame_num w :
  wp (run_loop self frame_delay frame_num) (fun r _ => r <> Ok false) w.
Proof. apply play_loop_fuel. lia. Qed.


(** *** What the loop writes *)

Lemma play_loop_quiet fuel self frame_delay frame_num w :
  wp (play_loop fuel self frame_delay frame_num)
     (fun _ w' => extends quiet (w_trace w) (w_trace w')) w.
Proof.
  revert frame_num w.
  induction fuel as [| fuel IH]; intros frame_num w; [apply extends_refl |].
  cbn [play_loop].
  wp_run; try ext_solve.
  all: eapply wp_mono; [| apply IH]; cbv beta; wsimpl.
  all: intros _ w' H; eapply extends_trans; [| exact H]; ext_solve.
Qed.

(** *** The interrupt is the only source of [KeyboardInterrupt] *)

Ltac sig_solve :=
  pose proof frame_to_ascii_calm;
  pose proof progress_percent_calm;
  pose proof frame_delay_of_calm;
  unfold calm in *;
  repeat match goal with
    | H : w_sigint ?w = _ |- _ => rewrite H in *; clear H
    end;
  split; intros ?; try congruence;
  first [ split; [reflexivity | congruence]
        | left; split; [reflexivity | reflexivity]
        | right; split; congruence ].

Lemma play_loop_signal fuel self frame_delay frame_num w :
  wp (play_loop fuel self frame_delay frame_num)
     (fun r w' =>
        (w_sigint w = None -> w_sigint w' = None /\ calm r) /\
        (w_sigint w <> None ->
         (r = Raise KeyboardInterrupt /\ w_sigint w' = None) \/
         (calm r /\ w_sigint w' <> None))) w.
Proof.
  revert frame_num w.
  induction fuel as [| fuel IH]; intros frame_num w.
  - cbn [play_loop]. apply wp_ret. unfold calm.
    split; intros ?; [split; [assumption | discriminate] |].
    right. split; [discriminate | assumption].
  - cbn [play_loop].
    wp_run; try solve [sig_solve].
    all: eapply wp_mono; [| apply IH]; cbv beta; wsimpl; intros r w' [H1 H2].
    all: repeat match goal with
           | H : w_sigint ?w = _ |- _ => rewrite H in *; clear H
           end.
    all: split; intros Hs;
      [ try discriminate; apply H1; reflexivity
      | try congruence; apply H2; discriminate ].
Qed.

(** *** An error leaves the loop before the stream ends *)

Lemma play_loop_running fuel self frame_delay frame_num w :
  wp (play_loop fuel self frame_delay frame_num)
     (fun r w' => forall e, r = Raise e -> e <> KeyboardInterrupt ->
                            extends running (w_trace w) (w_trace w')) w.
Proof.
  revert frame_num w.
  induction fuel as [| fuel IH]; intros frame_num w.
  - cbn [play_loop]. apply wp_ret. discriminate.
  - cbn [play_loop].
    wp_run; try solve [intros ? ? ?; first [discriminate | congruence | ext_solve]].
    all: eapply wp_mono; [| apply IH]; cbv beta; wsimpl.
    all: intros r w' H e0 He0 Hne0; eapply extends_trans; [| exact (H e0 He0 Hne0)].
    all: ext_solve.
Qed.

(** *** The counters the loop displays and the frames it decodes *)

Lemma shown_of_progress n total pct end_ :
  shown_of (EPrint (progress_line n total pct) end_) = Some (n, pct).
Proof. reflexivity. Qed.

Lemma play_loop_counters fuel self frame_delay frame_num w :
  wp (play_loop fuel self frame_delay frame_num)
     (fun _ w' =>
        exists (k j : nat) (sh : list (Z * float)),
          decoded (w_trace w') =
            decoded (w_trace w) ++ seq (Cv2.cap_pos (w_cap w)) k /\
          shown (w_trace w') = shown (w_trace w) ++ sh /\
          map fst sh = counters frame_num j /\
          Forall (fun p => progress_percent (fst p) (frame_count self) = Ok (snd p)) sh /\
          (j <= k <= S j)%nat /\ (k <= frames_left w)%nat) w.
Proof.
  revert frame_num w.
  induction fuel as [| fuel IH]; intros frame_num w.
  - cbn [play_loop]. apply wp_ret. exists 0%nat, 0%nat, [].
    rewrite !app_nil_r. repeat split; auto; lia.
  - cbn [play_loop].
    wp_run.
    all: try (eapply wp_mono; [| apply IH]; cbv beta; wsimpl;
              intros _ w' (k & j & sh & Hd & Hs & Hm & Hf & Hkj & Hk);
              exists (S k), (S j), ((frame_num, a0) :: sh)).
    all: try match goal with
           | Hn : nth_error _ _ = Some _ |- _ =>
               pose proof (proj1 (nth_error_Some _ _)
                             ltac:(rewrite Hn; discriminate))
           end.
    all: unfold frames_left in *; wsimpl;
      repeat match goal with
        | H : Cv2.cap_video _ = _ |- _ => rewrite H in *
        end.
    all: unfold decoded, shown in *; rewrite ?filter_map_app in *;
      simpl filter_map in *; rewrite ?app_nil_r in *.
    all: try solve
      [ exists 0%nat, 0%nat, []; rewrite ?app_nil_r;
        repeat split; auto; lia
      | exists 1%nat, 0%nat, []; rewrite ?app_nil_r;
        repeat split; auto; lia
      | exists 1%nat, 1%nat, [(frame_num, a0)];
        unfold counters; simpl; rewrite ?Z.add_0_r;
        repeat split; auto; lia ].
    all: rewrite Hd, Hs, <- !app_assoc, <- counters_cons; simpl.
    all: repeat split; auto; try lia; congruence.
Qed.

(** *** The guarded block of [play] *)

Lemma wp_conj {A : Type} (m : M A) (Q1 Q2 : result A -> World -> Prop) w :
  wp m Q1 w -> wp m Q2 w -> wp m (fun r w' => Q1 r w' /\ Q2 r w') w.
Proof. unfold wp. auto. Qed.

Lemma wp_run_loop self frame_delay frame_num Q w :
  wp (run_loop self frame_delay frame_num) Q w <->
  wp (play_loop (S (frames_left w)) self frame_delay frame_num) Q w.
Proof. reflexivity. Qed.

Lemma quiet_body_event start ev : quiet ev = true -> body_event start ev = true.
Proof. unfold body_event. now intros ->. Qed.

Ltac body_ext :=
  repeat (apply extends_snoc;
          [| unfold body_event;
             try match goal with H : (0 <? _) = _ |- _ => rewrite H end;
             reflexivity]);
  apply extends_refl.

Lemma play_body_trace self start w :
  wp (play_body self start)
     (fun r w' =>
        match r with
        | Ok _ => exists t', extends (body_event start) (w_trace w) t' /\
                             w_trace w' = t' ++ [EPrint msg_complete nl]
        | Raise _ => extends (body_event start) (w_trace w) (w_trace w')
        end) w.
Proof.
  unfold play_body.
  wp_run; try solve [body_ext].
  all: apply wp_run_loop;
    (eapply wp_mono;
     [| apply wp_conj; [apply play_loop_quiet | apply play_loop_fuel; lia]]);
    cbv beta; wsimpl; intros [[|] | e] w' [Hq Hf]; try congruence.
  all: assert (He : extends (body_event start) (w_trace w) (w_trace w'))
    by (eapply extends_trans;
        [| eapply extends_weaken; [apply quiet_body_event | exact Hq]];
        body_ext).
  all: try exact He.
  all: apply wp_step; destruct (w_sigint w') as [[| k] |]; wsimpl;
    [ exact He | apply wp_emit; wsimpl; eauto | apply wp_emit; wsimpl; eauto ].
Qed.

Ltac sig_finish :=
  unfold calm in *;
  repeat match goal with
    | H : ?x = ?x -> _ |- _ => specialize (H eq_refl)
    | H : Some _ <> None -> _ |- _ => specialize (H ltac:(discriminate))
    | H : None <> None -> _ |- _ => clear H
    | H : Some _ = None -> _ |- _ => clear H
    | H : _ /\ _ |- _ => destruct H
    | H : _ \/ _ |- _ => destruct H
    end;
  try congruence;
  split; intros ?; try congruence;
  first [ split; congruence | left; split; congruence | right; split; congruence ].

Lemma play_body_signal self start w :
  wp (play_body self start)
     (fun r w' =>
        (w_sigint w = None -> w_sigint w' = None /\ calm r) /\
        (w_sigint w <> None ->
         (r = Raise KeyboardInterrupt /\ w_sigint w' = None) \/
         (calm r /\ w_sigint w' <> None))) w.
Proof.
  unfold play_body.
  wp_run; try solve [sig_solve].
  all: apply wp_run_loop; (eapply wp_mono; [| apply play_loop_signal]);
    cbv beta; wsimpl; intros [[|] | e] w' [H1 H2].
  all: repeat match goal with
         | H : w_sigint ?x = _ |- _ => rewrite H in *; clear H
         end.
  all: try (apply wp_step; destruct (w_sigint w') as [[| k] |] eqn:Hw'; wsimpl;
            try apply wp_emit; wsimpl).
  all: try apply wp_ret.
  all: sig_finish.
Qed.

Lemma running_not_eos ev : running ev = true -> not_eos ev = true.
Proof. unfold running, not_eos. intros H. now apply andb_prop in H. Qed.

Lemma play_body_running self start w :
  wp (play_body self start)
     (fun r w' => forall e, r = Raise e -> e <> KeyboardInterrupt ->
                            extends not_eos (w_trace w) (w_trace w')) w.
Proof.
  unfold play_body.
  wp_run; try solve [intros ? ? ?; first [discriminate | congruence | ext_solve]].
  all: apply wp_run_loop; (eapply wp_mono; [| apply play_loop_running]);
    cbv beta; wsimpl; intros [[|] | e] w' H.
  all: try (apply wp_step; destruct (w_sigint w') as [[| k] |] eqn:Hw'; wsimpl;
            try apply wp_emit; wsimpl).
  all: try apply wp_ret.
  all: intros e0 He0 Hne0; try discriminate; try congruence.
  all: assert (e = e0) by congruence; subst e0.
  all: eapply extends_trans;
    [| eapply extends_weaken; [apply running_not_eos | exact (H e eq_refl Hne0)]];
    ext_solve.
Qed.

Lemma play_body_counters self start w :
  wp (play_body self start)
     (fun _ w' =>
        exists (k j : nat) (sh : list (Z * float)),
          decoded (w_trace w') =
            decoded (w_trace w) ++ seq (first_position start w) k /\
          shown (w_trace w') = shown (w_trace w) ++ sh /\
          map fst sh = counters start j /\
          Forall (fun p => progress_percent (fst p) (frame_count self) = Ok (snd p)) sh /\
          (j <= k <= S j)%nat /\
          (k <= frames_from (first_position start w) w)%nat) w.
Proof.
  unfold play_body, first_position, frames_from.
  wp_run.
  all: try (apply wp_run_loop; (eapply wp_mono; [| apply play_loop_counters]);
            cbv beta; wsimpl;
            intros [[|] | e] w' (k & j & sh & Hd & Hs & Hm & Hf & Hkj & Hk);
            try (apply wp_step; destruct (w_sigint w') as [[| k'] |] eqn:Hw'; wsimpl;
                 try apply wp_emit; wsimpl);
            try apply wp_ret; wsimpl;
            exists k, j, sh).
  all: unfold frames_left in *; wsimpl.
  all: unfold decoded, shown in *; rewrite ?filter_map_app in *;
    simpl filter_map in *; rewrite ?app_nil_r in *.
  all: try solve [ exists 0%nat, 0%nat, []; rewrite ?app_nil_r;
                   repeat split; auto; lia ].
  all: repeat split; auto; lia.
Qed.

(** *** [play]: the three ways out *)

Lemma play_summary self start w :
  wp (play self start)
     (fun r w' =>
        exists t',
          extends (body_event start) (w_trace w) t' /\
          ((delivered w w' /\ r = Ok tt /\
            w_trace w' = t' ++ [EPrint msg_stopped nl; ERelease]) \/
           (~ delivered w w' /\ r = Ok tt /\
            w_trace w' = t' ++ [EPrint msg_complete nl; ERelease]) \/
           (~ delivered w w' /\ (exists e, r = Raise e /\ e <> KeyboardInterrupt) /\
            w_trace w' = t' ++ [ERelease] /\
            extends not_eos (w_trace w) t'))) w.
Proof.
  unfold play. apply wp_try_finally, wp_try_except.
  eapply wp_mono;
    [| apply wp_conj;
       [apply play_body_trace
       | apply wp_conj; [apply play_body_signal | apply play_body_running]]].
  cbv beta. intros rb wb (Ht & [Hs1 Hs2] & Hr). unfold delivered, calm in *.
  destruct rb as [[] | e].
  - apply wp_cap_release; wsimpl.
    destruct Ht as (t' & Hext & Ht'). exists t'. split; [exact Hext |].
    right; left. rewrite Ht', <- app_assoc. repeat split; auto.
    intros [Hw Hwb]. destruct (Hs2 Hw) as [[? ?] | [_ ?]]; congruence.
  - destruct (is_KeyboardInterrupt e) eqn:He.
    + destruct e; try discriminate.
      apply wp_emit, wp_cap_release; wsimpl.
      exists (w_trace wb). split; [exact Ht |]. left.
      rewrite <- app_assoc. repeat split; auto.
      * intros Hw. destruct (Hs1 Hw) as [_ ?]; congruence.
      * destruct (w_sigint w) eqn:Hw.
        -- destruct Hs2 as [[_ ?] | [? _]]; congruence.
        -- destruct Hs1 as [_ ?]; congruence.
    + apply wp_cap_release; wsimpl.
      exists (w_trace wb). split; [exact Ht |]. right; right.
      assert (Hne : e <> KeyboardInterrupt) by (intros ->; discriminate).
      repeat split; eauto.
      intros [Hw Hwb]. destruct (Hs2 Hw) as [[? ?] | [_ ?]]; congruence.
Qed.

Lemma play_counters self start w :
  wp (play self start)
     (fun _ w' =>
        exists (k j : nat) (sh : list (Z * float)),
          decoded (w_trace w') =
            decoded (w_trace w) ++ seq (first_position start w) k /\
          shown (w_trace w') = shown (w_trace w) ++ sh /\
          map fst sh = counters start j /\
          Forall (fun p => progress_percent (fst p) (frame_count self) = Ok (snd p)) sh /\
          (j <= k <= S j)%nat /\
          (k <= frames_from (first_position start w) w)%nat) w.
Proof.
  unfold play. apply wp_try_finally, wp_try_except.
  eapply wp_mono; [| apply play_body_counters].
  cbv beta. intros rb wb (k & j & sh & Hd & Hs & Hrest).
  destruct rb as [[] | e]; [| destruct (is_KeyboardInterrupt e)].
  all: repeat first [apply wp_emit | apply wp_cap_release]; wsimpl.
  all: exists k, j, sh.
  all: unfold decoded, shown in *; rewrite ?filter_map_app;
    simpl filter_map; rewrite ?app_nil_r; auto.
Qed.

Lemma play_closes self start w :
  wp (play self start) (fun _ w' => Cv2.cap_video (w_cap w') = None) w.
Proof.
  unfold play. apply wp_try_finally.
  unfold wp at 1.
  destruct (try_except _ _ _ w) as [r wb]. cbn [fst snd].
  apply wp_cap_release. reflexivity.
Qed.

End Runs.

(** ** New events of a run *)

Lemma skipn_length_app {A : Type} (t l : list A) :
  skipn (List.length t) (t ++ l) = l.
Proof. induction t as [| a t IH]; simpl; auto. Qed.

Lemma new_events_app w w' new :
  w_trace w' = w_trace w ++ new -> new_events w w' = new.
Proof. unfold new_events. intros ->. apply skipn_length_app. Qed.

Lemma filter_map_nothing {B : Type} (P : Event -> bool) (f : Event -> option B) new :
  (forall ev, P ev = true -> f ev = None) ->
  forallb P new = true -> filter_map f new = [].
Proof.
  intros HP. induction new as [| ev new IH]; simpl; [reflexivity |].
  intros H. apply andb_prop in H as [Hev Hnew].
  now rewrite (HP ev Hev), IH.
Qed.

Lemma count_nothing (P f : Event -> bool) new :
  (forall ev, P ev = true -> f ev = false) ->
  forallb P new = true -> count f new = 0%nat.
Proof.
  intros HP. unfold count. induction new as [| ev new IH]; simpl; [reflexivity |].
  intros H. apply andb_prop in H as [Hev Hnew].
  now rewrite (HP ev Hev), IH.
Qed.

Lemma body_event_not_release start ev :
  body_event start ev = true -> is_release ev = false.
Proof.
  destruct ev; try reflexivity. unfold body_event, quiet. simpl.
  rewrite andb_false_r. discriminate.
Qed.

Lemma body_event_no_status start ev :
  body_event start ev = true -> status_of ev = None.
Proof.
  destruct ev; try reflexivity.
  unfold body_event, quiet. cbn [is_release is_seek is_open negb andb].
  destruct (status_of _); [| reflexivity].
  rewrite andb_false_r. discriminate.
Qed.


(** * The claims *)

Section Claims.

Context {cv : Cv2.Ops}.

(** C6.  Whatever way [play] is left -- the stream ends, the user
    interrupts, or an error propagates out of the loop -- the capture is
    released exactly once: the run appends events without a release,
    then one [cap.release()], and leaves the capture closed. *)
Theorem release_runs_exactly_once self start w :
  let w' := snd (play self start w) in
  (exists t', w_trace w' = w_trace w ++ t' ++ [ERelease] /\
              releases t' = 0%nat) /\
  releases (new_events w w') = 1%nat /\
  Cv2.cap_video (w_cap w') = None.
Proof.
  intros w'. subst w'.
  pose proof (play_summary self start w) as H.
  pose proof (play_closes self start w) as Hc.
  unfold wp in H, Hc.
  destruct H as (t' & (new & -> & Hnew) & Hcases).
  assert (Hn : releases new = 0%nat)
    by (eapply count_nothing; [apply body_event_not_release | exact Hnew]).
  assert (Ht : exists t1, w_trace (snd (play self start w)) =
                          w_trace w ++ t1 ++ [ERelease] /\ releases t1 = 0%nat).
  { destruct Hcases as [(_ & _ & Ht) | [(_ & _ & Ht) | (_ & _ & Ht & _)]];
      rewrite Ht, <- app_assoc.
    - exists (new ++ [EPrint msg_stopped nl]).
      rewrite <- app_assoc. split; [reflexivity |].
      unfold releases in *. now rewrite count_app, Hn.
    - exists (new ++ [EPrint msg_complete nl]).
      rewrite <- app_assoc. split; [reflexivity |].
      unfold releases in *. now rewrite count_app, Hn.
    - exists new. split; [reflexivity | exact Hn]. }
  split; [exact Ht |]. split; [| exact Hc].
  destruct Ht as (t1 & Ht1 & Hr1).
  rewrite (new_events_app _ _ _ Ht1).
  unfold releases in *. now rewrite count_app, Hr1.
Qed.



End Claims.

(** The interrupted, the completed and the failing pass all release once. *)
Example sample_passes_release_once :
  releases (w_trace (snd (play (cv := Cv2Ref.ops) (Sample.player 2) 0
                            (Sample.playing (Sample.clip 2 [Sample.frame0; Sample.frame1]) (Some 12%nat)))))
    = 1%nat /\
  releases (w_trace (snd (play (cv := Cv2Ref.ops) (Sample.player 2) 0
                            (Sample.playing (Sample.clip 2 [Sample.frame0; Sample.frame1]) None))))
    = 1%nat /\
  releases (w_trace (snd (play (cv := Cv2Ref.ops) (Sample.player 0) 0
                            (Sample.playing (Sample.clip 0 [Sample.frame0; Sample.frame1]) None))))
    = 1%nat.
Proof. vm_compute. auto. Qed.



Lemma extends_app_inv P t new : extends P t (t ++ new) -> forallb P new = true.
Proof. intros (new' & H & Hn). apply app_inv_head in H. now subst. Qed.

Lemma not_eos_not_in new p :
  forallb not_eos new = true -> ~ In (ERead p false) new.
Proof.
  intros H Hin. rewrite forallb_forall in H. specialize (H _ Hin). discriminate.
Qed.

Lemma statuses_body start new :
  forallb (body_event start) new = true -> statuses new = [].
Proof. apply filter_map_nothing, body_event_no_status. Qed.

Lemma releases_body start new :
  forallb (body_event start) new = true -> releases new = 0%nat.
Proof. apply count_nothing, body_event_not_release. Qed.

Section MainClaims.

Context {cv : Cv2.Ops}.

(** Before [play] is entered nothing touches the interrupt counter and
    nothing is read. *)
Ltac not_played :=
  split;
  [ intros [Hn Hs]; wsimpl; congruence
  | intros [p Hin] _;
    erewrite new_events_app in Hin
      by (wsimpl; rewrite <- ?app_assoc; reflexivity);
    simpl in Hin; repeat destruct Hin as [Hin | Hin]; try discriminate;
    contradiction ].

Lemma main_outcomes args w :
  wp (main args)
     (fun r w' =>
        (delivered w w' ->
         exit_code r = 0 /\ statuses (new_events w w') = [Stopped] /\
         releases (new_events w w') = 1%nat) /\
        ((exists p, In (ERead p false) (new_events w w')) -> ~ delivered w w' ->
         exit_code r = 0 /\ statuses (new_events w w') = [Complete] /\
         releases (new_events w w') = 1%nat)) w.
Proof.
  unfold main, init.
  wp_run; try solve [not_played].
  eapply wp_mono; [| apply play_summary]. cbv beta. wsimpl.
  intros r w' (t' & Hext & Hcases).
  destruct Hext as (new & -> & Hnew).
  pose proof (statuses_body _ _ Hnew) as Hst.
  pose proof (releases_body _ _ Hnew) as Hrl.
  assert (Hdel : forall w'', w_sigint w'' = w_sigint w' ->
                 (delivered w w'' <->
                  delivered (set_cap {| Cv2.cap_video := env_decode w (arg_video args);
                                        Cv2.cap_pos := 0 |}
                               (set_trace (w_trace w ++ [EOpen (arg_video args)]) w)) w'))
    by (intros w'' Hw''; unfold delivered; wsimpl; rewrite Hw''; reflexivity).
  destruct Hcases as [(Hd & -> & Ht) | [(Hnd & -> & Ht) | (Hnd & (e & -> & Hne) & Ht & Hneos)]].
  - split; [intros _ | intros _ Hn; exfalso; apply Hn, (Hdel w' eq_refl); exact Hd].
    rewrite <- !app_assoc in Ht. rewrite (new_events_app _ _ _ Ht).
    unfold statuses, releases in *.
    rewrite !filter_map_app, !count_app, Hst, Hrl. auto.
  - split; [intros Hd; apply (Hdel w' eq_refl) in Hd; contradiction | intros _ _].
    rewrite <- !app_assoc in Ht. rewrite (new_events_app _ _ _ Ht).
    unfold statuses, releases in *.
    rewrite !filter_map_app, !count_app, Hst, Hrl. auto.
  - apply extends_app_inv in Hneos.
    rewrite <- !app_assoc in Ht.
    destruct (is_Exception e).
    + wp_run.
      split; [intros Hd; apply (Hdel _ eq_refl) in Hd; contradiction |].
      intros [p Hin] _.
      erewrite new_events_app in Hin by (wsimpl; rewrite Ht, <- ?app_assoc; reflexivity).
      simpl in Hin. destruct Hin as [Hin | Hin]; [discriminate |].
      apply in_app_or in Hin as [Hin | Hin];
        [exfalso; now apply (not_eos_not_in _ p Hneos) |].
      simpl in Hin. repeat destruct Hin as [Hin | Hin]; try discriminate; contradiction.
    + split; [intros Hd; apply (Hdel _ eq_refl) in Hd; contradiction |].
      intros [p Hin] _.
      rewrite (new_events_app _ _ _ Ht) in Hin.
      simpl in Hin. destruct Hin as [Hin | Hin]; [discriminate |].
      apply in_app_or in Hin as [Hin | Hin];
        [exfalso; now apply (not_eos_not_in _ p Hneos) |].
      simpl in Hin. repeat destruct Hin as [Hin | Hin]; try discriminate; contradiction.
Qed.

(** C7.  A run of the program in which the interrupt is delivered
    during playback, and a run that reads the end of the stream without
    an interrupt, both end with exit code 0 and one release; they
    differ in the one status line printed, "stopped by user" for the
    first and "playback complete" for the second, two distinct
    messages. *)
Theorem interruption_and_completion_exit_zero args w :
  let r := fst (main args w) in
  let w' := snd (main args w) in
  (delivered w w' ->
   exit_code r = 0 /\ statuses (new_events w w') = [Stopped] /\
   releases (new_events w w') = 1%nat) /\
  ((exists p, In (ERead p false) (new_events w w')) -> ~ delivered w w' ->
   exit_code r = 0 /\ statuses (new_events w w') = [Complete] /\
   releases (new_events w w') = 1%nat) /\
  status_of (EPrint msg_stopped nl) = Some Stopped /\
  status_of (EPrint msg_complete nl) = Some Complete /\
  msg_stopped <> msg_complete.
Proof.
  intros r w'. subst r w'.
  pose proof (main_outcomes args w) as [H1 H2].
  split; [exact H1 |]. split; [exact H2 |].
  repeat split; discriminate.
Qed.

(** C9.  When the video path does not name an existing file, the
    program prints [Error: File not found: <path>] and nothing else,
    exits with status 1, and does not open (or otherwise touch) the
    frame source. *)
Theorem missing_file_is_reported args w :
  env_isfile w (arg_video args) = false ->
  let r := fst (main args w) in
  let w' := snd (main args w) in
  new_events w w' =
    [EPrint [Lit "Error: File not found: "; Str (arg_video args)] nl] /\
  plain_text [Lit "Error: File not found: "; Str (arg_video args)] =
    Some (String.append "Error: File not found: " (arg_video args)) /\
  r = Raise (SystemExit 1) /\
  exit_code r <> 0 /\
  count is_open (new_events w w') = 0%nat /\
  w_cap w' = w_cap w.
Proof.
  intros Hfile r w'. subst r w'.
  unfold main, bind, os_path_isfile. rewrite Hfile. cbn [negb].
  unfold print, sys_exit, emit, raise. wsimpl.
  erewrite new_events_app by (wsimpl; reflexivity).
  repeat split; try discriminate.
  cbn [plain_text]. do 2 f_equal.
  generalize (arg_video args). intros p.
  induction p as [| c p IH]; simpl; [reflexivity | now f_equal].
Qed.

End MainClaims.

Lemma interruption_and_completion_exit_zero_witness :
  let clip := Sample.clip 2 [Sample.frame0; Sample.frame1] in
  let a := Sample.args "a.mp4" 4 0 in
  let wi := Sample.world clip (Some 12%nat) in
  let wc := Sample.world clip None in
  (exit_code (fst (main (cv := Cv2Ref.ops) a wi)) = 0 /\
   statuses (new_events wi (snd (main (cv := Cv2Ref.ops) a wi))) = [Stopped] /\
   releases (new_events wi (snd (main (cv := Cv2Ref.ops) a wi))) = 1%nat) /\
  (exit_code (fst (main (cv := Cv2Ref.ops) a wc)) = 0 /\
   statuses (new_events wc (snd (main (cv := Cv2Ref.ops) a wc))) = [Complete] /\
   releases (new_events wc (snd (main (cv := Cv2Ref.ops) a wc))) = 1%nat).
Proof.
  intros clip a wi wc. split.
  - apply (interruption_and_completion_exit_zero (cv := Cv2Ref.ops) a wi).
    split; [discriminate | vm_compute; reflexivity].
  - apply (interruption_and_completion_exit_zero (cv := Cv2Ref.ops) a wc).
    + exists 2%nat. vm_compute.
      repeat (first [left; reflexivity | right]).
    + intros [H _]. apply H. reflexivity.
Defined.

Lemma missing_file_is_reported_witness :
  let w := Sample.world (Sample.clip 2 [Sample.frame0]) None in
  let a := Sample.args "b.mp4" 120 0 in
  new_events w (snd (main (cv := Cv2Ref.ops) a w)) =
    [EPrint [Lit "Error: File not found: "; Str "b.mp4"] nl] /\
  plain_text [Lit "Error: File not found: "; Str "b.mp4"] =
    Some "Error: File not found: b.mp4"%string /\
  fst (main (cv := Cv2Ref.ops) a w) = Raise (SystemExit 1) /\
  exit_code (fst (main (cv := Cv2Ref.ops) a w)) <> 0 /\
  count is_open (new_events w (snd (main (cv := Cv2Ref.ops) a w))) = 0%nat /\
  w_cap (snd (main (cv := Cv2Ref.ops) a w)) = w_cap w.
Proof.
  intros w a.
  apply (missing_file_is_reported (cv := Cv2Ref.ops) a w).
  reflexivity.
Defined.

(** C1 (the code departs from the claim).  With a reported total of 0
    frames the percentage of the progress line is a division by zero:
    [progress_percent] raises for every frame number, and a clip that
    reports 0 frames but decodes some ends the program at its first frame
    with the error caught by [main] and exit status 1; no progress line is
    printed. *)
Theorem progress_line_divides_by_zero :
  (forall frame_num, progress_percent frame_num 0 = Raise ZeroDivisionError) /\
  let w := Sample.world (Sample.clip 0 [Sample.frame0; Sample.frame1]) None in
  let run := main (cv := Cv2Ref.ops) (Sample.args "a.mp4" 4 0) w in
  fst run = Raise (SystemExit 1) /\
  shown (new_events w (snd run)) = [] /\
  last (new_events w (snd run)) EClear =
    EPrint [Lit "Error: "; Exn ZeroDivisionError] nl.
Proof.
  split; [reflexivity |]. vm_compute. auto.
Qed.

(** C8.  The frame delay is [1.0 / fps] when [fps > 0] and the literal
    [0.033] otherwise; computing it never raises, and a frame rate of
    zero (of either sign) gives the finite fallback, which is the binary64
    number nearest to 33/1000. *)
Theorem frame_delay_guards_zero_rate fps :
  frame_delay_of fps =
    Ok (if flt (S754_zero false) fps then fdiv lit_1_0 fps else lit_0_033) /\
  (forall s, frame_delay_of (S754_zero s) = Ok lit_0_033) /\
  is_finite lit_0_033 = true /\
  int_truediv 33 1000 = Ok lit_0_033 /\
  frame_delay_of (float_of_Z 30) = int_truediv 1 30.
Proof.
  split.
  - unfold frame_delay_of, float_truediv.
    destruct fps as [s | s | | s m e]; try reflexivity; destruct s; reflexivity.
  - split; [intros s; reflexivity |].
    split; [reflexivity |]. split; vm_compute; reflexivity.
Qed.


(** ** binary64 rounding of [SpecFloat], in terms of [rnd] *)

Lemma iter_pos_nat {A : Type} (f : A -> A) p x :
  iter_pos f p x = Nat.iter (Pos.to_nat p) f x.
Proof.
  revert x. induction p as [p IH | p IH |]; intros x; cbn [iter_pos].
  - rewrite !IH, Pos2Nat.inj_xI.
    replace (S (2 * Pos.to_nat p)) with (Pos.to_nat p + S (Pos.to_nat p))%nat by lia.
    rewrite Nat.iter_add. f_equal. now rewrite Nat.iter_succ_r.
  - rewrite !IH, Pos2Nat.inj_xO.
    replace (2 * Pos.to_nat p)%nat with (Pos.to_nat p + Pos.to_nat p)%nat by lia.
    now rewrite Nat.iter_add.
  - reflexivity.
Qed.

Lemma shr_1_nonneg m r s :
  0 <= m ->
  shr_1 (Build_shr_record m r s) = Build_shr_record (m / 2) (Z.odd m) (r || s).
Proof.
  intros Hm. destruct m as [| p | p]; [reflexivity | | lia].
  destruct p as [p | p |]; cbn [shr_1 Z.odd].
  - f_equal. rewrite Pos2Z.inj_xI.
    apply Z.div_unique with 1; lia.
  - f_equal. rewrite Pos2Z.inj_xO.
    apply Z.div_unique with 0; lia.
  - reflexivity.
Qed.

Lemma sticky_step m n :
  0 <= m -> 0 <= n ->
  Z.odd (m / 2 ^ n) || negb (m mod 2 ^ n =? 0) = negb (m mod 2 ^ (n + 1) =? 0).
Proof.
  intros Hm Hn.
  assert (Hp : 0 < 2 ^ n) by (apply Z.pow_pos_nonneg; lia).
  rewrite Z.pow_add_r, Z.pow_1_r by lia.
  rewrite Z.rem_mul_r by lia.
  pose proof (Z.mod_pos_bound m (2 ^ n) Hp) as Hr.
  pose proof (Z.mod_pos_bound (m / 2 ^ n) 2 ltac:(lia)) as Hb.
  destruct (Z.odd (m / 2 ^ n)) eqn:Ho.
  - rewrite Zodd_mod in Ho. apply Z.eqb_eq in Ho. rewrite Ho. simpl.
    symmetry. apply negb_true_iff, Z.eqb_neq. nia.
  - rewrite Zodd_mod in Ho. apply Z.eqb_neq in Ho.
    replace ((m / 2 ^ n) mod 2) with 0 by lia.
    simpl. now rewrite Z.mul_0_r, Z.add_0_r.
Qed.

Lemma shr_iter m n :
  0 <= m ->
  Nat.iter (S n) shr_1 (Build_shr_record m false false) =
  Build_shr_record (m / 2 ^ Z.of_nat (S n)) (Z.odd (m / 2 ^ Z.of_nat n))
                   (negb (m mod 2 ^ Z.of_nat n =? 0)).
Proof.
  intros Hm. induction n as [| n IH].
  - cbn [Nat.iter]. rewrite shr_1_nonneg by exact Hm.
    change (Z.of_nat 1) with 1. change (Z.of_nat 0) with 0.
    rewrite Z.pow_1_r, Z.pow_0_r, Z.div_1_r, Z.mod_1_r. reflexivity.
  - rewrite Nat.iter_succ, IH.
    assert (Hp : 0 < 2 ^ Z.of_nat (S n)) by (apply Z.pow_pos_nonneg; lia).
    rewrite shr_1_nonneg by (apply Z.div_pos; lia).
    f_equal.
    + rewrite Z.div_div by lia. f_equal.
      rewrite (Nat2Z.inj_succ (S n)), Z.pow_succ_r by lia. lia.
    + rewrite sticky_step by lia. do 3 f_equal. lia.
Qed.

Lemma round_shr a n :
  0 <= a ->
  let mrs := Nat.iter (S n) shr_1 (Build_shr_record a false false) in
  round_nearest_even (shr_m mrs) (loc_of_shr_record mrs) =
  rne_div a (2 ^ Z.of_nat (S n)).
Proof.
  intros Ha mrs. subst mrs. rewrite shr_iter by exact Ha.
  unfold rne_div. cbn [shr_m].
  set (k := Z.of_nat n).
  assert (Hk : 0 <= k) by (subst k; lia).
  replace (Z.of_nat (S n)) with (k + 1) by (subst k; lia).
  assert (Hp : 0 < 2 ^ k) by (apply Z.pow_pos_nonneg; lia).
  rewrite Z.pow_add_r, Z.pow_1_r by lia.
  rewrite Z.rem_mul_r by lia.
  pose proof (Z.mod_pos_bound a (2 ^ k) Hp) as Hr.
  pose proof (Z.mod_pos_bound (a / 2 ^ k) 2 ltac:(lia)) as Hb.
  set (q := a / (2 ^ k * 2)).
  rewrite (Zodd_mod (a / 2 ^ k)).
  destruct (Z.eqb_spec ((a / 2 ^ k) mod 2) 1) as [Hb1 | Hb1];
    destruct (Z.eqb_spec (a mod 2 ^ k) 0) as [Hs | Hs]; cbn [negb loc_of_shr_record round_nearest_even].
  - rewrite Hb1, Hs.
    replace (2 ^ k * 2 <? 2 * (0 + 2 ^ k * 1)) with false by (symmetry; apply Z.ltb_ge; lia).
    replace (2 * (0 + 2 ^ k * 1) =? 2 ^ k * 2) with true by (symmetry; apply Z.eqb_eq; lia).
    cbn [orb andb]. rewrite <- Z.negb_even. now destruct (Z.even q).
  - rewrite Hb1.
    replace (2 ^ k * 2 <? 2 * (a mod 2 ^ k + 2 ^ k * 1)) with true by (symmetry; apply Z.ltb_lt; lia).
    reflexivity.
  - replace ((a / 2 ^ k) mod 2) with 0 by lia. rewrite Hs.
    replace (2 ^ k * 2 <? 2 * (0 + 2 ^ k * 0)) with false by (symmetry; apply Z.ltb_ge; lia).
    replace (2 * (0 + 2 ^ k * 0) =? 2 ^ k * 2) with false by (symmetry; apply Z.eqb_neq; lia).
    reflexivity.
  - replace ((a / 2 ^ k) mod 2) with 0 by lia.
    replace (2 ^ k * 2 <? 2 * (a mod 2 ^ k + 2 ^ k * 0)) with false by (symmetry; apply Z.ltb_ge; lia).
    replace (2 * (a mod 2 ^ k + 2 ^ k * 0) =? 2 ^ k * 2) with false by (symmetry; apply Z.eqb_neq; lia).
    reflexivity.
Qed.

Lemma digits2_pos_size p : digits2_pos p = Pos.size p.
Proof. induction p; simpl; congruence. Qed.

Lemma Zdigits2_log2 p : Zdigits2 (Zpos p) = Z.log2 (Zpos p) + 1.
Proof.
  unfold Zdigits2. rewrite digits2_pos_size.
  destruct p; simpl; try reflexivity; rewrite Pos.add_1_r; reflexivity.
Qed.

Lemma Zdigits2_bounds m d :
  0 < m -> (Zdigits2 m = d <-> 2 ^ (d - 1) <= m < 2 ^ d).
Proof.
  intros Hm. destruct m as [| p | p]; try lia.
  rewrite Zdigits2_log2.
  pose proof (Z.log2_spec (Zpos p) Hm) as Hs.
  pose proof (Z.log2_nonneg (Zpos p)) as Hn.
  split.
  - intros <-. replace (Z.log2 (Zpos p) + 1 - 1) with (Z.log2 (Zpos p)) by lia.
    replace (Z.log2 (Zpos p) + 1) with (Z.succ (Z.log2 (Zpos p))) by lia. exact Hs.
  - intros Hd.
    assert (0 <= d - 1).
    { destruct (Z.le_gt_cases 0 (d - 1)) as [? | Hneg]; [assumption |].
      destruct (Z.eq_dec d 0) as [-> | ?]; [simpl in Hd; lia |].
      rewrite (Z.pow_neg_r 2 d) in Hd by lia. lia. }
    assert (Z.log2 (Zpos p) = d - 1); [| lia].
    apply Z.log2_unique; [lia |]. replace (Z.succ (d - 1)) with d by lia. exact Hd.
Qed.

Lemma rne_div_1 a : rne_div a 1 = a.
Proof.
  unfold rne_div. rewrite Z.mod_1_r, Z.div_1_r. reflexivity.
Qed.

Lemma rne_div_bounds a p :
  0 < p -> a / p <= rne_div a p <= a / p + 1.
Proof.
  intros Hp. unfold rne_div. destruct (_ || _); lia.
Qed.

Lemma shr_fexp_exact m e :
  0 < m ->
  53 <= Zdigits2 m ->
  -1074 <= Zdigits2 m + e - 53 ->
  exists mrs,
    shr_fexp 53 1024 m e loc_Exact = (mrs, e + (Zdigits2 m - 53)) /\
    round_nearest_even (shr_m mrs) (loc_of_shr_record mrs) =
      rne_div m (2 ^ (Zdigits2 m - 53)) /\
    (Zdigits2 m = 53 -> mrs = Build_shr_record m false false).
Proof.
  intros Hm Hd He. unfold shr_fexp, fexp, emin.
  set (d := Zdigits2 m) in *.
  replace (Z.max (d + e - 53) (3 - 1024 - 53)) with (d + e - 53) by lia.
  replace (d + e - 53 - e) with (d - 53) by lia.
  cbn [shr_record_of_loc].
  destruct (d - 53) as [| k | k] eqn:Hk; [| | lia].
  - cbn [shr]. eexists. split; [f_equal; lia |]. split; [| reflexivity].
    cbn [shr_m loc_of_shr_record round_nearest_even].
    now rewrite Z.pow_0_r, rne_div_1.
  - cbn [shr]. eexists. split; [reflexivity |]. split; [| lia].
    rewrite iter_pos_nat.
    destruct (Pos2Nat.is_succ k) as (n & Hn). rewrite Hn.
    rewrite round_shr by lia.
    do 2 f_equal. rewrite <- Hn. now rewrite positive_nat_Z.
Qed.

Lemma quotient_bounds a d :
  53 <= d -> 2 ^ (d - 1) <= a < 2 ^ d ->
  2 ^ 52 <= a / 2 ^ (d - 53) < 2 ^ 53.
Proof.
  intros Hd Ha.
  assert (Hp : 0 < 2 ^ (d - 53)) by (apply Z.pow_pos_nonneg; lia).
  assert (H1 : 2 ^ (d - 1) = 2 ^ (d - 53) * 2 ^ 52)
    by (rewrite <- Z.pow_add_r by lia; f_equal; lia).
  assert (H2 : 2 ^ d = 2 ^ (d - 53) * 2 ^ 53)
    by (rewrite <- Z.pow_add_r by lia; f_equal; lia).
  split.
  - apply Z.div_le_lower_bound; lia.
  - apply Z.div_lt_upper_bound; lia.
Qed.

Lemma bra_exact sx p ex :
  let d := Zdigits2 (Zpos p) in
  53 <= d -> -1074 <= d + ex - 53 -> d + ex <= 1023 ->
  exists m' e',
    binary_round_aux 53 1024 sx (Zpos p) ex loc_Exact = S754_finite sx m' e' /\
    ex + (d - 53) <= e' <= ex + (d - 53) + 1 /\
    Zpos m' * 2 ^ (e' - ex) = rne_div (Zpos p) (2 ^ (d - 53)) * 2 ^ (d - 53) /\
    Zdigits2 (Zpos m') = 53.
Proof.
  intros d Hd Hlo Hhi.
  unfold binary_round_aux.
  destruct (shr_fexp_exact (Zpos p) ex) as (mrs & Hs & Hr & _); try lia.
  fold d in Hs, Hr. rewrite Hs, Hr.
  set (k := d - 53) in *.
  set (m1 := rne_div (Zpos p) (2 ^ k)).
  assert (Hp : 0 < 2 ^ k) by (apply Z.pow_pos_nonneg; lia).
  pose proof (proj1 (Zdigits2_bounds (Zpos p) d ltac:(lia)) eq_refl) as Hb.
  pose proof (quotient_bounds (Zpos p) d Hd Hb) as Hq. fold k in Hq.
  pose proof (rne_div_bounds (Zpos p) (2 ^ k) Hp) as Hm1. fold m1 in Hm1.
  destruct (Z.eq_dec m1 (2 ^ 53)) as [Htop | Htop].
  - rewrite Htop.
    assert (Hsh : shr_fexp 53 1024 (2 ^ 53) (ex + k) loc_Exact =
                  (Build_shr_record (2 ^ 52) false false, ex + k + 1)).
    { unfold shr_fexp, fexp, emin.
      change (Zdigits2 (2 ^ 53)) with 54.
      replace (Z.max (54 + (ex + k) - 53) (3 - 1024 - 53) - (ex + k)) with 1 by lia.
      reflexivity. }
    rewrite Hsh. cbn [shr_m]. change (2 ^ 52) with (Zpos 4503599627370496).
    replace (ex + k + 1 <=? 1024 - 53) with true by (symmetry; apply Z.leb_le; lia).
    exists 4503599627370496%positive, (ex + k + 1).
    split; [reflexivity |]. split; [lia |]. split; [| reflexivity].
    replace (ex + k + 1 - ex) with (k + 1) by lia.
    rewrite Z.pow_add_r, Z.pow_1_r by lia.
    change (Zpos 4503599627370496) with (2 ^ 52). lia.
  - assert (Hd1 : Zdigits2 m1 = 53) by (apply Zdigits2_bounds; simpl; lia).
    destruct (shr_fexp_exact m1 (ex + k)) as (mrs2 & Hs2 & _ & Hm2); try lia.
    rewrite Hs2, (Hm2 Hd1). cbn [shr_m].
    destruct m1 as [| p1 | p1] eqn:Hp1; try lia.
    replace (ex + k + (Zdigits2 (Zpos p1) - 53) <=? 1024 - 53) with true
      by (symmetry; apply Z.leb_le; lia).
    exists p1, (ex + k + (Zdigits2 (Zpos p1) - 53)).
    split; [reflexivity |]. split; [lia |]. split; [| exact Hd1].
    f_equal. f_equal. lia.
Qed.

Lemma rne_div_mono a b p :
  0 < p -> a <= b -> rne_div a p <= rne_div b p.
Proof.
  intros Hp Hab. unfold rne_div.
  pose proof (Z.div_le_mono a b p Hp Hab) as Hq.
  pose proof (Z.div_mod a p ltac:(lia)) as Ha.
  pose proof (Z.div_mod b p ltac:(lia)) as Hb.
  pose proof (Z.mod_pos_bound a p Hp) as Hra.
  pose proof (Z.mod_pos_bound b p Hp) as Hrb.
  destruct (Z.eq_dec (a / p) (b / p)) as [Heq | Hne].
  - rewrite <- Heq in *.
    assert (Hr : a mod p <= b mod p) by nia.
    destruct (Z.ltb_spec p (2 * (a mod p))); destruct (Z.ltb_spec p (2 * (b mod p)));
      destruct (Z.eqb_spec (2 * (a mod p)) p); destruct (Z.eqb_spec (2 * (b mod p)) p);
      destruct (Z.odd (a / p)); cbn [orb andb]; lia.
  - destruct (_ || _); destruct (_ || _); lia.
Qed.

Lemma rne_div_scale a p c :
  0 < p -> 0 < c -> rne_div (a * c) (p * c) = rne_div a p.
Proof.
  intros Hp Hc. unfold rne_div.
  rewrite Z.div_mul_cancel_r by lia.
  rewrite Z.mul_mod_distr_r by lia.
  replace (p * c <? 2 * (a mod p * c)) with (p <? 2 * (a mod p)).
  2:{ destruct (Z.ltb_spec p (2 * (a mod p))); symmetry;
      [apply Z.ltb_lt | apply Z.ltb_ge]; nia. }
  replace (2 * (a mod p * c) =? p * c) with (2 * (a mod p) =? p).
  2:{ destruct (Z.eqb_spec (2 * (a mod p)) p); symmetry;
      [apply Z.eqb_eq | apply Z.eqb_neq]; nia. }
  reflexivity.
Qed.

Lemma rne_div_mul x p : 0 < p -> rne_div (x * p) p = x.
Proof.
  intros Hp. unfold rne_div.
  rewrite Z.div_mul, Z.mod_mul by lia.
  replace (p <? 2 * 0) with false by (symmetry; apply Z.ltb_ge; lia).
  replace (2 * 0 =? p) with false by (symmetry; apply Z.eqb_neq; lia).
  reflexivity.
Qed.

Lemma rnd_scale a j : 0 < a -> 0 <= j -> rnd (a * 2 ^ j) = rnd a * 2 ^ j.
Proof.
  intros Ha Hj. unfold rnd, rnd_shift.
  rewrite Z.log2_mul_pow2 by lia.
  pose proof (Z.log2_nonneg a) as Hl.
  assert (Hpj : 0 < 2 ^ j) by (apply Z.pow_pos_nonneg; lia).
  destruct (Z.le_gt_cases 53 (Z.log2 a + 1)) as [Hbig | Hsmall].
  - replace (Z.max 0 (j + Z.log2 a + 1 - 53)) with (Z.max 0 (Z.log2 a + 1 - 53) + j) by lia.
    set (k := Z.max 0 (Z.log2 a + 1 - 53)).
    assert (Hpk : 0 < 2 ^ k) by (apply Z.pow_pos_nonneg; lia).
    rewrite Z.pow_add_r by lia.
    rewrite rne_div_scale by lia. lia.
  - replace (Z.max 0 (Z.log2 a + 1 - 53)) with 0 by lia.
    rewrite Z.pow_0_r, rne_div_1, Z.mul_1_r.
    set (k := Z.max 0 (j + Z.log2 a + 1 - 53)).
    assert (Hpk : 0 < 2 ^ k) by (apply Z.pow_pos_nonneg; lia).
    assert (Hsplit : 2 ^ j = 2 ^ (j - k) * 2 ^ k)
      by (rewrite <- Z.pow_add_r by lia; f_equal; lia).
    rewrite Hsplit, Z.mul_assoc, rne_div_mul by lia. reflexivity.
Qed.

Lemma rnd_mono a b : 0 < a -> a <= b -> rnd a <= rnd b.
Proof.
  intros Ha Hab. unfold rnd, rnd_shift.
  pose proof (Z.log2_le_mono a b Hab) as Hl.
  pose proof (Z.log2_nonneg a) as Hla.
  pose proof (Z.log2_spec a Ha) as Hsa.
  pose proof (Z.log2_spec b ltac:(lia)) as Hsb.
  set (ka := Z.max 0 (Z.log2 a + 1 - 53)).
  set (kb := Z.max 0 (Z.log2 b + 1 - 53)).
  assert (Hpa : 0 < 2 ^ ka) by (apply Z.pow_pos_nonneg; lia).
  assert (Hpb : 0 < 2 ^ kb) by (apply Z.pow_pos_nonneg; lia).
  destruct (Z.eq_dec ka kb) as [Hk | Hk].
  - rewrite <- Hk. apply Z.mul_le_mono_nonneg_r; [lia |].
    apply rne_div_mono; lia.
  - assert (Hlt : ka < kb) by lia.
    assert (Hkb : kb = Z.log2 b + 1 - 53) by lia.
    (* rnd a <= 2 ^ (log2 a + 1) <= 2 ^ log2 b <= rnd b *)
    apply Z.le_trans with (2 ^ Z.succ (Z.log2 a)).
    + destruct (Z.eq_dec ka 0) as [H0 | H0].
      * rewrite H0, Z.pow_0_r, rne_div_1. lia.
      * assert (Hka : ka = Z.log2 a + 1 - 53) by lia.
        pose proof (rne_div_bounds a (2 ^ ka) Hpa) as Hr.
        pose proof (quotient_bounds a (Z.log2 a + 1) ltac:(lia)) as Hq.
        replace (Z.log2 a + 1 - 1) with (Z.log2 a) in Hq by lia.
        replace (Z.log2 a + 1) with (Z.succ (Z.log2 a)) in Hq at 1 by lia.
        specialize (Hq Hsa). rewrite <- Hka in Hq.
        replace (2 ^ Z.succ (Z.log2 a)) with (2 ^ 53 * 2 ^ ka)
          by (rewrite <- Z.pow_add_r by lia; f_equal; lia).
        apply Z.mul_le_mono_nonneg_r; lia.
    + apply Z.le_trans with (2 ^ Z.log2 b).
      * apply Z.pow_le_mono_r; lia.
      * pose proof (rne_div_bounds b (2 ^ kb) Hpb) as Hr.
        pose proof (quotient_bounds b (Z.log2 b + 1) ltac:(lia)) as Hq.
        replace (Z.log2 b + 1 - 1) with (Z.log2 b) in Hq by lia.
        replace (Z.log2 b + 1) with (Z.succ (Z.log2 b)) in Hq at 1 by lia.
        specialize (Hq Hsb). rewrite <- Hkb in Hq.
        replace (2 ^ Z.log2 b) with (2 ^ 52 * 2 ^ kb)
          by (rewrite <- Z.pow_add_r by lia; f_equal; lia).
        apply Z.mul_le_mono_nonneg_r; lia.
Qed.

Lemma pos_iter_xO p d : Zpos (Pos.iter xO p d) = Zpos p * 2 ^ Zpos d.
Proof.
  induction d as [| d IH] using Pos.peano_ind.
  - simpl. lia.
  - rewrite Pos.iter_succ, Pos2Z.inj_xO, IH, Pos2Z.inj_succ, Z.pow_succ_r by lia. lia.
Qed.

Lemma rnd_digits a :
  0 < a -> 53 <= Zdigits2 a ->
  rne_div a (2 ^ (Zdigits2 a - 53)) * 2 ^ (Zdigits2 a - 53) = rnd a.
Proof.
  intros Ha Hd. destruct a as [| p | p]; try lia.
  unfold rnd, rnd_shift. rewrite Zdigits2_log2 in *.
  now replace (Z.max 0 (Z.log2 (Zpos p) + 1 - 53)) with (Z.log2 (Zpos p) + 1 - 53) by lia.
Qed.

Lemma rnd_small a : 0 < a -> Zdigits2 a <= 53 -> rnd a = a.
Proof.
  intros Ha Hd. destruct a as [| p | p]; try lia.
  unfold rnd, rnd_shift. rewrite Zdigits2_log2 in *.
  replace (Z.max 0 (Z.log2 (Zpos p) + 1 - 53)) with 0 by lia.
  now rewrite Z.pow_0_r, rne_div_1, Z.mul_1_r.
Qed.

(** [float(N)] is exact for [1 <= N <= 2^53]. *)
Lemma float_of_Z_exact N :
  1 <= N <= 2 ^ 53 ->
  exists m e,
    float_of_Z N = S754_finite false m e /\
    Zdigits2 (Zpos m) = 53 /\
    -52 <= e <= 1 /\
    Zpos m * 2 ^ (e + 52) = N * 2 ^ 52.
Proof.
  intros HN. destruct N as [| p | p]; try lia.
  unfold float_of_Z, binary_normalize, binary_round, shl_align, fexp, emin, prec, emax.
  set (d := Zpos (digits2_pos p)).
  assert (Hd : Zdigits2 (Zpos p) = d) by reflexivity.
  pose proof (proj1 (Zdigits2_bounds (Zpos p) d ltac:(lia)) Hd) as Hb.
  assert (Hd1 : 1 <= d) by (subst d; lia).
  assert (Hd54 : d <= 54).
  { destruct (Z.le_gt_cases d 54) as [? | Hgt]; [assumption |].
    assert (2 ^ 54 <= 2 ^ (d - 1)) by (apply Z.pow_le_mono_r; lia). lia. }
  replace (Z.max (d + 0 - 53) (3 - 1024 - 53) - 0) with (d - 53) by lia.
  destruct (d - 53) as [| k | k] eqn:Hk.
  - (* 53 bits already *)
    destruct (bra_exact false p 0) as (m' & e' & Hr & He & Hv & Hm'); try (rewrite Hd; lia).
    rewrite Hr. exists m', e'. rewrite Hd, Hk, Z.pow_0_r, rne_div_1 in Hv.
    rewrite Hd, Hk in He.
    pose proof (proj1 (Zdigits2_bounds (Zpos m') 53 ltac:(lia)) Hm') as Hbm.
    replace (d - 1) with 52 in Hb by lia. replace d with 53 in Hb by lia.
    assert (e' = 0).
    { destruct (Z.eq_dec e' 0) as [? | Hne]; [assumption |].
      assert (e' = 1) by lia. subst e'. simpl in Hv, Hbm. lia. }
    subst e'. simpl in Hv. simpl. repeat split; try lia; auto.
  - (* N = 2^53 *)
    assert (d = 54) by lia.
    assert (Hp : Zpos p = 2 ^ 53).
    { replace d with 54 in Hb by lia. simpl in Hb. simpl in HN. simpl. lia. }
    injection Hp as ->.
    exists 4503599627370496%positive, 1. repeat split; try lia; reflexivity.
  - (* fewer than 53 bits: shifted left first *)
    set (mz := Pos.iter xO p k).
    assert (Hmz : Zpos mz = Zpos p * 2 ^ Zpos k) by apply pos_iter_xO.
    assert (Hkd : Zpos k = 53 - d) by lia.
    assert (Hpk : 0 < 2 ^ Zpos k) by (apply Z.pow_pos_nonneg; lia).
    assert (Hdz : Zdigits2 (Zpos mz) = 53).
    { apply Zdigits2_bounds; [lia |]. rewrite Hmz.
      replace (2 ^ (53 - 1)) with (2 ^ (d - 1) * 2 ^ Zpos k)
        by (rewrite <- Z.pow_add_r by lia; f_equal; lia).
      replace (2 ^ 53) with (2 ^ d * 2 ^ Zpos k)
        by (rewrite <- Z.pow_add_r by lia; f_equal; lia).
      split; [apply Z.mul_le_mono_nonneg_r | apply Z.mul_lt_mono_pos_r]; lia. }
    destruct (bra_exact false mz (d + 0 - 53)) as (m' & e' & Hr & He & Hv & Hm');
      try (rewrite Hdz; lia).
    replace (Z.max (d + 0 - 53) (3 - 1024 - 53)) with (d + 0 - 53) by lia.
    rewrite Hr. exists m', e'.
    rewrite Hdz, Z.sub_diag, Z.pow_0_r, rne_div_1, Z.mul_1_r in Hv.
    rewrite Hdz in He.
    pose proof (proj1 (Zdigits2_bounds (Zpos m') 53 ltac:(lia)) Hm') as Hbm.
    pose proof (proj1 (Zdigits2_bounds (Zpos mz) 53 ltac:(lia)) Hdz) as Hbz.
    assert (e' = d + 0 - 53).
    { destruct (Z.eq_dec e' (d + 0 - 53)) as [? | Hne]; [assumption |].
      assert (He1 : e' - (d + 0 - 53) = 1) by lia. rewrite He1 in Hv.
      simpl in Hv, Hbm, Hbz. lia. }
    subst e'. rewrite Z.sub_diag, Z.pow_0_r, Z.mul_1_r in Hv.
    repeat split; try lia; auto.
    rewrite Hv, Hmz, <- Z.mul_assoc, <- Z.pow_add_r by lia.
    do 2 f_equal. lia.
Qed.


(** ** The 256 quotients [L / 255] *)

Lemma levels_in L : 0 <= L <= 255 -> In L levels.
Proof.
  intros HL. unfold levels. apply in_map_iff. exists (Z.to_nat L).
  split; [lia |]. apply in_seq. lia.
Qed.

Lemma fractions_ok : forallb fraction_ok levels = true.
Proof. vm_compute. reflexivity. Qed.

Lemma scaled_sorted_true : scaled_sorted = true.
Proof. vm_compute. reflexivity. Qed.

Lemma scaled_step L : 0 <= L < 255 -> scaled L <= scaled (L + 1).
Proof.
  intros HL.
  pose proof scaled_sorted_true as H. unfold scaled_sorted in H.
  rewrite forallb_forall in H. specialize (H L (levels_in L ltac:(lia))).
  apply orb_prop in H as [H | H]; [apply Z.leb_le in H; lia | now apply Z.leb_le].
Qed.

Lemma scaled_mono L1 L2 :
  0 <= L1 -> L1 <= L2 -> L2 <= 255 -> scaled L1 <= scaled L2.
Proof.
  intros H0 H12 H255.
  replace L2 with (L1 + Z.of_nat (Z.to_nat (L2 - L1))) in * by lia.
  induction (Z.to_nat (L2 - L1)) as [| k IH].
  - rewrite Z.add_0_r. lia.
  - apply Z.le_trans with (scaled (L1 + Z.of_nat k)); [apply IH; lia |].
    replace (L1 + Z.of_nat (S k)) with (L1 + Z.of_nat k + 1) by lia.
    apply scaled_step. lia.
Qed.

Lemma fraction_shape L :
  1 <= L <= 255 ->
  exists m e, pixel_fraction L = S754_finite false m e /\
              Zdigits2 (Zpos m) = 53 /\ -60 <= e <= -52 /\
              scaled L = Zpos m * 2 ^ (e + 60).
Proof.
  intros HL.
  pose proof fractions_ok as H. rewrite forallb_forall in H.
  specialize (H L (levels_in L ltac:(lia))).
  unfold fraction_ok, scaled in *.
  destruct (pixel_fraction L) as [[|] | | | [|] m e]; try discriminate.
  - apply Z.eqb_eq in H. lia.
  - exists m, e. rewrite !andb_true_iff in H. destruct H as [[[H1 H2] H3] _].
    apply Z.eqb_eq in H1. apply Z.leb_le in H2, H3. auto.
Qed.

(** ** The glyph index in terms of [rnd] *)

Lemma shiftl_scaled m e c :
  0 <= m -> 0 <= c -> 0 <= e + c -> Z.shiftl m e = m * 2 ^ (e + c) / 2 ^ c.
Proof.
  intros Hm Hc Hec.
  assert (Hpc : 0 < 2 ^ c) by (apply Z.pow_pos_nonneg; lia).
  destruct (Z.le_gt_cases 0 e) as [He | He].
  - rewrite Z.shiftl_mul_pow2, Z.pow_add_r, Z.mul_assoc, Z.div_mul by lia. reflexivity.
  - rewrite Z.shiftl_div_pow2 by lia.
    assert (Hp : 0 < 2 ^ (e + c)) by (apply Z.pow_pos_nonneg; lia).
    replace (2 ^ c) with (2 ^ (- e) * 2 ^ (e + c))
      by (rewrite <- Z.pow_add_r by lia; f_equal; lia).
    now rewrite Z.div_mul_cancel_r by lia.
Qed.

Lemma product_digits a b :
  2 ^ 52 <= a < 2 ^ 53 -> 2 ^ 52 <= b < 2 ^ 53 ->
  105 <= Zdigits2 (a * b) <= 106.
Proof.
  intros Ha Hb.
  assert (Hab : 2 ^ 104 <= a * b < 2 ^ 106).
  { change (2 ^ 104) with (2 ^ 52 * 2 ^ 52). change (2 ^ 106) with (2 ^ 53 * 2 ^ 53).
    simpl in *. nia. }
  set (d := Zdigits2 (a * b)).
  pose proof (proj1 (Zdigits2_bounds (a * b) d ltac:(simpl in *; lia)) eq_refl) as Hd.
  split.
  - destruct (Z.le_gt_cases 105 d) as [? | Hlt]; [assumption |].
    destruct (Z.le_gt_cases 0 d) as [Hnn | Hneg].
    + assert (2 ^ d <= 2 ^ 104) by (apply Z.pow_le_mono_r; lia). lia.
    + rewrite (Z.pow_neg_r 2 d) in Hd by lia. simpl in *. lia.
  - destruct (Z.le_gt_cases d 106) as [? | Hgt]; [assumption |].
    assert (2 ^ 106 <= 2 ^ (d - 1)) by (apply Z.pow_le_mono_r; lia). lia.
Qed.

(** The product of two normal positive floats: a positive float whose
    integer part is given by [rnd]. *)
Lemma mul_shape m1 e1 m2 e2 c :
  Zdigits2 (Zpos m1) = 53 -> Zdigits2 (Zpos m2) = 53 ->
  -200 <= e1 + e2 <= 200 -> 0 <= c -> 0 <= e1 + e2 + c ->
  exists m' e',
    fmul (S754_finite false m1 e1) (S754_finite false m2 e2) = S754_finite false m' e' /\
    Z.shiftl (Zpos m') e' = rnd (Zpos m1 * Zpos m2) * 2 ^ (e1 + e2 + c) / 2 ^ c.
Proof.
  intros H1 H2 He Hc Hec.
  pose proof (proj1 (Zdigits2_bounds (Zpos m1) 53 ltac:(lia)) H1) as Hb1.
  pose proof (proj1 (Zdigits2_bounds (Zpos m2) 53 ltac:(lia)) H2) as Hb2.
  pose proof (product_digits _ _ Hb1 Hb2) as Hd.
  unfold fmul, SFmul, prec, emax. cbn [xorb].
  rewrite <- Pos2Z.inj_mul in Hd |- *.
  destruct (bra_exact false (m1 * m2) (e1 + e2)) as (m' & e' & Hr & He' & Hv & Hm'); try lia.
  rewrite Hr. exists m', e'. split; [reflexivity |].
  rewrite rnd_digits in Hv by lia.
  rewrite (shiftl_scaled _ _ c) by lia. f_equal.
  rewrite <- Hv, <- Z.mul_assoc, <- Z.pow_add_r by lia. do 2 f_equal. lia.
Qed.

Lemma rnd_nonneg a : 0 <= a -> 0 <= rnd a.
Proof.
  intros Ha. unfold rnd.
  assert (Hp : 0 < 2 ^ rnd_shift a) by (apply Z.pow_pos_nonneg; unfold rnd_shift; lia).
  pose proof (rne_div_bounds a _ Hp). pose proof (Z.div_pos a _ Ha Hp). nia.
Qed.

(** The float the index is taken of, for a pixel [1 <= L <= 255] and a
    ramp of [N + 1] glyphs, [1 <= N <= 2^53]. *)
Lemma index_float L N :
  1 <= L <= 255 -> 1 <= N <= 2 ^ 53 ->
  exists mN eN m' e',
    float_of_Z N = S754_finite false mN eN /\
    Zdigits2 (Zpos mN) = 53 /\ -52 <= eN <= 1 /\
    Zpos mN * 2 ^ (eN + 52) = N * 2 ^ 52 /\
    float_mul_int (pixel_fraction L) N = Ok (S754_finite false m' e') /\
    Z.shiftl (Zpos m') e' = rnd (scaled L * Zpos mN) * 2 ^ (eN + 52) / 2 ^ 112.
Proof.
  intros HL HN.
  destruct (float_of_Z_exact N HN) as (mN & eN & HfN & HdN & HeN & HvN).
  destruct (fraction_shape L HL) as (mL & eL & HfL & HdL & HeL & Hsc).
  destruct (mul_shape mL eL mN eN 112) as (m' & e' & Hx & Hv); try lia.
  exists mN, eN, m', e'. repeat split; try assumption; try lia.
  - unfold float_mul_int, int_to_float. rewrite HfN, HfL. cbn [is_finite rbind].
    now rewrite Hx.
  - rewrite Hv, Hsc. f_equal.
    replace (Zpos mL * 2 ^ (eL + 60) * Zpos mN) with (Zpos mL * Zpos mN * 2 ^ (eL + 60)) by lia.
    rewrite rnd_scale by lia.
    rewrite <- !Z.mul_assoc, <- Z.pow_add_r by lia. do 2 f_equal. lia.
Qed.

Lemma pixel_fraction_0 : pixel_fraction 0 = S754_zero false.
Proof. reflexivity. Qed.

Lemma scaled_0 : scaled 0 = 0.
Proof. reflexivity. Qed.

Lemma scaled_255 : scaled 255 = 2 ^ 60.
Proof. vm_compute. reflexivity. Qed.

Lemma rnd_0 : rnd 0 = 0.
Proof. reflexivity. Qed.

Lemma char_index_value L N :
  0 <= L <= 255 -> 1 <= N <= 2 ^ 53 ->
  char_index L (N + 1) = Ok (index_value L N) /\
  spec_glyph_index L (N + 1) = Ok (clamp 0 N (index_value L N)).
Proof.
  intros HL HN. unfold char_index, spec_glyph_index, index_value.
  replace (N + 1 - 1) with N by lia. fold (pixel_fraction L).
  destruct (Z.eq_dec L 0) as [-> | HL0].
  - destruct (float_of_Z_exact N HN) as (mN & eN & HfN & _).
    unfold float_mul_int, int_to_float. rewrite HfN, pixel_fraction_0, scaled_0.
    cbn [is_finite rbind fmul SFmul xorb int_of_float floor_float].
    unfold fmul. cbn [SFmul xorb rbind int_of_float floor_float].
    change (0 * Zpos mN) with 0. rewrite rnd_0.
    split; reflexivity.
  - destruct (index_float L N) as (mN & eN & m' & e' & HfN & _ & _ & _ & Hx & Hv); try lia.
    rewrite Hx, HfN. cbn [rbind int_of_float floor_float cond_Zopp].
    rewrite Hv. split; reflexivity.
Qed.

Lemma index_value_nonneg L N : 0 <= L <= 255 -> 0 <= index_value L N.
Proof.
  intros HL. unfold index_value.
  destruct (float_of_Z N) as [| | | [|] mN eN]; try lia.
  apply Z.div_pos; [| simpl; lia].
  apply Z.mul_nonneg_nonneg; [| apply Z.pow_nonneg; lia].
  apply rnd_nonneg. apply Z.mul_nonneg_nonneg; [| lia].
  rewrite <- scaled_0. apply scaled_mono; lia.
Qed.

Lemma index_value_mono L1 L2 N :
  0 <= L1 -> L1 <= L2 -> L2 <= 255 -> index_value L1 N <= index_value L2 N.
Proof.
  intros H0 H12 H255. unfold index_value.
  destruct (float_of_Z N) as [| | | [|] mN eN]; try lia.
  apply Z.div_le_mono; [simpl; lia |].
  apply Z.mul_le_mono_nonneg_r; [apply Z.pow_nonneg; lia |].
  pose proof (scaled_mono L1 L2 H0 H12 H255) as Hs.
  pose proof (scaled_mono 0 L1 ltac:(lia) H0 ltac:(lia)) as Hs0. rewrite scaled_0 in Hs0.
  destruct (Z.eq_dec (scaled L1) 0) as [Hz | Hz].
  - rewrite Hz, Z.mul_0_l, rnd_0. apply rnd_nonneg. nia.
  - apply rnd_mono; nia.
Qed.

Lemma index_value_top N : 1 <= N <= 2 ^ 53 -> index_value 255 N = N.
Proof.
  intros HN. unfold index_value.
  destruct (float_of_Z_exact N HN) as (mN & eN & HfN & HdN & HeN & HvN).
  rewrite HfN, scaled_255.
  rewrite (Z.mul_comm (2 ^ 60)), rnd_scale, rnd_small by lia.
  replace (Zpos mN * 2 ^ 60 * 2 ^ (eN + 52)) with (N * 2 ^ 112).
  - apply Z.div_mul. simpl. lia.
  - replace (Zpos mN * 2 ^ 60 * 2 ^ (eN + 52)) with (Zpos mN * 2 ^ (eN + 52) * 2 ^ 60) by lia.
    rewrite HvN. change (2 ^ 112) with (2 ^ 52 * 2 ^ 60). lia.
Qed.



(** ** The renderer *)

Lemma str_length_append s t :
  String.length (String.append s t) = (String.length s + String.length t)%nat.
Proof. induction s as [| c s IH]; simpl; [reflexivity | now rewrite IH]. Qed.

Lemma str_append_assoc s t u :
  String.append (String.append s t) u = String.append s (String.append t u).
Proof. induction s as [| c s IH]; simpl; [reflexivity | now rewrite IH]. Qed.

Lemma str_append_nil_r s : String.append s EmptyString = s.
Proof. induction s as [| c s IH]; simpl; [reflexivity | now rewrite IH]. Qed.

Lemma str_get_some n s :
  (n < String.length s)%nat -> exists c, String.get n s = Some c.
Proof.
  revert n. induction s as [| c s IH]; intros n Hn; simpl in *; [lia |].
  destruct n as [| n]; [eauto | apply IH; lia].
Qed.

Lemma str_index_ok s i : 0 <= i < len s -> exists c, str_index s i = Ok c.
Proof.
  intros Hi. unfold str_index, len in *.
  replace (i <? 0) with false by (symmetry; apply Z.ltb_ge; lia).
  replace ((0 <=? i) && (i <? Z.of_nat (String.length s))) with true
    by (symmetry; apply andb_true_iff; split; [apply Z.leb_le | apply Z.ltb_lt]; lia).
  destruct (str_get_some (Z.to_nat i) s ltac:(lia)) as (c & ->). eauto.
Qed.

Lemma char_index_in_range L n :
  0 <= L <= 255 -> 1 <= n <= 2 ^ 53 + 1 ->
  exists i, char_index L n = Ok i /\ 0 <= i <= n - 1.
Proof.
  intros HL Hn. destruct (Z.eq_dec n 1) as [-> | Hn1].
  - exists 0. split; [| lia]. unfold char_index. fold (pixel_fraction L).
    change (float_mul_int (pixel_fraction L) (1 - 1))
      with (Ok (fmul (pixel_fraction L) (S754_zero false)) : result float).
    destruct (Z.eq_dec L 0) as [-> | HL0]; [reflexivity |].
    destruct (fraction_shape L ltac:(lia)) as (m & e & -> & _). reflexivity.
  - replace n with (n - 1 + 1) by lia.
    assert (HN : 1 <= n - 1 <= 2 ^ 53) by (simpl in *; lia).
    exists (index_value L (n - 1)). split; [apply char_index_value; assumption |].
    replace (n - 1 + 1 - 1) with (n - 1) by lia.
    split; [now apply index_value_nonneg |].
    rewrite <- (index_value_top (n - 1) HN) at 2. apply index_value_mono; lia.
Qed.

Lemma row_to_ascii_ok chars row acc :
  Forall Cv2.uint8 row -> 1 <= len chars <= 2 ^ 53 + 1 ->
  exists l, row_to_ascii chars row acc = Ok (String.append acc l) /\
            String.length l = List.length row.
Proof.
  intros Hrow Hn. revert acc.
  induction Hrow as [| pixel rest Hp _ IH]; intros acc.
  - exists EmptyString. simpl. now rewrite str_append_nil_r.
  - cbn [row_to_ascii].
    destruct (char_index_in_range pixel (len chars) Hp Hn) as (i & -> & Hi).
    cbn [rbind].
    destruct (str_index_ok chars i ltac:(lia)) as (c & ->). cbn [rbind].
    destruct (IH (String.append acc (String c EmptyString))) as (l & -> & Hl).
    exists (String c l). rewrite str_append_assoc. simpl. auto.
Qed.

Lemma rows_to_ascii_ok chars gray cols acc :
  Forall (Forall Cv2.uint8) gray ->
  Forall (fun row => Z.of_nat (List.length row) = cols) gray ->
  1 <= len chars <= 2 ^ 53 + 1 ->
  exists lines,
    rows_to_ascii chars gray acc = Ok (String.append acc (text_block lines)) /\
    List.length lines = List.length gray /\
    Forall (fun l => len l = cols) lines.
Proof.
  intros Hpix Hshape Hn. revert acc.
  induction gray as [| row rest IH]; intros acc.
  - exists []. simpl. rewrite str_append_nil_r. auto.
  - inversion Hpix as [| ? ? Hrow Hrest]; subst.
    inversion Hshape as [| ? ? Hlen Hlens]; subst.
    cbn [rows_to_ascii].
    destruct (row_to_ascii_ok chars row acc Hrow Hn) as (l & -> & Hl). cbn [rbind].
    destruct (IH Hrest Hlens (String.append (String.append acc l) nl)) as (lines & -> & Hc & Hf).
    exists (l :: lines). cbn [text_block List.length].
    rewrite !str_append_assoc. repeat split; [congruence |].
    constructor; [unfold len; lia | exact Hf].
Qed.

Section Renderer.

Context {cv : Cv2.Ops}.
Hypothesis contract : Cv2.Contract cv.

(** C5.  For every valid frame, every [width > 0] and [height > 0] and
    every non-empty ramp (of at most [2^53 + 1] glyphs), rendering
    succeeds and yields a text block of exactly [height] lines of exactly
    [width] characters each, the line separators apart; as a function of
    its four inputs it leaves the world untouched. *)
Theorem render_gives_height_lines_of_width frame width height ramp :
  Cv2.valid_image frame -> 0 < width -> 0 < height ->
  1 <= len ramp <= 2 ^ 53 + 1 ->
  (exists lines,
     render frame width height ramp = Ok (text_block lines) /\
     Z.of_nat (List.length lines) = height /\
     Forall (fun l => len l = width) lines) /\
  forall w, snd (lift (render frame width height ramp) w) = w.
Proof.
  intros Hframe Hw Hh Hramp. split; [| reflexivity].
  destruct (Cv2.resize_ok cv contract frame width height Hframe Hw Hh)
    as (out & Hres & Hout & Hsh).
  destruct (Cv2.cvtColor_ok cv contract out Hout) as (g & Hcvt & Hpix & Hshape).
  destruct (Hshape height width Hsh) as [Hrows Hcols].
  unfold render. rewrite Hres. cbn [Cv2.call rbind]. rewrite Hcvt. cbn [Cv2.call rbind].
  destruct (rows_to_ascii_ok ramp g width EmptyString Hpix Hcols Hramp)
    as (lines & Hr & Hlen & Hf).
  exists lines. rewrite Hr. simpl. repeat split; [congruence | exact Hf].
Qed.

End Renderer.

(** ** The reference OpenCV operations meet the contract *)

Lemma Forall_nth_default {A : Type} (P : A -> Prop) l n d :
  Forall P l -> P d -> P (nth n l d).
Proof.
  intros Hl Hd. destruct (nth_in_or_default n l d) as [Hin | ->]; [| exact Hd].
  rewrite Forall_forall in Hl. auto.
Qed.

Lemma luma_uint8 p : Cv2.bgr_ok p -> Cv2.uint8 (Cv2Ref.luma p).
Proof.
  destruct p as [[b g] r]. unfold Cv2.bgr_ok, Cv2.uint8, Cv2Ref.luma.
  intros (Hb & Hg & Hr). split.
  - apply Z.div_pos; lia.
  - apply Z.lt_succ_r. apply Z.div_lt_upper_bound; lia.
Qed.

Lemma cv2ref_contract : Cv2.Contract Cv2Ref.ops.
Proof.
  split.
  - intros img w h (rows & cols & Hr & Hc & [Hlen Hrowlen] & Hpix) Hw Hh.
    destruct img as [| row0 rest]; [simpl in Hlen; lia |].
    cbn [Cv2.resize Cv2Ref.ops Cv2Ref.resize].
    replace ((w <=? 0) || (h <=? 0)) with false
      by (symmetry; apply orb_false_iff; split; apply Z.leb_gt; lia).
    eexists. split; [reflexivity |].
    assert (Hshape : Cv2.shape
              (map (fun i : nat =>
                      map (fun j : nat =>
                             Cv2Ref.pick
                               (Cv2Ref.pick (row0 :: rest) (Z.of_nat i)
                                  (Z.of_nat (List.length (row0 :: rest))) h row0)
                               (Z.of_nat j) (Z.of_nat (List.length row0)) w (0, 0, 0))
                          (seq 0 (Z.to_nat w)))
                   (seq 0 (Z.to_nat h))) h w).
    { split.
      - rewrite length_map, length_seq. lia.
      - apply Forall_forall. intros row Hin. apply in_map_iff in Hin as (i & <- & _).
        rewrite length_map, length_seq. lia. }
    split; [| exact Hshape].
    exists h, w. repeat split; try lia; try apply Hshape.
    apply Forall_forall. intros row Hin. apply in_map_iff in Hin as (i & <- & _).
    apply Forall_forall. intros p Hp. apply in_map_iff in Hp as (j & <- & _).
    unfold Cv2Ref.pick.
    apply Forall_nth_default; [| unfold Cv2.bgr_ok, Cv2.uint8; lia].
    apply Forall_nth_default; [exact Hpix | now inversion Hpix].
  - intros img (rows & cols & Hr & Hc & Hshape & Hpix).
    cbn [Cv2.cvtColor_BGR2GRAY Cv2Ref.ops Cv2Ref.cvtColor_BGR2GRAY].
    eexists. split; [reflexivity |]. split.
    + apply Forall_forall. intros row Hin. apply in_map_iff in Hin as (r0 & <- & Hr0).
      apply Forall_forall. intros p Hp. apply in_map_iff in Hp as (q & <- & Hq).
      apply luma_uint8.
      rewrite Forall_forall in Hpix. specialize (Hpix r0 Hr0).
      rewrite Forall_forall in Hpix. auto.
    + intros rows' cols' [Hl Hf]. split.
      * now rewrite length_map.
      * apply Forall_forall. intros row Hin. apply in_map_iff in Hin as (r0 & <- & Hr0).
        rewrite length_map. rewrite Forall_forall in Hf. auto.
Qed.

Lemma sample_frame_valid : Cv2.valid_image Sample.frame0.
Proof.
  exists 2, 2. unfold Cv2.shape, Sample.frame0, Cv2.bgr_ok, Cv2.uint8.
  repeat split; try lia; repeat constructor; simpl; lia.
Qed.

Lemma render_gives_height_lines_of_width_witness :
  (exists lines,
     render (cv := Cv2Ref.ops) Sample.frame0 4 2 ASCII_CHARS = Ok (text_block lines) /\
     Z.of_nat (List.length lines) = 2 /\
     Forall (fun l => len l = 4) lines) /\
  forall w, snd (lift (render (cv := Cv2Ref.ops) Sample.frame0 4 2 ASCII_CHARS) w) = w.
Proof.
  apply (render_gives_height_lines_of_width (cv := Cv2Ref.ops) cv2ref_contract).
  - exact sample_frame_valid.
  - lia.
  - lia.
  - vm_compute. split; discriminate.
Defined.

(** The frame of the sample clip, rendered. *)
Example render_sample :
  render (cv := Cv2Ref.ops) Sample.frame0 4 2 ASCII_CHARS =
  Ok (text_block ["@@  "; "++  "]%string).
Proof. vm_compute. reflexivity. Qed.

(** ** The derived height *)










(** ** Remarks on the shipped ramps and on the sample runs *)

(** For the two ramps the player ships (10 and 70 glyphs) the binary64
    index is the one exact arithmetic gives. *)
Lemma shipped_ramps_match_exact_arithmetic :
  forallb (fun L => match char_index L (len ASCII_CHARS) with
                    | Ok i => i =? exact_glyph_index L (len ASCII_CHARS)
                    | Raise _ => false
                    end) levels = true /\
  forallb (fun L => match char_index L (len DETAILED_CHARS) with
                    | Ok i => i =? exact_glyph_index L (len DETAILED_CHARS)
                    | Raise _ => false
                    end) levels = true /\
  len ASCII_CHARS = 10 /\ len DETAILED_CHARS = 70.
Proof. vm_compute. auto. Qed.

(** For other lengths it can be one less: 155/255 * 51 is 31 exactly, and
    30.999999999999996 in binary64. *)
Lemma exact_arithmetic_differs_at_52 :
  char_index 155 52 = Ok 30 /\ exact_glyph_index 155 52 = 31.
Proof. vm_compute. auto. Qed.

(** [__init__] on the sample world builds the sample player and leaves
    the capture open at position 0. *)
Example init_sample :
  let v := Sample.clip 2 [Sample.frame0; Sample.frame1] in
  fst (init "a.mp4" 4 false (Sample.world v None)) = Ok (Sample.player 2) /\
  w_cap (snd (init "a.mp4" 4 false (Sample.world v None))) =
    w_cap (Sample.playing v None).
Proof. vm_compute. auto. Qed.

(** Started at [-1], the pass shows the counters [-1] and [0]; the first
    percentage is negative. *)
Example negative_start_sample :
  let w := Sample.playing (Sample.clip 2 [Sample.frame0; Sample.frame1]) None in
  let w' := snd (play (cv := Cv2Ref.ops) (Sample.player 2) (-1) w) in
  map fst (shown (new_events w w')) = [-1; 0] /\
  map (fun p => flt (snd p) (S754_zero false)) (shown (new_events w w')) = [true; false] /\
  decoded (new_events w w') = [0%nat; 1%nat].
Proof. vm_compute. auto. Qed.

(** * Further properties of the player *)

(** ** Only ordinary errors are raised *)

Ltac ord_leaf :=
  let He := fresh "He" in
  intros ? He; first [discriminate He | injection He as <-; reflexivity].

Lemma rbind_ordinary {A B : Type} (r : result A) (k : A -> result B) :
  ordinary r -> (forall a, ordinary (k a)) -> ordinary (rbind r k).
Proof.
  unfold ordinary. destruct r as [a | e]; simpl.
  - intros _ H. apply H.
  - intros H _ e0 He0. injection He0 as He0. subst e0. now apply H.
Qed.

Lemma int_to_float_ordinary z : ordinary (int_to_float z).
Proof.
  unfold ordinary, int_to_float. destruct (is_finite _); ord_leaf.
Qed.

Lemma int_truediv_ordinary a b : ordinary (int_truediv a b).
Proof.
  unfold ordinary, int_truediv. destruct (b =? 0); [ord_leaf |].
  destruct (is_finite _); ord_leaf.
Qed.

Lemma int_of_float_ordinary x : ordinary (int_of_float x).
Proof. unfold ordinary. destruct x; ord_leaf. Qed.

Lemma float_mul_int_ordinary x z : ordinary (float_mul_int x z).
Proof.
  apply rbind_ordinary; [apply int_to_float_ordinary | intros f e; discriminate].
Qed.

Lemma str_index_ordinary s i : ordinary (str_index s i).
Proof.
  unfold ordinary, str_index. destruct (_ && _); [| ord_leaf].
  destruct (String.get _ _); ord_leaf.
Qed.

Lemma char_index_ordinary pixel n : ordinary (char_index pixel n).
Proof.
  apply rbind_ordinary; [apply float_mul_int_ordinary | apply int_of_float_ordinary].
Qed.

Lemma row_to_ascii_ordinary chars row acc : ordinary (row_to_ascii chars row acc).
Proof.
  revert acc. induction row as [| pixel rest IH]; intros acc; simpl.
  - intros e; discriminate.
  - apply rbind_ordinary; [apply char_index_ordinary | intros i].
    apply rbind_ordinary; [apply str_index_ordinary | intros c; apply IH].
Qed.

Lemma rows_to_ascii_ordinary chars gray acc : ordinary (rows_to_ascii chars gray acc).
Proof.
  revert acc. induction gray as [| row rest IH]; intros acc; simpl.
  - intros e; discriminate.
  - apply rbind_ordinary; [apply row_to_ascii_ordinary | intros a; apply IH].
Qed.

Lemma call_ordinary {A : Type} (o : option A) : ordinary (Cv2.call o).
Proof. destruct o; ord_leaf. Qed.

Lemma frame_to_ascii_ordinary {cv : Cv2.Ops} self frame :
  ordinary (frame_to_ascii self frame).
Proof.
  apply rbind_ordinary; [apply call_ordinary | intros f].
  apply rbind_ordinary; [apply call_ordinary | intros g; apply rows_to_ascii_ordinary].
Qed.

Lemma progress_percent_ordinary frame_num total :
  ordinary (progress_percent frame_num total).
Proof.
  apply rbind_ordinary; [apply int_truediv_ordinary | intros q; apply float_mul_int_ordinary].
Qed.

Lemma frame_delay_of_ordinary fps : ordinary (frame_delay_of fps).
Proof.
  unfold ordinary, frame_delay_of, float_truediv.
  destruct (flt _ _); [| discriminate]. destruct (is_zero _); ord_leaf.
Qed.

Lemma derive_height_ordinary width oh ow : ordinary (derive_height width oh ow).
Proof.
  apply rbind_ordinary; [| apply int_of_float_ordinary].
  apply rbind_ordinary; [apply int_truediv_ordinary | intros q e; discriminate].
Qed.

Section MoreRuns.

Context {cv : Cv2.Ops}.

Ltac ord_solve :=
  intros ? ?; first
    [ discriminate
    | left; congruence
    | right;
      match goal with
      | H : ?r = Raise ?e0, H' : Raise ?e0 = Raise ?e |- is_Exception ?e = true =>
          injection H' as <-
      end;
      first [ eapply frame_to_ascii_ordinary; eassumption
            | eapply progress_percent_ordinary; eassumption
            | eapply frame_delay_of_ordinary; eassumption ] ].

Lemma play_loop_ordinary fuel self frame_delay frame_num w :
  wp (play_loop fuel self frame_delay frame_num)
     (fun r _ => forall e, r = Raise e ->
                           e = KeyboardInterrupt \/ is_Exception e = true) w.
Proof.
  revert frame_num w.
  induction fuel as [| fuel IH]; intros frame_num w.
  - cbn [play_loop]. apply wp_ret. discriminate.
  - cbn [play_loop].
    wp_run; try solve [ord_solve].
    all: apply IH.
Qed.

Lemma play_body_ordinary self start w :
  wp (play_body self start)
     (fun r _ => forall e, r = Raise e ->
                           e = KeyboardInterrupt \/ is_Exception e = true) w.
Proof.
  unfold play_body.
  wp_run; try solve [ord_solve].
  all: apply wp_run_loop; (eapply wp_mono; [| apply play_loop_ordinary]);
    cbv beta; intros [[|] | e] w' H.
  all: try (apply wp_step; destruct (w_sigint w') as [[| k] |]; wsimpl;
            try apply wp_emit; wsimpl).
  all: try apply wp_ret.
  all: first [ exact H | ord_solve
             | intros e0 He0; injection He0 as <-; apply H; reflexivity ].
Qed.

Lemma play_ordinary self start w :
  wp (play self start) (fun r _ => ordinary r) w.
Proof.
  unfold play. apply wp_try_finally, wp_try_except.
  eapply wp_mono; [| apply play_body_ordinary].
  cbv beta. intros [[] | e] wb H.
  - apply wp_cap_release. intros e; discriminate.
  - destruct (is_KeyboardInterrupt e) eqn:He.
    + apply wp_emit, wp_cap_release. intros e0; discriminate.
    + apply wp_cap_release. intros e0 [= <-].
      destruct (H e eq_refl) as [-> | H']; [discriminate | exact H'].
Qed.

Lemma init_ordinary path width detailed w :
  wp (init path width detailed) (fun r _ => ordinary r) w.
Proof.
  unfold init.
  wp_run; intros e0 He0; try discriminate; try (injection He0 as <-).
  all: first [ reflexivity
             | eapply int_of_float_ordinary; eassumption
             | eapply derive_height_ordinary; eassumption ].
Qed.

End MoreRuns.

Section Tame.

Context {cv : Cv2.Ops}.

Ltac tame_solve :=
  repeat (apply extends_snoc;
          [| first [ reflexivity
                   | unfold tame; cbn [positive_sleep is_error_line negb andb];
                     match goal with H : flt _ _ = true |- _ => rewrite H end;
                     reflexivity ]]);
  apply extends_refl.

Lemma play_loop_tame fuel self frame_delay frame_num w :
  wp (play_loop fuel self frame_delay frame_num)
     (fun _ w' => extends tame (w_trace w) (w_trace w')) w.
Proof.
  revert frame_num w.
  induction fuel as [| fuel IH]; intros frame_num w; [apply extends_refl |].
  cbn [play_loop].
  wp_run; try tame_solve.
  all: eapply wp_mono; [| apply IH]; cbv beta; wsimpl.
  all: intros _ w' H; eapply extends_trans; [| exact H]; tame_solve.
Qed.

Lemma play_body_tame self start w :
  wp (play_body self start)
     (fun _ w' => extends tame (w_trace w) (w_trace w')) w.
Proof.
  unfold play_body.
  wp_run; try solve [tame_solve].
  all: apply wp_run_loop; (eapply wp_mono; [| apply play_loop_tame]);
    cbv beta; wsimpl; intros [[|] | e] w' H.
  all: try (apply wp_step; destruct (w_sigint w') as [[| k] |]; wsimpl;
            try apply wp_emit; wsimpl).
  all: try apply wp_ret.
  all: repeat (apply extends_snoc; [| reflexivity]).
  all: eapply extends_trans; [| exact H]; tame_solve.
Qed.

Lemma play_tame self start w :
  wp (play self start) (fun _ w' => extends tame (w_trace w) (w_trace w')) w.
Proof.
  unfold play. apply wp_try_finally, wp_try_except.
  eapply wp_mono; [| apply play_body_tame].
  cbv beta. intros [[] | e] wb H; [| destruct (is_KeyboardInterrupt e)].
  all: repeat first [apply wp_emit | apply wp_cap_release]; wsimpl.
  all: repeat (apply extends_snoc; [| reflexivity]); exact H.
Qed.

End Tame.


Section MainFailures.

Context {cv : Cv2.Ops}.

(** X4.  Every [time.sleep] of a pass of [play] is given a positive duration:
    the two seconds after the banner, or a positive remainder of the
    frame delay.  A negative or NaN remainder is never slept. *)
Theorem play_sleeps_only_positive_times self start w :
  forallb positive_sleep (new_events w (snd (play self start w))) = true.
Proof.
  pose proof (play_tame self start w) as (new & Ht & Hnew).
  rewrite (new_events_app _ _ _ Ht).
  rewrite forallb_forall in *. intros ev Hin. specialize (Hnew ev Hin).
  unfold tame in Hnew. now apply andb_prop in Hnew.
Qed.


End MainFailures.

(** ** Frames are shown in stream order *)

Lemma skipn_nth_error {A : Type} (l : list A) n x :
  nth_error l n = Some x -> skipn n l = x :: skipn (S n) l.
Proof.
  revert n. induction l as [| a l IH]; intros [| n] H; simpl in *; try discriminate.
  - now injection H as ->.
  - rewrite (IH n H). destruct l; reflexivity.
Qed.

Lemma skipn_nth_none {A : Type} (l : list A) n :
  nth_error l n = None -> skipn n l = [].
Proof. intros H. apply skipn_all2. now apply nth_error_None. Qed.

Section Frames.

Context {cv : Cv2.Ops}.

Lemma play_loop_frames fuel self frame_delay frame_num w :
  wp (play_loop fuel self frame_delay frame_num)
     (fun r w' =>
        exists fs rest ts,
          upcoming (Cv2.cap_pos (w_cap w)) w = fs ++ rest /\
          texts (w_trace w') = texts (w_trace w) ++ ts /\
          map (frame_to_ascii self) fs = map Ok ts /\
          (r = Ok true -> rest = [])) w.
Proof.
  revert frame_num w.
  induction fuel as [| fuel IH]; intros frame_num w.
  - cbn [play_loop]. apply wp_ret. exists [], (upcoming (Cv2.cap_pos (w_cap w)) w), [].
    rewrite app_nil_r. repeat split; auto; discriminate.
  - cbn [play_loop].
    wp_run.
    all: try (eapply wp_mono; [| apply IH]; cbv beta; wsimpl;
              intros r w' (fs & rest & ts & Hu & Ht & Hm & Hr)).
    all: unfold upcoming in *; wsimpl;
      repeat match goal with
        | H : Cv2.cap_video _ = _ |- _ => rewrite H in *
        end.
    all: try match goal with
           | H : nth_error _ _ = Some _ |- _ => rewrite (skipn_nth_error _ _ _ H)
           | H : nth_error _ _ = None |- _ => rewrite (skipn_nth_none _ _ H)
           end.
    all: unfold texts in *; rewrite ?filter_map_app in *;
      simpl filter_map in *; rewrite ?app_nil_r in *.
    all: try solve
      [ eexists [], _, [];
        split; [reflexivity |]; split; [now rewrite app_nil_r |];
        split; [reflexivity |]; first [discriminate | intros _; reflexivity]
      | match goal with
        | H : frame_to_ascii _ ?f = Ok ?a |- _ =>
            eexists [f], _, [a]; cbn [map app]; rewrite H;
            split; [reflexivity |]; split; [reflexivity |];
            split; [reflexivity |]; discriminate
        end ].
    all: match goal with
         | H : frame_to_ascii _ ?f = Ok ?a |- _ =>
             exists (f :: fs), rest, (a :: ts); cbn [map app];
             rewrite H, Hu, Ht, Hm, <- app_assoc; auto
         end.
Qed.

Lemma play_body_frames self start w :
  wp (play_body self start)
     (fun r w' =>
        exists fs rest ts,
          upcoming (first_position start w) w = fs ++ rest /\
          texts (w_trace w') = texts (w_trace w) ++ ts /\
          map (frame_to_ascii self) fs = map Ok ts /\
          (r = Ok tt -> rest = [])) w.
Proof.
  unfold play_body, first_position.
  wp_run.
  all: try (apply wp_run_loop;
            (eapply wp_mono;
             [| apply wp_conj; [apply play_loop_frames | apply play_loop_fuel; lia]]);
            cbv beta; wsimpl;
            intros [[|] | e] w' [(fs & rest & ts & Hu & Ht & Hm & Hr) Hf];
            try congruence;
            try (apply wp_step; destruct (w_sigint w') as [[| k'] |]; wsimpl;
                 try apply wp_emit; wsimpl);
            exists fs, rest, ts).
  all: unfold upcoming in *; wsimpl.
  all: unfold texts in *; rewrite ?filter_map_app in *;
    simpl filter_map in *; rewrite ?app_nil_r in *.
  all: try solve
    [ eexists [], _, [];
      split; [reflexivity |]; split; [now rewrite app_nil_r |];
      split; [reflexivity |]; discriminate ].
  all: split; [assumption |]; split; [assumption |]; split; [assumption |];
    first [discriminate | intros _; apply Hr; reflexivity].
Qed.

Lemma play_frames self start w :
  wp (play self start)
     (fun _ w' =>
        exists fs rest,
          upcoming (first_position start w) w = fs ++ rest /\
          map (frame_to_ascii self) fs = map Ok (texts (new_events w w')) /\
          (statuses (new_events w w') = [Complete] -> rest = [])) w.
Proof.
  unfold play. apply wp_try_finally, wp_try_except.
  eapply wp_mono;
    [| apply wp_conj; [apply play_body_frames | apply play_body_trace]].
  cbv beta. intros rb wb [(fs & rest & ts & Hu & Ht & Hm & Hr) Htr].
  destruct rb as [[] | e]; [| destruct (is_KeyboardInterrupt e)].
  all: repeat first [apply wp_emit | apply wp_cap_release]; wsimpl.
  all: exists fs, rest; (split; [exact Hu |]).
  - destruct Htr as (t' & (new & -> & Hnew) & Htb).
    erewrite new_events_app by (wsimpl; rewrite Htb, <- !app_assoc; reflexivity).
    rewrite Htb in Ht. unfold texts in *. rewrite !filter_map_app in *.
    simpl filter_map in *. rewrite <- app_assoc in Ht.
    apply app_inv_head in Ht. rewrite app_nil_r in *. rewrite Ht.
    split; [exact Hm | intros _; now apply Hr].
  - destruct Htr as (new & Htb & Hnew).
    erewrite new_events_app by (wsimpl; rewrite Htb, <- !app_assoc; reflexivity).
    rewrite Htb in Ht. unfold texts, statuses in *. rewrite !filter_map_app in *.
    apply app_inv_head in Ht. simpl filter_map. rewrite app_nil_r, Ht.
    split; [exact Hm |].
    rewrite (filter_map_nothing _ _ _ (body_event_no_status start) Hnew).
    discriminate.
  - destruct Htr as (new & Htb & Hnew).
    erewrite new_events_app by (wsimpl; rewrite Htb, <- !app_assoc; reflexivity).
    rewrite Htb in Ht. unfold texts, statuses in *. rewrite !filter_map_app in *.
    apply app_inv_head in Ht. simpl filter_map. rewrite app_nil_r, Ht.
    split; [exact Hm |].
    rewrite (filter_map_nothing _ _ _ (body_event_no_status start) Hnew).
    discriminate.
Qed.


End Frames.

(** ** Seeking, and a total of zero *)


Section Seeking.

Context {cv : Cv2.Ops}.




End Seeking.

(** ** Failures of the construction *)

Section Construction.

Context {cv : Cv2.Ops}.

(** X1.  When the path names a file that OpenCV cannot open, [__init__]
    raises [ValueError("Cannot open video file: <path>")]; [main] prints
    it after [Error: ] and exits with status 1.  Nothing is played: the
    only other effect is the attempt to open the file. *)
Theorem unopenable_file_is_reported args w :
  env_isfile w (arg_video args) = true ->
  env_decode w (arg_video args) = None ->
  let run := main args w in
  fst run = Raise (SystemExit 1) /\
  new_events w (snd run) =
    [EOpen (arg_video args);
     EPrint [Lit "Error: ";
             Exn (ValueError ("Cannot open video file: " ++ arg_video args))] nl].
Proof.
  intros Hfile Hdecode. cbv zeta.
  assert (H : wp (main args)
                (fun r w' =>
                   r = Raise (SystemExit 1) /\
                   new_events w w' =
                     [EOpen (arg_video args);
                      EPrint [Lit "Error: ";
                              Exn (ValueError ("Cannot open video file: "
                                               ++ arg_video args))] nl]) w);
    [| exact H].
  unfold main, init.
  apply wp_bind, wp_os_path_isfile. rewrite Hfile. cbn [negb].
  apply wp_try_except, wp_bind, wp_bind, wp_VideoCapture; wsimpl.
  apply wp_bind, wp_cap_isOpened; wsimpl. rewrite Hdecode. cbn [negb].
  apply wp_raise. cbn [is_Exception].
  apply wp_bind, wp_emit, wp_raise; wsimpl.
  split; [reflexivity |].
  apply new_events_app. now rewrite <- app_assoc.
Qed.

(** X2.  When the source reports a frame width of zero, the height
    computation of [__init__] divides by zero; [main] prints
    [Error: ] followed by the [ZeroDivisionError] and exits with status 1
    without playing anything. *)
Theorem zero_width_source_is_reported args w v n h s :
  env_isfile w (arg_video args) = true ->
  env_decode w (arg_video args) = Some v ->
  int_of_float (Cv2.v_frame_count v) = Ok n ->
  Cv2.v_frame_width v = S754_zero s ->
  int_of_float (Cv2.v_frame_height v) = Ok h ->
  let run := main args w in
  fst run = Raise (SystemExit 1) /\
  new_events w (snd run) =
    [EOpen (arg_video args); EPrint [Lit "Error: "; Exn ZeroDivisionError] nl].
Proof.
  intros Hfile Hdecode Hcount Hwidth Hheight. cbv zeta.
  assert (H : wp (main args)
                (fun r w' =>
                   r = Raise (SystemExit 1) /\
                   new_events w w' =
                     [EOpen (arg_video args);
                      EPrint [Lit "Error: "; Exn ZeroDivisionError] nl]) w);
    [| exact H].
  unfold main, init.
  apply wp_bind, wp_os_path_isfile. rewrite Hfile. cbn [negb].
  apply wp_try_except, wp_bind, wp_bind, wp_VideoCapture; wsimpl.
  apply wp_bind, wp_cap_isOpened; wsimpl. rewrite Hdecode. cbn [negb].
  apply wp_bind, wp_cap_get; wsimpl. rewrite ?Hdecode.
  apply wp_bind, wp_bind, wp_cap_get; wsimpl. rewrite ?Hdecode.
  apply wp_lift. rewrite Hcount.
  apply wp_bind, wp_bind, wp_cap_get; wsimpl. rewrite ?Hdecode.
  apply wp_lift. rewrite Hwidth. cbn [int_of_float].
  apply wp_bind, wp_bind, wp_cap_get; wsimpl. rewrite ?Hdecode.
  apply wp_lift. rewrite Hheight.
  apply wp_bind, wp_lift.
  change (derive_height (arg_width args) h 0) with (@Raise Z ZeroDivisionError).
  cbn [is_Exception].
  apply wp_bind, wp_emit, wp_raise; wsimpl.
  split; [reflexivity |].
  apply new_events_app. now rewrite <- app_assoc.
Qed.

End Construction.

(** ** The ramp of a built player *)

Lemma str_get_in n s c : String.get n s = Some c -> In c (list_ascii_of_string s).
Proof.
  revert n. induction s as [| a s IH]; intros n H; simpl in *; [discriminate |].
  destruct n as [| n]; [left; congruence | right; eauto].
Qed.

Lemma str_index_in s i c : str_index s i = Ok c -> In c (list_ascii_of_string s).
Proof.
  unfold str_index. destruct (_ && _); [| discriminate].
  destruct (String.get _ s) as [c' |] eqn:Hget; [| discriminate].
  intros [= <-]. eapply str_get_in, Hget.
Qed.

Lemma row_to_ascii_glyphs chars row acc :
  Forall Cv2.uint8 row -> 1 <= len chars <= 2 ^ 53 + 1 ->
  exists l, row_to_ascii chars row acc = Ok (String.append acc l) /\
            String.length l = List.length row /\
            drawn_with chars l.
Proof.
  intros Hrow Hn. revert acc.
  induction Hrow as [| pixel rest Hp _ IH]; intros acc.
  - exists EmptyString. simpl. rewrite str_append_nil_r.
    repeat split; constructor.
  - cbn [row_to_ascii].
    destruct (char_index_in_range pixel (len chars) Hp Hn) as (i & -> & Hi).
    cbn [rbind].
    destruct (str_index_ok chars i ltac:(lia)) as (c & Hc). rewrite Hc. cbn [rbind].
    destruct (IH (String.append acc (String c EmptyString))) as (l & -> & Hl & Hg).
    exists (String c l). rewrite str_append_assoc. simpl.
    repeat split; [now rewrite Hl |].
    constructor; [eapply str_index_in, Hc | exact Hg].
Qed.

Lemma rows_to_ascii_glyphs chars gray cols acc :
  Forall (Forall Cv2.uint8) gray ->
  Forall (fun row => Z.of_nat (List.length row) = cols) gray ->
  1 <= len chars <= 2 ^ 53 + 1 ->
  exists lines,
    rows_to_ascii chars gray acc = Ok (String.append acc (text_block lines)) /\
    List.length lines = List.length gray /\
    Forall (fun l => len l = cols /\ drawn_with chars l) lines.
Proof.
  intros Hpix Hshape Hn. revert acc.
  induction gray as [| row rest IH]; intros acc.
  - exists []. simpl. rewrite str_append_nil_r. auto.
  - inversion Hpix as [| ? ? Hrow Hrest]; subst.
    inversion Hshape as [| ? ? Hlen Hlens]; subst.
    cbn [rows_to_ascii].
    destruct (row_to_ascii_glyphs chars row acc Hrow Hn) as (l & -> & Hl & Hg).
    cbn [rbind].
    destruct (IH Hrest Hlens (String.append (String.append acc l) nl))
      as (lines & -> & Hc & Hf).
    exists (l :: lines). cbn [text_block List.length].
    rewrite !str_append_assoc. repeat split; [congruence |].
    constructor; [split; [unfold len; lia | exact Hg] | exact Hf].
Qed.

Lemma init_fields {cv : Cv2.Ops} path width_ detailed_ w :
  wp (init path width_ detailed_)
     (fun r _ => forall self, r = Ok self ->
        video_path self = path /\ width self = width_ /\
        detailed self = detailed_ /\
        ascii_chars self = (if detailed_ then DETAILED_CHARS else ASCII_CHARS)) w.
Proof.
  unfold init. wp_run; intros self Hs; try discriminate.
  injection Hs as <-. auto.
Qed.

Section BuiltPlayer.

Context {cv : Cv2.Ops}.
Hypothesis contract : Cv2.Contract cv.

Lemma render_glyphs frame width height ramp :
  Cv2.valid_image frame -> 0 < width -> 0 < height ->
  1 <= len ramp <= 2 ^ 53 + 1 ->
  exists lines,
    render frame width height ramp = Ok (text_block lines) /\
    Z.of_nat (List.length lines) = height /\
    Forall (fun l => len l = width /\ drawn_with ramp l) lines.
Proof.
  intros Hframe Hw Hh Hramp.
  destruct (Cv2.resize_ok cv contract frame width height Hframe Hw Hh)
    as (out & Hres & Hout & Hsh).
  destruct (Cv2.cvtColor_ok cv contract out Hout) as (g & Hcvt & Hpix & Hshape).
  destruct (Hshape height width Hsh) as [Hrows Hcols].
  unfold render. rewrite Hres. cbn [Cv2.call rbind]. rewrite Hcvt. cbn [Cv2.call rbind].
  destruct (rows_to_ascii_glyphs ramp g width EmptyString Hpix Hcols Hramp)
    as (lines & Hr & Hlen & Hf).
  exists lines. rewrite Hr. simpl. repeat split; [congruence | exact Hf].
Qed.

(** X8.  A player that [__init__] has built draws with the ramp its
    [detailed] flag selects -- the 70-glyph ramp when set, the 10-glyph
    ramp otherwise -- and, when its width and derived height are
    positive, renders every valid frame without error: [height] lines of
    [width] characters, each character a glyph of that ramp. *)
Theorem built_player_renders_with_its_ramp path width_ detailed_ w self frame :
  fst (init path width_ detailed_ w) = Ok self ->
  0 < width_ -> 0 < height self -> Cv2.valid_image frame ->
  ascii_chars self = (if detailed_ then DETAILED_CHARS else ASCII_CHARS) /\
  len (ascii_chars self) = (if detailed_ then 70 else 10) /\
  exists lines,
    frame_to_ascii self frame = Ok (text_block lines) /\
    Z.of_nat (List.length lines) = height self /\
    Forall (fun l => len l = width_ /\ drawn_with (ascii_chars self) l) lines.
Proof.
  intros Hinit Hw Hh Hframe.
  destruct (init_fields path width_ detailed_ w self Hinit) as (_ & Hwidth & _ & Hramp).
  assert (Hlen : len (ascii_chars self) = (if detailed_ then 70 else 10))
    by (rewrite Hramp; destruct detailed_; reflexivity).
  split; [exact Hramp |]. split; [exact Hlen |].
  unfold frame_to_ascii. rewrite Hwidth.
  apply render_glyphs; try assumption.
  rewrite Hlen. destruct detailed_; simpl; lia.
Qed.

End BuiltPlayer.

(** ** An interrupt only cuts a pass short *)

Lemma steady_bind {A B : Type} (m : M A) (k : A -> M B) :
  steady m -> (forall a, steady (k a)) -> steady (bind m k).
Proof.
  intros [Hm Gm] Hk. split.
  - intros w. unfold bind.
    destruct (Hm w) as [[Hr (rest & Ht)] | He].
    + left. destruct (m w) as [r w'] eqn:Hmw. cbn [fst snd] in *. subst r.
      split; [reflexivity |].
      destruct (m (unsig w)) as [[a | e] w0]; cbn [snd] in *.
      * destruct (proj2 (Hk a) w0) as (more & Hmore).
        exists (rest ++ more). now rewrite Hmore, Ht, app_assoc.
      * exists rest. exact Ht.
    + rewrite He. destruct (m w) as [[a | e] w'] eqn:Hmw; cbn [fst snd].
      * apply (proj1 (Hk a) w').
      * right. reflexivity.
  - intros w. unfold bind. destruct (Gm w) as (more & Hmore).
    destruct (m w) as [[a | e] w']; cbn [snd] in *.
    + destruct (proj2 (Hk a) w') as (more' & Hmore').
      exists (more ++ more'). now rewrite Hmore', Hmore, app_assoc.
    + exists more. exact Hmore.
Qed.

Lemma steady_tick : steady tick.
Proof.
  split; intros w; unfold tick, unsig.
  - destruct (w_sigint w) as [[| k] |] eqn:Hs; cbn [fst snd w_sigint set_sigint].
    + left. split; [reflexivity |]. exists []. now rewrite app_nil_r.
    + right. reflexivity.
    + right. reflexivity.
  - exists []. rewrite app_nil_r. destruct (w_sigint w) as [[| k] |]; reflexivity.
Qed.

Lemma steady_step {A : Type} (m : M A) : steady m -> steady (step m).
Proof. intros H. apply steady_bind; [apply steady_tick | intros _; exact H]. Qed.

Lemma steady_ret {A : Type} (a : A) : steady (ret a).
Proof.
  split; intros w; [right; reflexivity | exists []; now rewrite app_nil_r].
Qed.

Lemma steady_lift {A : Type} (r : result A) : steady (lift r).
Proof.
  split; intros w; [right; reflexivity | exists []; now rewrite app_nil_r].
Qed.

Lemma steady_emit ev : steady (emit ev).
Proof. split; intros w; [right; reflexivity | exists [ev]; reflexivity]. Qed.

Lemma steady_time_time : steady time_time.
Proof.
  split; intros w; [right; reflexivity | exists []; now rewrite app_nil_r].
Qed.

Lemma steady_cap_read : steady cap_read.
Proof.
  split; intros w; unfold cap_read, unsig; wsimpl.
  - right. destruct (Cv2.cap_video (w_cap w)) as [v |]; [| reflexivity].
    destruct (nth_error _ _); reflexivity.
  - destruct (Cv2.cap_video (w_cap w)) as [v |]; [| eexists; reflexivity].
    destruct (nth_error _ _); eexists; reflexivity.
Qed.

Lemma steady_cap_set_pos_frames frame : steady (cap_set_pos_frames frame).
Proof. split; intros w; [right; reflexivity | exists [ESeek frame]; reflexivity]. Qed.

Ltac steady_run :=
  repeat first
    [ apply steady_step
    | apply steady_tick
    | apply steady_ret
    | apply steady_lift
    | apply steady_emit
    | apply steady_time_time
    | apply steady_cap_read
    | apply steady_cap_set_pos_frames
    | apply steady_bind; [| intros ?]
    | match goal with
      | |- steady (if ?b then _ else _) => destruct b
      | |- steady (match ?x with _ => _ end) => destruct x
      end ].

Section Interrupts.

Context {cv : Cv2.Ops}.

Lemma play_loop_steady fuel self frame_delay frame_num :
  steady (play_loop fuel self frame_delay frame_num).
Proof.
  revert frame_num. induction fuel as [| fuel IH]; intros frame_num.
  - apply steady_ret.
  - cbn [play_loop]. steady_run. apply IH.
Qed.

Lemma run_loop_steady self frame_delay frame_num :
  steady (run_loop self frame_delay frame_num).
Proof.
  split; intros w.
  - exact (proj1 (play_loop_steady (S (frames_left w)) self frame_delay frame_num) w).
  - exact (proj2 (play_loop_steady (S (frames_left w)) self frame_delay frame_num) w).
Qed.

Lemma play_body_steady self start : steady (play_body self start).
Proof.
  unfold play_body. unfold print, time_sleep, clear_screen.
  steady_run; apply run_loop_steady.
Qed.

(** X9.  An interrupt only cuts a pass short.  Compare the pass with an
    interrupt pending after [k] statements to the pass on the same world
    without interrupt: either they do the same (the interrupt was not
    reached), or the interrupted pass did a prefix of what the other
    does, followed by the stop message and the release. *)
Theorem interrupt_only_truncates self start w k :
  let wi := set_sigint (Some k) w in
  let wu := set_sigint None w in
  let ni := new_events wi (snd (play self start wi)) in
  let nu := new_events wu (snd (play self start wu)) in
  ni = nu \/
  exists t rest, ni = t ++ [EPrint msg_stopped nl; ERelease] /\ nu = t ++ rest.
Proof.
  cbv zeta.
  pose proof (play_body_steady self start) as [Ht Hg].
  specialize (Ht (set_sigint (Some k) w)).
  destruct (Hg (set_sigint (Some k) w)) as (t & Htr).
  change (unsig (set_sigint (Some k) w)) with (set_sigint None w) in Ht.
  unfold play, try_finally, try_except, cleanup, cap_release, print, bind, emit.
  destruct (play_body self start (set_sigint (Some k) w)) as [ri wi] eqn:Hi.
  destruct (play_body self start (set_sigint None w)) as [ru wu] eqn:Hu.
  cbn [fst snd] in *.
  destruct Ht as [[-> (rest & Hrest)] | He].
  - right. exists t. cbn [is_KeyboardInterrupt]. wsimpl.
    destruct ru as [[] | e]; [| destruct (is_KeyboardInterrupt e)]; wsimpl.
    all: eexists; split;
      [ apply new_events_app; wsimpl; rewrite Htr, <- !app_assoc; reflexivity
      | apply new_events_app; wsimpl; rewrite Hrest, Htr, <- !app_assoc; reflexivity ].
  - left. injection He as -> ->.
    destruct ri as [[] | e]; [| destruct (is_KeyboardInterrupt e)]; wsimpl.
    all: unfold new_events; wsimpl; reflexivity.
Qed.

End Interrupts.

(** ** The ways out of a pass, and a second pass *)

Section Passes.

Context {cv : Cv2.Ops}.

(** X19.  A pass of [play] prints at most one status line.  It returns
    normally after exactly one -- the stop message when the interrupt was
    delivered, the completion message otherwise -- and prints none
    exactly when an error leaves the loop: the exception, an instance of
    [Exception], then reaches the caller once the capture is released. *)
Theorem play_ends_with_one_status_or_an_error self start w :
  let r := fst (play self start w) in
  let w' := snd (play self start w) in
  (delivered w w' /\ r = Ok tt /\ statuses (new_events w w') = [Stopped]) \/
  (~ delivered w w' /\ r = Ok tt /\ statuses (new_events w w') = [Complete]) \/
  (~ delivered w w' /\ statuses (new_events w w') = [] /\
   exists e, r = Raise e /\ is_Exception e = true /\
             last (new_events w w') EClear = ERelease).
Proof.
  cbv zeta.
  pose proof (play_summary self start w) as H.
  pose proof (play_ordinary self start w) as Ho.
  unfold wp in H, Ho.
  destruct H as (t' & (new & -> & Hnew) & Hcases).
  pose proof (statuses_body _ _ Hnew) as Hst.
  destruct Hcases as [(Hd & Hr & Ht) | [(Hd & Hr & Ht) | (Hd & (e & Hr & _) & Ht & _)]];
    rewrite <- app_assoc in Ht; rewrite (new_events_app _ _ _ Ht).
  - left. repeat split; try assumption; try apply Hd.
    unfold statuses in *. now rewrite filter_map_app, Hst.
  - right; left. repeat split; try assumption.
    unfold statuses in *. now rewrite filter_map_app, Hst.
  - right; right. repeat split; try assumption.
    + unfold statuses in *. now rewrite filter_map_app, Hst.
    + exists e. split; [exact Hr |]. split; [now apply Ho |]. apply last_last.
Qed.

(** X20.  A player plays once: [play] releases the capture, so a second pass
    on the same player decodes no frame and shows none, whatever its
    start frame. *)
Theorem second_pass_shows_nothing self start start' w :
  let w1 := snd (play self start w) in
  let new := new_events w1 (snd (play self start' w1)) in
  decoded new = [] /\ shown new = [] /\ texts new = [].
Proof.
  cbv zeta.
  pose proof (play_closes self start w) as Hc. unfold wp in Hc.
  set (w1 := snd (play self start w)) in *.
  pose proof (play_counters self start' w1) as H.
  pose proof (play_frames self start' w1) as Hf.
  pose proof (play_summary self start' w1) as Hs.
  unfold wp in H, Hf, Hs.
  destruct H as (k & j & sh & Hd & Hsh & Hm & _ & Hkj & Hk).
  destruct Hf as (fs & rest & Hu & Hmap & _).
  unfold frames_from in Hk. unfold upcoming in Hu. rewrite Hc in Hk, Hu.
  assert (k = 0%nat) by lia. assert (j = 0%nat) by lia. subst k j.
  destruct sh; [| discriminate Hm].
  destruct fs; [| discriminate Hu].
  destruct Hs as (t' & (new & -> & _) & Hcases).
  assert (Ht : exists new', w_trace (snd (play self start' w1)) = w_trace w1 ++ new').
  { destruct Hcases as [(_ & _ & Ht) | [(_ & _ & Ht) | (_ & _ & Ht & _)]];
      rewrite Ht, <- app_assoc; eauto. }
  destruct Ht as (new' & Ht).
  rewrite (new_events_app _ _ _ Ht) in *.
  rewrite Ht in Hd, Hsh. unfold decoded, shown in *.
  rewrite filter_map_app in Hd. rewrite filter_map_app in Hsh.
  apply app_inv_head in Hd. apply app_inv_head in Hsh.
  cbn [seq] in Hd.
  repeat split; try assumption.
  destruct (texts new'); [reflexivity | discriminate Hmap].
Qed.

End Passes.

(** ** The theorems above, on concrete inputs *)



Lemma unopenable_file_is_reported_witness :
  let run := main (cv := Cv2Ref.ops) (Sample.args "b.mp4" 120 0) Cases.unopenable in
  fst run = Raise (SystemExit 1) /\
  new_events Cases.unopenable (snd run) =
    [EOpen "b.mp4";
     EPrint [Lit "Error: "; Exn (ValueError ("Cannot open video file: " ++ "b.mp4"))] nl].
Proof.
  apply (unopenable_file_is_reported (cv := Cv2Ref.ops)
           (Sample.args "b.mp4" 120 0) Cases.unopenable);
    reflexivity.
Defined.

Lemma zero_width_source_is_reported_witness :
  let w := Sample.world Cases.flat_clip None in
  let run := main (cv := Cv2Ref.ops) (Sample.args "a.mp4" 120 0) w in
  fst run = Raise (SystemExit 1) /\
  new_events w (snd run) =
    [EOpen "a.mp4"; EPrint [Lit "Error: "; Exn ZeroDivisionError] nl].
Proof.
  intros w.
  apply (zero_width_source_is_reported (cv := Cv2Ref.ops)
           (Sample.args "a.mp4" 120 0) w Cases.flat_clip 2 2 false);
    reflexivity.
Defined.

Lemma built_player_renders_with_its_ramp_witness :
  let self := Sample.player 2 in
  ascii_chars self = ASCII_CHARS /\
  len (ascii_chars self) = 10 /\
  exists lines,
    frame_to_ascii (cv := Cv2Ref.ops) self Sample.frame0 = Ok (text_block lines) /\
    Z.of_nat (List.length lines) = height self /\
    Forall (fun l => len l = 4 /\ drawn_with (ascii_chars self) l) lines.
Proof.
  intros self.
  apply (built_player_renders_with_its_ramp (cv := Cv2Ref.ops) cv2ref_contract
           "a.mp4" 4 false
           (Sample.world (Sample.clip 2 [Sample.frame0; Sample.frame1]) None)
           self Sample.frame0).
  - vm_compute. reflexivity.
  - lia.
  - simpl. lia.
  - exact sample_frame_valid.
Defined.

(** * The installer *)

(** ** Rules for [Installer.effect] *)

Section InstallerRules.

Import Installer.
Local Open Scope inst_scope.

Lemma extend_nil h : extend h [] = h.
Proof. destruct h. unfold extend. cbn. now rewrite app_nil_r. Qed.

Lemma extend_extend h a b : extend (extend h a) b = extend h (a ++ b).
Proof. unfold extend. cbn. now rewrite app_assoc. Qed.

Lemma new_events_extend h new : new_events h (extend h new) = new.
Proof. unfold new_events. cbn. apply skipn_length_app. Qed.

Context {A B : Type}.

(** What [effect] says of the run itself. *)
Lemma effect_run (m : I A) h P :
  effect m h P -> P (fst (m h)) (new_events h (snd (m h))).
Proof. intros (new & -> & HP). now rewrite new_events_extend. Qed.

Lemma effect_mono (m : I A) h (P P' : outcome A -> list Event -> Prop) :
  (forall r new, P r new -> P' r new) -> effect m h P -> effect m h P'.
Proof. intros HP (new & Hs & Hr). exists new. auto. Qed.

Lemma effect_ret (a : A) h (P : outcome A -> list Event -> Prop) :
  P (Done a) [] -> effect (ret a) h P.
Proof. intros HP. exists []. now rewrite extend_nil. Qed.

Lemma effect_raise (e : exn) h (P : outcome A -> list Event -> Prop) :
  P (Raised e) [] -> effect (raise e) h P.
Proof. intros HP. exists []. now rewrite extend_nil. Qed.

Lemma effect_lift (r : outcome A) h (P : outcome A -> list Event -> Prop) :
  P r [] -> effect (lift r) h P.
Proof. intros HP. exists []. now rewrite extend_nil. Qed.

Lemma effect_ask (f : Host -> A) h (P : outcome A -> list Event -> Prop) :
  P (Done (f h)) [] -> effect (ask f) h P.
Proof. intros HP. exists []. now rewrite extend_nil. Qed.

Lemma effect_bind (m : I A) (k : A -> I B) h (P : outcome B -> list Event -> Prop) :
  effect m h (fun r new =>
                match r with
                | Done a => effect (k a) (extend h new)
                                   (fun r' new' => P r' (new ++ new'))
                | Raised e => P (Raised e) new
                end) ->
  effect (bind m k) h P.
Proof.
  intros (new & Hs & Hr). unfold effect, bind in *.
  destruct (m h) as [[a | e] h']; cbn [fst snd] in *; subst h'.
  - destruct Hr as (new' & Hs' & Hr'). exists (new ++ new').
    now rewrite Hs', extend_extend.
  - exists new. auto.
Qed.

Lemma effect_try_except (body : I A) (catches : exn -> bool)
    (handler : exn -> I A) h
    (P : outcome A -> list Event -> Prop) :
  effect body h (fun r new =>
                   match r with
                   | Raised e =>
                       if catches e
                       then effect (handler e) (extend h new)
                                   (fun r' new' => P r' (new ++ new'))
                       else P (Raised e) new
                   | Done a => P (Done a) new
                   end) ->
  effect (try_except body catches handler) h P.
Proof.
  intros (new & Hs & Hr). unfold effect, try_except in *.
  destruct (body h) as [[a | e] h']; cbn [fst snd] in *; subst h'.
  - exists new. auto.
  - destruct (catches e).
    + destruct Hr as (new' & Hs' & Hr'). exists (new ++ new').
      now rewrite Hs', extend_extend.
    + exists new. auto.
Qed.

Lemma effect_try_except2 (body : I A) (c1 : exn -> bool) (h1 : exn -> I A)
    (c2 : exn -> bool) (h2 : exn -> I A) h
    (P : outcome A -> list Event -> Prop) :
  effect body h (fun r new =>
                   match r with
                   | Raised e =>
                       if c1 e
                       then effect (h1 e) (extend h new)
                                   (fun r' new' => P r' (new ++ new'))
                       else if c2 e
                       then effect (h2 e) (extend h new)
                                   (fun r' new' => P r' (new ++ new'))
                       else P (Raised e) new
                   | Done a => P (Done a) new
                   end) ->
  effect (try_except2 body c1 h1 c2 h2) h P.
Proof.
  intros (new & Hs & Hr). unfold effect, try_except2 in *.
  destruct (body h) as [[a | e] h']; cbn [fst snd] in *; subst h'.
  - exists new. auto.
  - destruct (c1 e); [| destruct (c2 e)].
    + destruct Hr as (new' & Hs' & Hr'). exists (new ++ new').
      now rewrite Hs', extend_extend.
    + destruct Hr as (new' & Hs' & Hr'). exists (new ++ new').
      now rewrite Hs', extend_extend.
    + exists new. auto.
Qed.

End InstallerRules.

Section InstallerSteps.

Import Installer.

Lemma effect_print text h (P : outcome unit -> list Event -> Prop) :
  P (Done tt) [EPrint text] -> effect (print text) h P.
Proof. intros HP. exists [EPrint text]. auto. Qed.

Lemma effect_attempt ev h (P : outcome unit -> list Event -> Prop) :
  match fails h ev with
  | Some e => P (Raised e) [ev]
  | None => P (Done tt) [ev]
  end ->
  effect (attempt ev) h P.
Proof.
  intros HP. exists [ev]. unfold attempt. destruct (fails h ev); auto.
Qed.

Lemma effect_import what h (P : outcome unit -> list Event -> Prop) :
  match what h with
  | Some e => P (Raised e) []
  | None => P (Done tt) []
  end ->
  effect (import_ what) h P.
Proof.
  intros HP. exists []. rewrite extend_nil. unfold import_.
  destruct (what h); auto.
Qed.

Lemma effect_open_read p h (P : outcome string -> list Event -> Prop) :
  P (read_text h p) [] -> effect (open_read p) h P.
Proof. intros HP. exists []. now rewrite extend_nil. Qed.

End InstallerSteps.

Ltac esimpl :=
  cbn [fst snd app
       Installer.extend Installer.trace Installer.fails
       Installer.sys_version_info Installer.sys_version Installer.sys_executable
       Installer.os_name_nt Installer.sys_platform_linux Installer.import_cv2
       Installer.path_exists Installer.read_text
       Installer.is_KeyboardInterrupt Installer.is_Exception
       Installer.is_ImportError Installer.is_FileNotFoundError
       negb andb orb] in *.

(** What is known of the host is used wherever it is asked again. *)
Ltac erew :=
  repeat match goal with
    | H : Installer.os_name_nt ?h = _ |- context [Installer.os_name_nt ?h] =>
        rewrite H
    | H : Installer.sys_platform_linux ?h = _
      |- context [Installer.sys_platform_linux ?h] => rewrite H
    | H : Installer.path_exists ?h ?p = _
      |- context [Installer.path_exists ?h ?p] => rewrite H
    | H : Installer.fails ?h ?ev = _ |- context [Installer.fails ?h ?ev] =>
        rewrite H
    | H : Installer.read_text ?h ?p = _ |- context [Installer.read_text ?h ?p] =>
        rewrite H
    | H : Installer.import_cv2 ?h = _ |- context [Installer.import_cv2 ?h] =>
        rewrite H
    | H : forall ev, Installer.fails ?h ev = None
      |- context [Installer.fails ?h ?ev] => rewrite (H ev)
    end.

Ltac eff_head :=
  lazymatch goal with
  | |- Installer.effect (Installer.print _) _ _ => apply effect_print
  | |- Installer.effect (Installer.mkdir _) _ _ => apply effect_attempt
  | |- Installer.effect (Installer.write_text _ _) _ _ => apply effect_attempt
  | |- Installer.effect (Installer.chmod _ _) _ _ => apply effect_attempt
  | |- Installer.effect (Installer.check_call _) _ _ => apply effect_attempt
  | |- Installer.effect (Installer.attempt _) _ _ => apply effect_attempt
  | |- Installer.effect (Installer.import_ _) _ _ => apply effect_import
  | |- Installer.effect (Installer.open_read _) _ _ => apply effect_open_read
  | |- Installer.effect (Installer.ask _) _ _ => apply effect_ask
  | |- Installer.effect (Installer.lift _) _ _ => apply effect_lift
  | |- Installer.effect (Installer.ret _) _ _ => apply effect_ret
  | |- Installer.effect (Installer.raise _) _ _ => apply effect_raise
  | |- Installer.effect (Installer.sys_exit _) _ _ => apply effect_raise
  | |- Installer.effect (Installer.try_except _ _ _) _ _ => apply effect_try_except
  | |- Installer.effect (Installer.try_except2 _ _ _ _ _) _ _ =>
      apply effect_try_except2
  | |- Installer.effect (Installer.bind _ _) _ _ => apply effect_bind
  | |- Installer.effect (if ?b then _ else _) _ _ => destruct b eqn:?
  | |- Installer.effect (match ?x with _ => _ end) _ _ => destruct x eqn:?
  | |- match ?x with _ => _ end => destruct x eqn:?
  | |- if ?x then _ else _ => destruct x eqn:?
  end.

Ltac eff_run := repeat (esimpl; cbv beta iota; erew; eff_head); esimpl; cbv beta iota.

Section InstallerFacts.

Import Installer.
Local Open Scope inst_scope.

Variable PLAYER_CODE : string.

Lemma operations_app a b : operations (a ++ b) = operations a ++ operations b.
Proof. unfold operations. apply filter_app. Qed.


(** *** What each function does when nothing fails *)

Lemma print_header_spec h :
  effect print_header h (fun r new => r = Done tt /\ operations new = []).
Proof. unfold print_header. eff_run. split; reflexivity. Qed.

Lemma print_usage_spec h :
  effect print_usage h (fun r new => r = Done tt /\ operations new = []).
Proof. unfold print_usage. eff_run. split; reflexivity. Qed.

Lemma check_python_spec h word :
  tuple_lt (sys_version_info h) [3; 6] = false ->
  first_word (sys_version h) = Done word ->
  effect check_python h (fun r new => r = Done tt /\ operations new = []).
Proof.
  intros Hv Hw. unfold check_python. eff_run; try discriminate.
  split; reflexivity.
Qed.

Lemma install_dependencies_spec h :
  effect install_dependencies h
    (fun r new =>
       match import_cv2 h with
       | None => r = Done tt /\ operations new = []
       | Some e =>
           if is_ImportError e then
             operations new = [pip_install h] /\
             r = match fails h (pip_install h) with
                 | Some e' => Raised e'
                 | None => Done tt
                 end
           else r = Raised e /\ operations new = []
       end).
Proof.
  unfold install_dependencies, pip_install. eff_run.
  all: split; reflexivity.
Qed.


Lemma get_install_location_spec h :
  effect get_install_location h
    (fun r new =>
       new = [] /\
       r = Done (if os_name_nt h
                 then (["AppData"; "Local"; "ASCIIPlayer"]%string,
                       ["AppData"; "Local"; "ASCIIPlayer"]%string)
                 else ([".local"; "share"; "ascii-player"]%string,
                       [".local"; "bin"]%string))).
Proof.
  unfold get_install_location, Path_home, join. eff_run; split; reflexivity.
Qed.

Lemma create_application_spec h install_dir bin_dir :
  (forall ev, fails h ev = None) ->
  effect (create_application PLAYER_CODE install_dir bin_dir) h
    (fun r new =>
       r = Done bin_dir /\
       operations new =
         [EMkdir install_dir; EMkdir bin_dir;
          EWrite (join install_dir "ascii_player.py") [Lit PLAYER_CODE];
          EChmod (join install_dir "ascii_player.py") 493] ++
         (if os_name_nt h
          then [EWrite (join bin_dir "ascii-player.bat")
                       (bat_launcher (sys_executable h)
                                     (join install_dir "ascii_player.py"))]
          else [EWrite (join bin_dir "ascii-player")
                       (sh_launcher (sys_executable h)
                                    (join install_dir "ascii_player.py"));
                EChmod (join bin_dir "ascii-player") 493])).
Proof.
  intros Hfails. unfold create_application. eff_run; split; reflexivity.
Qed.

Lemma setup_path_spec h bin_dir :
  text_or_absent (read_text h (shell_rc h)) = true ->
  effect (setup_path bin_dir) h (fun r new => r = Done tt /\ operations new = []).
Proof.
  unfold shell_rc, text_or_absent. intros Hread.
  unfold setup_path, Path_home, join. eff_run.
  all: try (split; reflexivity).
  all: try match goal with
         | H : read_text _ _ = Raised ?e |- _ => rewrite H in Hread
         end.
  all: congruence.
Qed.

Lemma setup_path_unreadable h bin_dir e :
  os_name_nt h = false ->
  read_text h (shell_rc h) = Raised e ->
  is_FileNotFoundError e = false ->
  effect (setup_path bin_dir) h (fun r new => r = Raised e /\ operations new = []).
Proof.
  unfold shell_rc. intros Hnt Hread Hother.
  unfold setup_path, Path_home, join. eff_run; try congruence.
  all: split; reflexivity.
Qed.

Lemma create_desktop_entry_spec h :
  (forall ev, fails h ev = None) ->
  effect create_desktop_entry h
    (fun r new =>
       r = Done tt /\
       operations new =
         if negb (os_name_nt h) && sys_platform_linux h then desktop_layout else []).
Proof.
  intros Hfails. unfold create_desktop_entry, Path_home, join.
  eff_run; split; reflexivity.
Qed.

(** *** The installer as a whole *)


(** X11.  [install_dependencies] starts [pip] exactly when [import cv2] raises
    [ImportError]: with OpenCV importable no process is started; any
    other exception of the import propagates untouched; and when [pip]
    is run, its failure is the failure of [install_dependencies]. *)
Theorem pip_runs_only_when_cv2_is_missing h :
  let run := install_dependencies h in
  match import_cv2 h with
  | None => fst run = Done tt /\ operations (new_events h (snd run)) = []
  | Some e =>
      if is_ImportError e then
        operations (new_events h (snd run)) = [pip_install h] /\
        fst run = match fails h (pip_install h) with
                  | Some e' => Raised e'
                  | None => Done tt
                  end
      else fst run = Raised e /\ operations (new_events h (snd run)) = []
  end.
Proof. exact (effect_run _ _ _ (install_dependencies_spec h)). Qed.

(** X12.  When OpenCV is missing and [pip] fails, [main] reports it and exits
    with status 1 before anything is written: the [pip] command is the
    only operation of the run.  An interrupt during [pip] is reported as
    a cancellation, any other failure as a failed installation. *)
Theorem failed_pip_aborts_before_any_file h word e :
  tuple_lt (sys_version_info h) [3; 6] = false ->
  first_word (sys_version h) = Done word ->
  import_cv2 h = Some ImportError ->
  fails h (pip_install h) = Some e ->
  no_exit e = true ->
  let run := main PLAYER_CODE h in
  fst run = Raised (SystemExit 1) /\
  operations (new_events h (snd run)) = [pip_install h] /\
  last (new_events h (snd run)) (EPrint []) =
    (if is_KeyboardInterrupt e
     then EPrint [Lit (nl ++ nl ++ "[X] Installation cancelled")]
     else EPrint [Lit (nl ++ "[X] Installation failed: "); Exn e]).
Proof.
  intros Hv Hw Himp Hpip Hexit. cbv zeta.
  apply (effect_run (main PLAYER_CODE) h
           (fun r new =>
              r = Raised (SystemExit 1) /\ operations new = [pip_install h] /\
              last new (EPrint []) =
                (if is_KeyboardInterrupt e
                 then EPrint [Lit (nl ++ nl ++ "[X] Installation cancelled")]
                 else EPrint [Lit (nl ++ "[X] Installation failed: "); Exn e]))).
  unfold pip_install in *.
  unfold main, print_header, check_python, install_dependencies.
  eff_run; try congruence.
  all: try (destruct e; discriminate).
  all: repeat split; reflexivity.
Qed.


(** Calling a function of the installer whose effect is known. *)
Lemma effect_call {X Y : Type} (m : I X) (k : X -> I Y) h
    (P : outcome X -> list Event -> Prop) (Q : outcome Y -> list Event -> Prop) :
  effect m h P ->
  (forall r new, P r new ->
     match r with
     | Done a => effect (k a) (extend h new) (fun r' new' => Q r' (new ++ new'))
     | Raised e => Q (Raised e) new
     end) ->
  effect (bind m k) h Q.
Proof.
  intros Hm Hk. apply effect_bind. eapply effect_mono; [| exact Hm].
  cbv beta. exact Hk.
Qed.

(** X13.  A complete installation.  On a supported Python with OpenCV
    importable, no failing operation and a shell start-up file that is
    readable or absent, [main] returns normally and its file-system
    operations are exactly: create the installation and launcher
    directories, write the player script and make it executable, write
    the launcher -- which quotes [sys.executable] and the path of the
    script just written -- and, except on Windows, make it executable; on
    Linux a desktop entry follows.  On Windows both directories are the
    same one. *)
Theorem complete_installation_layout h word :
  tuple_lt (sys_version_info h) [3; 6] = false ->
  first_word (sys_version h) = Done word ->
  import_cv2 h = None ->
  (forall ev, fails h ev = None) ->
  text_or_absent (read_text h (shell_rc h)) = true ->
  let run := main PLAYER_CODE h in
  fst run = Done tt /\
  operations (new_events h (snd run)) =
    (if os_name_nt h then windows_layout PLAYER_CODE h
     else posix_layout PLAYER_CODE h ++
          (if sys_platform_linux h then desktop_layout else [])).
Proof.
  intros Hv Hw Himp Hfails Hread. cbv zeta.
  apply (effect_run (main PLAYER_CODE) h
           (fun r new =>
              r = Done tt /\
              operations new =
                (if os_name_nt h then windows_layout PLAYER_CODE h
                 else posix_layout PLAYER_CODE h ++
                      (if sys_platform_linux h then desktop_layout else [])))).
  unfold main.
  eapply effect_call; [apply print_header_spec |].
  intros r n0 [-> H0]. apply effect_try_except2.
  eapply effect_call; [apply (check_python_spec _ word); [exact Hv | exact Hw] |].
  intros r n1 [-> H1].
  eapply effect_call; [apply install_dependencies_spec |].
  esimpl. rewrite Himp. intros r n2 [-> H2].
  eapply effect_call; [apply get_install_location_spec |].
  esimpl. intros r n3 [-> ->].
  destruct (os_name_nt h) eqn:Hnt.
  - eapply effect_call; [apply create_application_spec; exact Hfails |].
    esimpl. rewrite Hnt. intros r n4 [-> H4].
    eapply effect_call; [apply setup_path_spec; exact Hread |].
    intros r n5 [-> H5].
    eapply effect_call; [apply create_desktop_entry_spec; exact Hfails |].
    esimpl. rewrite Hnt. intros r n6 [-> H6].
    eapply effect_call; [apply print_usage_spec |].
    intros r n7 [-> H7].
    eff_run. split; [reflexivity |].
    rewrite !operations_app, H0, H1, H2, H4, H5, H6, H7. reflexivity.
  - eapply effect_call; [apply create_application_spec; exact Hfails |].
    esimpl. rewrite Hnt. intros r n4 [-> H4].
    eapply effect_call; [apply setup_path_spec; exact Hread |].
    intros r n5 [-> H5].
    eapply effect_call; [apply create_desktop_entry_spec; exact Hfails |].
    esimpl. rewrite Hnt. intros r n6 [-> H6].
    eapply effect_call; [apply print_usage_spec |].
    intros r n7 [-> H7].
    eff_run. split; [reflexivity |].
    rewrite !operations_app, H0, H1, H2, H4, H5, H6, H7.
    destruct (sys_platform_linux h); reflexivity.
Qed.

(** X15.  When the shell start-up file exists but cannot be read (any error
    but [FileNotFoundError]), [setup_path] lets the error through: on a
    system other than Windows [main] reports a failed installation and
    exits with status 1 although the player and its launcher have been
    written; the desktop entry and the usage notes are skipped. *)
Theorem unreadable_shell_rc_fails_after_install h word e :
  tuple_lt (sys_version_info h) [3; 6] = false ->
  first_word (sys_version h) = Done word ->
  import_cv2 h = None ->
  (forall ev, fails h ev = None) ->
  os_name_nt h = false ->
  read_text h (shell_rc h) = Raised e ->
  is_FileNotFoundError e = false ->
  is_Exception e = true ->
  let run := main PLAYER_CODE h in
  fst run = Raised (SystemExit 1) /\
  operations (new_events h (snd run)) = posix_layout PLAYER_CODE h /\
  last (new_events h (snd run)) (EPrint []) =
    EPrint [Lit (nl ++ "[X] Installation failed: "); Exn e].
Proof.
  intros Hv Hw Himp Hfails Hnt Hread Hother Hexc. cbv zeta.
  apply (effect_run (main PLAYER_CODE) h
           (fun r new =>
              r = Raised (SystemExit 1) /\
              operations new = posix_layout PLAYER_CODE h /\
              last new (EPrint []) =
                EPrint [Lit (nl ++ "[X] Installation failed: "); Exn e])).
  unfold main.
  eapply effect_call; [apply print_header_spec |].
  intros r n0 [-> H0]. apply effect_try_except2.
  eapply effect_call; [apply (check_python_spec _ word); [exact Hv | exact Hw] |].
  intros r n1 [-> H1].
  eapply effect_call; [apply install_dependencies_spec |].
  esimpl. rewrite Himp. intros r n2 [-> H2].
  eapply effect_call; [apply get_install_location_spec |].
  esimpl. rewrite Hnt. intros r n3 [-> ->].
  eapply effect_call; [apply create_application_spec; exact Hfails |].
  esimpl. rewrite Hnt. intros r n4 [-> H4].
  eapply effect_call;
    [apply (setup_path_unreadable _ _ e); [exact Hnt | exact Hread | exact Hother] |].
  intros r n5 [-> H5].
  assert (Hk : is_KeyboardInterrupt e = false) by (destruct e; try reflexivity; discriminate).
  rewrite Hk, Hexc.
  eff_run. split; [reflexivity |].
  rewrite !operations_app, H0, H1, H2, H4, H5. split; [reflexivity |].
  rewrite !app_assoc. apply last_last.
Qed.


(** X14.  A failing [os.chmod] of the player script is ignored, whatever it
    raises -- the bare [except] swallows even an interrupt: when every
    other operation succeeds, [create_application] returns the launcher
    directory after the same operations as when nothing fails. *)
Theorem failing_player_chmod_is_ignored h install_dir bin_dir e :
  fails h (EChmod (join install_dir "ascii_player.py") 493) = Some e ->
  (forall ev, ev <> EChmod (join install_dir "ascii_player.py") 493 ->
              fails h ev = None) ->
  let run := create_application PLAYER_CODE install_dir bin_dir h in
  fst run = Done bin_dir /\
  operations (new_events h (snd run)) =
    [EMkdir install_dir; EMkdir bin_dir;
     EWrite (join install_dir "ascii_player.py") [Lit PLAYER_CODE];
     EChmod (join install_dir "ascii_player.py") 493] ++
    (if os_name_nt h
     then [EWrite (join bin_dir "ascii-player.bat")
                  (bat_launcher (sys_executable h)
                                (join install_dir "ascii_player.py"))]
     else [EWrite (join bin_dir "ascii-player")
                  (sh_launcher (sys_executable h)
                               (join install_dir "ascii_player.py"));
           EChmod (join bin_dir "ascii-player") 493]).
Proof.
  intros Hchmod Hothers. cbv zeta.
  apply (effect_run (create_application PLAYER_CODE install_dir bin_dir) h
           (fun r new =>
              r = Done bin_dir /\
              operations new =
                [EMkdir install_dir; EMkdir bin_dir;
                 EWrite (join install_dir "ascii_player.py") [Lit PLAYER_CODE];
                 EChmod (join install_dir "ascii_player.py") 493] ++
                (if os_name_nt h
                 then [EWrite (join bin_dir "ascii-player.bat")
                              (bat_launcher (sys_executable h)
                                            (join install_dir "ascii_player.py"))]
                 else [EWrite (join bin_dir "ascii-player")
                              (sh_launcher (sys_executable h)
                                           (join install_dir "ascii_player.py"));
                       EChmod (join bin_dir "ascii-player") 493]))).
  unfold create_application. eff_run.
  all: try match goal with
         | Hf : fails _ ?ev = Some _ |- _ =>
             rewrite (Hothers ev) in Hf;
             [ discriminate Hf
             | first [ discriminate
                     | let H := fresh in
                       intros H; injection H as H;
                       apply app_inj_tail in H as [_ H]; discriminate H ] ]
         end.
  all: split; reflexivity.
Qed.

(** *** What the installer never does *)

Lemma no_exit_tolerable e : no_exit e = true -> tolerable e = true.
Proof. destruct e; try reflexivity. discriminate. Qed.

Lemma first_word_raises s e : first_word s = Raised e -> e = IndexError.
Proof.
  induction s as [| c s IH]; cbn [first_word]; [congruence |].
  destruct (is_space c); [exact IH | discriminate].
Qed.

Lemma inside_join p n : inside p = true -> inside (join p n) = true.
Proof. destruct p; [discriminate | exact (fun H => H)]. Qed.

Ltac modest_leaf :=
  unfold modest; split;
  [ cbn [forallb owned target andb]; rewrite ?inside_join by assumption;
    repeat match goal with H : inside _ = true |- _ => rewrite H end;
    reflexivity
  | let Hs := fresh "Hs" in
    let He := fresh "He" in
    intros Hs ? He;
    try match goal with Hk : _ -> sane _ |- _ => apply Hk in Hs end;
    first
      [ discriminate He
      | injection He as <-;
        first
          [ reflexivity
          | apply no_exit_tolerable;
            first [ eapply (proj1 Hs); eassumption
                  | eapply (proj1 (proj2 Hs)); eassumption
                  | eapply (proj2 (proj2 Hs)); eassumption ]
          | match goal with
            | H : first_word _ = Raised _ |- _ =>
                apply first_word_raises in H; subst; reflexivity
            end ] ] ].

Lemma modest_call {X Y : Type} (m : I X) (k : X -> I Y) h known (V : X -> Prop) :
  effect m h (fun r new => modest known r new /\ forall a, r = Done a -> V a) ->
  (forall a new, V a -> effect (k a) (extend h new) (modest known)) ->
  effect (bind m k) h (modest known).
Proof.
  intros Hm Hk. eapply effect_call; [exact Hm |].
  cbv beta. intros [a | e] new [[Ho Ht] Hv].
  - eapply effect_mono; [| apply Hk, Hv; reflexivity].
    cbv beta. intros r' new' [Ho' Ht']. split; [| exact Ht'].
    now rewrite forallb_app, Ho, Ho'.
  - split; [exact Ho |]. intros Hkn e' [= <-]. now apply Ht.
Qed.

Lemma modest_any {X : Type} (m : I X) h known :
  effect m h (modest known) ->
  effect m h (fun r new => modest known r new /\ forall a, r = Done a -> True).
Proof. apply effect_mono. auto. Qed.

Lemma print_header_modest h known : effect print_header h (modest known).
Proof. unfold print_header. eff_run. modest_leaf. Qed.

Lemma print_usage_modest h known : effect print_usage h (modest known).
Proof. unfold print_usage. eff_run. modest_leaf. Qed.

Lemma check_python_modest h known : effect check_python h (modest known).
Proof. unfold check_python. eff_run; modest_leaf. Qed.

Lemma install_dependencies_modest h known :
  (known -> sane h) -> effect install_dependencies h (modest known).
Proof. intros Hk. unfold install_dependencies. eff_run; modest_leaf. Qed.

Lemma get_install_location_modest h known :
  effect get_install_location h
    (fun r new => modest known r new /\
                  forall dirs, r = Done dirs ->
                               inside (fst dirs) = true /\ inside (snd dirs) = true).
Proof.
  unfold get_install_location, Path_home, join. eff_run.
  all: split; [modest_leaf | intros dirs [= <-]; split; reflexivity].
Qed.

Lemma create_application_modest h known install_dir bin_dir :
  (known -> sane h) ->
  inside install_dir = true -> inside bin_dir = true ->
  effect (create_application PLAYER_CODE install_dir bin_dir) h (modest known).
Proof.
  intros Hk Hi Hb. unfold create_application. eff_run; modest_leaf.
Qed.

Lemma setup_path_modest h known bin_dir :
  (known -> sane h) -> effect (setup_path bin_dir) h (modest known).
Proof. intros Hk. unfold setup_path, Path_home, join. eff_run; modest_leaf. Qed.

Lemma create_desktop_entry_modest h known :
  (known -> sane h) -> effect create_desktop_entry h (modest known).
Proof.
  intros Hk. unfold create_desktop_entry, Path_home, join. eff_run; modest_leaf.
Qed.


Lemma main_body_modest h :
  effect (check_python ;;
          install_dependencies ;;
          dirs <- get_install_location ;;
          let '(install_dir, bin_dir) := dirs in
          create_application PLAYER_CODE install_dir bin_dir ;;
          setup_path bin_dir ;;
          create_desktop_entry ;;
          print_usage ;;
          print [Lit (str_mul "=" 60)] ;;
          print [Lit "[SUCCESS] Installation complete!"] ;;
          print [Lit (str_mul "=" 60)] ;;
          print [] ;;
          print [Lit "TIP: Restart your terminal to use 'ascii-player' command"] ;;
          print []) h (modest (sane h)).
Proof.
  apply (modest_call _ _ _ _ (fun _ => True));
    [apply modest_any, check_python_modest | intros _ n1 _].
  apply (modest_call _ _ _ _ (fun _ => True));
    [apply modest_any, install_dependencies_modest; exact (fun H => H)
    | intros _ n2 _].
  apply (modest_call _ _ _ _
           (fun dirs => inside (fst dirs) = true /\ inside (snd dirs) = true));
    [apply get_install_location_modest | intros [install_dir bin_dir] n3 [Hi Hb]].
  cbn [fst snd] in Hi, Hb.
  apply (modest_call _ _ _ _ (fun _ => True));
    [apply modest_any, create_application_modest;
       [exact (fun H => H) | assumption | assumption]
    | intros _ n4 _].
  apply (modest_call _ _ _ _ (fun _ => True));
    [apply modest_any, setup_path_modest; exact (fun H => H) | intros _ n5 _].
  apply (modest_call _ _ _ _ (fun _ => True));
    [apply modest_any, create_desktop_entry_modest; exact (fun H => H)
    | intros _ n6 _].
  apply (modest_call _ _ _ _ (fun _ => True));
    [apply modest_any, print_usage_modest | intros _ n7 _].
  eff_run. modest_leaf.
Qed.

Lemma print_header_owned h :
  effect print_header h (fun r new => r = Done tt /\ forallb owned new = true).
Proof. unfold print_header. eff_run. split; reflexivity. Qed.

Lemma main_modest h :
  effect (main PLAYER_CODE) h
    (fun r new =>
       forallb owned new = true /\
       (sane h -> r = Done tt \/ r = Raised (SystemExit 1))).
Proof.
  unfold main.
  eapply effect_call; [apply print_header_owned |].
  cbv beta. intros r n0 [-> H0].
  apply effect_try_except2.
  eapply effect_mono; [| apply main_body_modest].
  cbv beta. intros r new [Ho Ht].
  destruct r as [[] | e].
  - split; [now rewrite forallb_app, H0, Ho | auto].
  - destruct e; esimpl; eff_run.
    all: rewrite ?forallb_app, H0, ?Ho; cbn [forallb owned target andb].
    all: split; [reflexivity | intros Hs; auto].
    right. specialize (Ht Hs _ eq_refl). cbn [tolerable] in Ht.
    apply Z.eqb_eq in Ht. now subst.
Qed.

(** X16.  Whatever fails and wherever: every directory the installer creates
    and every file it writes or makes executable lies under [~/.local]
    or [~/AppData].  In particular it never writes to the shell start-up
    file it reads. *)
Theorem installer_stays_in_its_directories h :
  let new := new_events h (snd (main PLAYER_CODE h)) in
  forallb inside (filter_map target new) = true /\
  ~ In (shell_rc h) (filter_map target new).
Proof.
  cbv zeta. pose proof (effect_run _ _ _ (main_modest h)) as [Ho _].
  cbv beta in Ho.
  assert (Hin : forallb inside
                  (filter_map target (new_events h (snd (main PLAYER_CODE h)))) = true).
  { induction (new_events h (snd (main PLAYER_CODE h))) as [| ev t IH];
      [reflexivity |].
    cbn [forallb] in Ho. apply andb_prop in Ho as [Hev Ht].
    cbn [filter_map]. unfold owned in Hev.
    destruct (target ev); cbn [forallb]; [rewrite Hev |]; auto. }
  split; [exact Hin |].
  intros Hrc. rewrite forallb_forall in Hin. specialize (Hin _ Hrc).
  unfold shell_rc in Hin. destruct (path_exists h _); discriminate Hin.
Qed.



(** *** The shell start-up file *)

Lemma prefix_append a b : String.prefix a (a ++ b) = true.
Proof.
  induction a as [| c a IH]; cbn [String.append String.prefix].
  - now destruct b.
  - destruct (ascii_dec c c) as [_ | Hc]; [exact IH | now contradiction Hc].
Qed.

Lemma contains_append pre needle post :
  contains needle (pre ++ needle ++ post) = true.
Proof.
  induction pre as [| c pre IH]; cbn [String.append].
  - destruct (needle ++ post)%string eqn:Hs; cbn [contains];
      rewrite <- Hs, prefix_append; reflexivity.
  - cbn [contains]. rewrite IH. apply orb_true_r.
Qed.

(** X18.  On a system other than Windows, when the shell start-up file
    [setup_path] looks at -- [~/.zshrc] if it exists, [~/.bashrc]
    otherwise -- holds the [export PATH=...] line anywhere in its text,
    [setup_path] says that the PATH is already configured, names the
    file, and returns: no instructions are printed and nothing is
    written. *)
Theorem configured_path_is_recognised h bin_dir pre post :
  os_name_nt h = false ->
  read_text h (shell_rc h) = Done (pre ++ path_line ++ post)%string ->
  let run := setup_path bin_dir h in
  fst run = Done tt /\
  new_events h (snd run) =
    [EPrint [Lit "[*] PATH SETUP"];
     EPrint [Lit (str_mul "-" 60)];
     EPrint [Lit "[OK] PATH already configured in "; PathP (shell_rc h)];
     EPrint []].
Proof.
  unfold shell_rc. intros Hnt Hread. cbv zeta.
  apply (effect_run (setup_path bin_dir) h
           (fun r new =>
              r = Done tt /\
              new =
                [EPrint [Lit "[*] PATH SETUP"];
                 EPrint [Lit (str_mul "-" 60)];
                 EPrint [Lit "[OK] PATH already configured in ";
                         PathP (if path_exists h [".zshrc"%string]
                                then [".zshrc"%string] else [".bashrc"%string])];
                 EPrint []])).
  unfold setup_path, Path_home, join.
  pose proof (contains_append pre path_line post) as Hc.
  eff_run; try congruence.
  all: split; reflexivity.
Qed.

End InstallerFacts.

(** ** The theorems on the installer, on concrete hosts *)


Lemma failed_pip_aborts_before_any_file_witness :
  let h := Hosts.linux [3; 11; 4] (Some Installer.ImportError)
             Hosts.pip_fails Hosts.no_file in
  let e := Installer.CalledProcessError 1 in
  let run := Installer.main Hosts.code h in
  fst run = Installer.Raised (Installer.SystemExit 1) /\
  Installer.operations (Installer.new_events h (snd run)) = [Installer.pip_install h] /\
  last (Installer.new_events h (snd run)) (Installer.EPrint []) =
    (if Installer.is_KeyboardInterrupt e
     then Installer.EPrint [Installer.Lit (nl ++ nl ++ "[X] Installation cancelled")]
     else Installer.EPrint [Installer.Lit (nl ++ "[X] Installation failed: ");
                            Installer.Exn e]).
Proof.
  intros h e.
  apply (failed_pip_aborts_before_any_file Hosts.code h "3.11.4" e); reflexivity.
Defined.

Lemma complete_installation_layout_witness :
  let h := Hosts.linux [3; 11; 4] None Hosts.nothing_fails Hosts.no_file in
  let run := Installer.main Hosts.code h in
  fst run = Installer.Done tt /\
  Installer.operations (Installer.new_events h (snd run)) =
    (if Installer.os_name_nt h then Installer.windows_layout Hosts.code h
     else Installer.posix_layout Hosts.code h ++
          (if Installer.sys_platform_linux h then Installer.desktop_layout else [])).
Proof.
  intros h.
  apply (complete_installation_layout Hosts.code h "3.11.4"); reflexivity.
Defined.

Lemma unreadable_shell_rc_fails_after_install_witness :
  let h := Hosts.linux [3; 11; 4] None Hosts.nothing_fails Hosts.no_permission in
  let e := Installer.OSError "PermissionError" in
  let run := Installer.main Hosts.code h in
  fst run = Installer.Raised (Installer.SystemExit 1) /\
  Installer.operations (Installer.new_events h (snd run)) =
    Installer.posix_layout Hosts.code h /\
  last (Installer.new_events h (snd run)) (Installer.EPrint []) =
    Installer.EPrint [Installer.Lit (nl ++ "[X] Installation failed: ");
                      Installer.Exn e].
Proof.
  intros h e.
  apply (unreadable_shell_rc_fails_after_install Hosts.code h "3.11.4" e);
    reflexivity.
Defined.

Lemma failing_player_chmod_is_ignored_witness :
  let h := Hosts.linux [3; 11; 4] None Hosts.chmod_fails Hosts.no_file in
  let run := Installer.create_application Hosts.code Hosts.install_dir Hosts.bin_dir h in
  fst run = Installer.Done Hosts.bin_dir /\
  Installer.operations (Installer.new_events h (snd run)) =
    [Installer.EMkdir Hosts.install_dir; Installer.EMkdir Hosts.bin_dir;
     Installer.EWrite (Installer.join Hosts.install_dir "ascii_player.py")
                      [Installer.Lit Hosts.code];
     Installer.EChmod (Installer.join Hosts.install_dir "ascii_player.py") 493] ++
    (if Installer.os_name_nt h
     then [Installer.EWrite (Installer.join Hosts.bin_dir "ascii-player.bat")
             (Installer.bat_launcher (Installer.sys_executable h)
                (Installer.join Hosts.install_dir "ascii_player.py"))]
     else [Installer.EWrite (Installer.join Hosts.bin_dir "ascii-player")
             (Installer.sh_launcher (Installer.sys_executable h)
                (Installer.join Hosts.install_dir "ascii_player.py"));
           Installer.EChmod (Installer.join Hosts.bin_dir "ascii-player") 493]).
Proof.
  intros h.
  apply (failing_player_chmod_is_ignored Hosts.code h Hosts.install_dir Hosts.bin_dir
           (Installer.OSError "PermissionError")).
  - reflexivity.
  - intros ev Hev. destruct ev as [| | | | p mode]; try reflexivity.
    cbn [h Hosts.linux Installer.fails Hosts.chmod_fails].
    destruct (list_eq_dec string_dec p _) as [-> |]; [| reflexivity].
    destruct (Z.eqb_spec mode 493) as [-> |]; [| reflexivity].
    contradiction Hev. reflexivity.
Defined.


Lemma configured_path_is_recognised_witness :
  let h := Hosts.linux [3; 11; 4] None Hosts.nothing_fails Hosts.configured in
  let run := Installer.setup_path Hosts.bin_dir h in
  fst run = Installer.Done tt /\
  Installer.new_events h (snd run) =
    [Installer.EPrint [Installer.Lit "[*] PATH SETUP"];
     Installer.EPrint [Installer.Lit (Installer.str_mul "-" 60)];
     Installer.EPrint [Installer.Lit "[OK] PATH already configured in ";
                       Installer.PathP (Installer.shell_rc h)];
     Installer.EPrint []].
Proof.
  intros h.
  apply (configured_path_is_recognised h Hosts.bin_dir
           ("# ~/.bashrc" ++ nl)%string nl); reflexivity.
Defined.
